(** * googleSync: reconciliation of an Obsidian vault with a Google Drive folder

    A shallow embedding of [pullFromGoogle.py], [push2Google.py] and
    [sync.py], and the properties of the reconciliation engine that the
    specification states about them.

    Conventions of the embedding.
    - A Python [dict] is an association list with Python's semantics:
      insertion order is kept (the action lists inherit it), assignment to
      a present key replaces the value in place, [del] of an absent key is
      a [KeyError].
    - The vault is a tree of files and directories; relative paths are the
      POSIX strings the scripts build, split on [/] where [pathlib] does.
    - The Drive service is a store of objects with parent pointers, a
      fault oracle standing for transport errors, and a counter from which
      fresh object ids and modification times are drawn.  Times are ticks:
      the scripts only compare them with [!=].
    - An exception is the [Raise] constructor of [result]; an exception
      that no [try] catches ends the process with exit status 1.
    - File names are strings of bytes.  [str.lower] and [hashlib.sha256]
      are Python's: the embedding takes each as a parameter and assumes
      nothing of it. *)

From Stdlib Require Import String Ascii List Bool Arith Lia DecimalString.
Import ListNotations.
Open Scope string_scope.

Set Implicit Arguments.
Set Warnings "-register-all".

(** ** Strings and relative paths *)

(** [str.endswith] *)
Definition endswith (s suffix : string) : bool :=
  let n := String.length s in
  let m := String.length suffix in
  (m <=? n)%nat && (substring (n - m) m s =? suffix).

(** [f"{path}/{item_name}" if path else item_name] *)
Definition join (path name : string) : string :=
  if path =? "" then name else path ++ "/" ++ name.

Fixpoint split_slash (acc s : string) : list string :=
  match s with
  | EmptyString => [acc]
  | String c r =>
      if Ascii.eqb c "/"%char then acc :: split_slash "" r
      else split_slash (acc ++ String c "") r
  end.

(** [Path(s).parts] of a relative path: empty and [.] components vanish. *)
Definition parts (s : string) : list string :=
  filter (fun c => negb (c =? "") && negb (c =? ".")) (split_slash "" s).

Definition str_of_nat (n : nat) : string :=
  NilEmpty.string_of_uint (Nat.to_uint n).

Definition is_nil {A : Type} (l : list A) : bool :=
  match l with [] => true | _ :: _ => false end.

(** ** Results of operations that may raise *)

Inductive result (A : Type) : Type :=
| Ok (a : A)
| Raise.
Arguments Raise {A}.

(** ** Python dictionaries *)

Module Dict.
Section Ops.
Variable V : Type.

Definition t := list (string * V).

Definition empty : t := [].

(** [d.get(k)] *)
Fixpoint get (d : t) (k : string) : option V :=
  match d with
  | [] => None
  | (k', v) :: r => if k' =? k then Some v else get r k
  end.

(** [k in d] *)
Definition mem (k : string) (d : t) : bool :=
  match get d k with Some _ => true | None => false end.

(** [d[k] = v] *)
Fixpoint set (d : t) (k : string) (v : V) : t :=
  match d with
  | [] => [(k, v)]
  | (k', v') :: r => if k' =? k then (k', v) :: r else (k', v') :: set r k v
  end.

(** [d.update(other)] *)
Definition update (d other : t) : t :=
  fold_left (fun acc kv => set acc (fst kv) (snd kv)) other d.

(** [del d[k]]; [None] is the [KeyError]. *)
Fixpoint del (d : t) (k : string) : option t :=
  match d with
  | [] => None
  | (k', v) :: r =>
      if k' =? k then Some r
      else match del r k with
           | Some r' => Some ((k', v) :: r')
           | None => None
           end
  end.

Definition keys (d : t) : list string := map fst d.
End Ops.
End Dict.

Abbreviation dict := Dict.t.

(** ** The local vault *)

Inductive node : Type :=
| File (name : string) (data : string) (mtime : nat)
| Dir (name : string) (entries : list node).

Definition node_name (n : node) : string :=
  match n with File name _ _ => name | Dir name _ => name end.

Definition is_dir (n : node) : bool :=
  match n with Dir _ _ => true | File _ _ _ => false end.

Fixpoint find_entry (name : string) (entries : list node) : option node :=
  match entries with
  | [] => None
  | x :: r => if node_name x =? name then Some x else find_entry name r
  end.

Fixpoint put_entry (n : node) (entries : list node) : list node :=
  match entries with
  | [] => [n]
  | x :: r =>
      if node_name x =? node_name n then n :: r else x :: put_entry n r
  end.

Fixpoint remove_entry (name : string) (entries : list node) : list node :=
  match entries with
  | [] => []
  | x :: r => if node_name x =? name then r else x :: remove_entry name r
  end.

Fixpoint lookup_path (p : list string) (entries : list node) : option node :=
  match p with
  | [] => None
  | name :: rest =>
      match find_entry name entries, rest with
      | Some x, [] => Some x
      | Some (Dir _ sub), _ :: _ => lookup_path rest sub
      | _, _ => None
      end
  end.

(** [(VAULT_PATH / file_path).exists()] *)
Definition path_exists (vault : list node) (file_path : string) : bool :=
  match parts file_path with
  | [] => true
  | p => match lookup_path p vault with Some _ => true | None => false end
  end.

(** [path.mkdir(parents=True, exist_ok=True)]; a component that is a
    regular file raises. *)
Fixpoint mkdir_p (dirs : list string) (entries : list node)
  : option (list node) :=
  match dirs with
  | [] => Some entries
  | d :: rest =>
      match find_entry d entries with
      | Some (File _ _ _) => None
      | Some (Dir _ sub) =>
          match mkdir_p rest sub with
          | Some sub' => Some (put_entry (Dir d sub') entries)
          | None => None
          end
      | None =>
          match mkdir_p rest [] with
          | Some sub' => Some (put_entry (Dir d sub') entries)
          | None => None
          end
      end
  end.

(** [open(local_path, 'wb').write(data)]: the parent must be a directory
    and the target must not be one. *)
Fixpoint write_file (p : list string) (data : string) (now : nat)
    (entries : list node) : option (list node) :=
  match p with
  | [] => None
  | name :: rest =>
      match rest, find_entry name entries with
      | [], Some (Dir _ _) => None
      | [], _ => Some (put_entry (File name data now) entries)
      | _ :: _, Some (Dir _ sub) =>
          match write_file rest data now sub with
          | Some sub' => Some (put_entry (Dir name sub') entries)
          | None => None
          end
      | _ :: _, _ => None
      end
  end.

(** [local_path.unlink()] *)
Fixpoint unlink (p : list string) (entries : list node)
  : option (list node) :=
  match p with
  | [] => None
  | name :: rest =>
      match rest, find_entry name entries with
      | [], Some (File _ _ _) => Some (remove_entry name entries)
      | _ :: _, Some (Dir _ sub) =>
          match unlink rest sub with
          | Some sub' => Some (put_entry (Dir name sub') entries)
          | None => None
          end
      | _, _ => None
      end
  end.

(** [VAULT_PATH.glob('**/*.md')]: every entry, at any depth, whose name
    matches [*.md]; [pathlib] does not skip dot files, and a directory
    with such a name matches too.  [pathlib] goes through the directories
    parent first, and for each one yields the matching entries in the
    order of the directory before it goes down into a subdirectory. *)

(** The entries of the directory at [prefix] that match [*.md]. *)
Definition glob_here (prefix : string) (entries : list node)
  : list (string * node) :=
  flat_map
    (fun n =>
       if endswith (node_name n) ".md" then [(join prefix (node_name n), n)]
       else [])
    entries.

(** The matches below the entry [n] of the directory at [prefix]: none
    for a file; for a directory, those of its entries, then those below
    each of its subdirectories. *)
Fixpoint glob_md_node (prefix : string) (n : node) : list (string * node) :=
  match n with
  | File _ _ _ => []
  | Dir name entries =>
      let p := join prefix name in
      (glob_here p entries ++ flat_map (glob_md_node p) entries)%list
  end.

Definition glob_md (vault : list node) : list (string * node) :=
  (glob_here "" vault ++ flat_map (glob_md_node "") vault)%list.

(** *** [cleanup_empty_folders] *)

Definition PRESERVE_FOLDERS : list string := ["img"; "weekly"; "neovim"].

Section Compactor.

(** [str.lower] *)
Variable lower : string -> string.

(** [item.name.lower() in PRESERVE_FOLDERS] *)
Definition preserved (name : string) : bool :=
  existsb (String.eqb (lower name)) PRESERVE_FOLDERS.

(** One turn of the loop over [path.iterdir()]: what is left of [item]
    in its parent once it has been visited.  A subdirectory is cleaned
    first, then removed when nothing is left in it and its name is not
    preserved. *)
Fixpoint cleanup_item (item : node) : list node :=
  match item with
  | File _ _ _ => [item]
  | Dir name entries =>
      let remaining := flat_map cleanup_item entries in
      if is_nil remaining && negb (preserved name) then []
      else [Dir name remaining]
  end.

Definition cleanup_empty_folders (entries : list node) : list node :=
  flat_map cleanup_item entries.

End Compactor.

(** ** The Drive service *)

Definition FOLDER_MIME : string := "application/vnd.google-apps.folder".

(** The type Drive gives an uploaded note; any value but [FOLDER_MIME]
    would do. *)
Definition DETECTED_MIME : string := "text/markdown".

Record drive_item : Type := {
  item_id : string;
  item_name : string;
  mime_type : string;
  parent : string;
  modifiedTime : nat;
  trashed : bool;
  media : string
}.

Inductive request : Type :=
| ListRequest (folder_id : string)
| FindFileRequest (filename parent_folder_id : string)
| FindFolderRequest (folder_name parent_folder_id : string)
| CreateRequest (name parent_folder_id mime : string)
| UpdateRequest (file_id : string)
| DeleteRequest (file_id : string)
| MediaRequest (file_id : string).

(** The remote side: its objects, the counter that numbers new objects
    and stamps modifications, and the requests that fail in transport. *)
Record service : Type := {
  objects : list drive_item;
  ticks : nat;
  faulty : request -> bool
}.

Definition with_objects (svc : service) (objs : list drive_item) : service :=
  {| objects := objs; ticks := S (ticks svc); faulty := faulty svc |}.

(** ['<folder_id>' in parents and trashed=false] *)
Definition in_folder (folder_id : string) (o : drive_item) : bool :=
  (parent o =? folder_id) && negb (trashed o).

Definition children (svc : service) (folder_id : string) : list drive_item :=
  filter (in_folder folder_id) (objects svc).

Definition is_folder (o : drive_item) : bool := mime_type o =? FOLDER_MIME.

Definition pageSize : nat := 1000.

(** [service.files().list(q=query, fields="files(...)", pageSize=1000)
    .execute().get('files', [])]: the first page of the listing.  The
    request names no [nextPageToken] and none is followed. *)
Definition list_page (svc : service) (folder_id : string)
  : result (list drive_item) :=
  if faulty svc (ListRequest folder_id) then Raise
  else Ok (firstn pageSize (children svc folder_id)).

Definition find_object (svc : service) (file_id : string)
  : option drive_item :=
  find (fun o => item_id o =? file_id) (objects svc).

Definition fresh_id (svc : service) : string := "id" ++ str_of_nat (ticks svc).

(** [service.files().create(body=..., fields='id').execute().get('id')] *)
Definition create (svc : service) (name parent_folder_id mime data : string)
  : result (string * service) :=
  if faulty svc (CreateRequest name parent_folder_id mime) then Raise
  else
    let o := {| item_id := fresh_id svc; item_name := name; mime_type := mime;
                parent := parent_folder_id; modifiedTime := ticks svc;
                trashed := false; media := data |} in
    Ok (fresh_id svc, with_objects svc (objects svc ++ [o])%list).

Definition set_media (file_id data : string) (now : nat) (o : drive_item)
  : drive_item :=
  if item_id o =? file_id then
    {| item_id := item_id o; item_name := item_name o;
       mime_type := mime_type o; parent := parent o; modifiedTime := now;
       trashed := trashed o; media := data |}
  else o.

(** [get_drive_file_id] *)
Definition get_drive_file_id (svc : service)
    (filename parent_folder_id : string) : result (option string) :=
  if faulty svc (FindFileRequest filename parent_folder_id) then Raise
  else
    match filter (fun o => item_name o =? filename)
                 (children svc parent_folder_id) with
    | [] => Ok None
    | o :: _ => Ok (Some (item_id o))
    end.

(** [get_or_create_folder] *)
Definition get_or_create_folder (svc : service)
    (folder_name parent_folder_id : string) : result (string * service) :=
  if faulty svc (FindFolderRequest folder_name parent_folder_id) then Raise
  else
    match filter (fun o => (item_name o =? folder_name) && is_folder o)
                 (children svc parent_folder_id) with
    | o :: _ => Ok (item_id o, svc)
    | [] => create svc folder_name parent_folder_id FOLDER_MIME ""
    end.

(** A value that Python's [if x:] takes as true. *)
Definition truthy (x : option string) : bool :=
  match x with
  | Some s => negb (s =? "")
  | None => false
  end.

(** [upload_to_drive]: [name] and [data] are the local file's. *)
Definition upload_to_drive (svc : service) (name data : string)
    (parent_folder_id : string) (file_id : option string)
  : result (string * service) :=
  match file_id with
  | Some fid =>
      if truthy file_id then
        if faulty svc (UpdateRequest fid) then Raise
        else match find_object svc fid with
             | Some _ =>
                 Ok (fid, with_objects svc
                            (map (set_media fid data (ticks svc)) (objects svc)))
             | None => Raise
             end
      else create svc name parent_folder_id DETECTED_MIME data
  | None => create svc name parent_folder_id DETECTED_MIME data
  end.

(** [delete_from_drive] *)
Definition delete_from_drive (svc : service) (file_id : string)
  : result service :=
  if faulty svc (DeleteRequest file_id) then Raise
  else match find_object svc file_id with
       | Some _ =>
           Ok (with_objects svc
                 (filter (fun o => negb (item_id o =? file_id)) (objects svc)))
       | None => Raise
       end.

(** The bytes that [MediaIoBaseDownload] collects for [file_id]. *)
Definition get_media (svc : service) (file_id : string) : result string :=
  if faulty svc (MediaRequest file_id) then Raise
  else match find_object svc file_id with
       | Some o => Ok (media o)
       | None => Raise
       end.

(** *** [list_drive_files] *)

Record drive_info : Type := { id : string; modified_in_drive : nat }.

(** The extensions that the remote scan keeps. *)
Definition recognized (item_name : string) : bool :=
  endswith item_name ".md" || endswith item_name ".txt" ||
  endswith item_name ".png" || endswith item_name ".jpg" ||
  endswith item_name ".jpeg" || endswith item_name ".gif" ||
  endswith item_name ".webp" || endswith item_name ".svg".

(** One turn of [for item in items], [files_dict] being the accumulator;
    [recurse] is the recursive call of [list_drive_files]. *)
Definition scan_item (recurse : string -> string -> result (dict drive_info))
    (path : string) (acc : result (dict drive_info)) (item : drive_item)
  : result (dict drive_info) :=
  match acc with
  | Raise => Raise
  | Ok files_dict =>
      if is_folder item then
        match recurse (item_id item) (join path (item_name item)) with
        | Ok subfiles => Ok (Dict.update files_dict subfiles)
        | Raise => Raise
        end
      else if recognized (item_name item) then
        Ok (Dict.set files_dict (join path (item_name item))
              {| id := item_id item; modified_in_drive := modifiedTime item |})
      else Ok files_dict
  end.

(** [depth] is the number of frames left before Python's recursion limit;
    running out of them is the [RecursionError]. *)
Fixpoint list_drive_files (depth : nat) (svc : service)
    (folder_id path : string) : result (dict drive_info) :=
  match depth with
  | 0 => Raise
  | S depth' =>
      match list_page svc folder_id with
      | Raise => Raise
      | Ok items =>
          fold_left (scan_item (list_drive_files depth' svc) path) items
                    (Ok (Dict.empty drive_info))
      end
  end.

(** ** The manifest and the machine a run starts on *)

(** An entry of [.checksums.json]; [None] is a key that [.get] does not
    find (or finds with [null]). *)
Record entry : Type := {
  checksum : string;
  modified : nat;
  drive_id : option string;
  drive_modified : option nat
}.

(** What a run does to files, in the order it does it.  An event is
    recorded when the call is made, whatever its outcome. *)
Inductive event : Type :=
| Download (file_path : string)
| Upload (file_path : string)
| DeleteLocal (file_path : string)
| DeleteRemote (file_path file_id : string).

Record world : Type := {
  GOOGLE_API_AVAILABLE : bool;
  credentials_exist : bool;
  recursion_limit : nat;
  vault : list node;
  checksum_file : option (dict entry);
  drive : service;
  clock : nat;
  trace : list event
}.

Definition with_vault (w : world) (v : list node) : world :=
  {| GOOGLE_API_AVAILABLE := GOOGLE_API_AVAILABLE w;
     credentials_exist := credentials_exist w;
     recursion_limit := recursion_limit w;
     vault := v; checksum_file := checksum_file w; drive := drive w;
     clock := clock w; trace := trace w |}.

Definition with_checksum_file (w : world) (c : dict entry) : world :=
  {| GOOGLE_API_AVAILABLE := GOOGLE_API_AVAILABLE w;
     credentials_exist := credentials_exist w;
     recursion_limit := recursion_limit w;
     vault := vault w; checksum_file := Some c; drive := drive w;
     clock := clock w; trace := trace w |}.

Definition with_drive (w : world) (svc : service) : world :=
  {| GOOGLE_API_AVAILABLE := GOOGLE_API_AVAILABLE w;
     credentials_exist := credentials_exist w;
     recursion_limit := recursion_limit w;
     vault := vault w; checksum_file := checksum_file w; drive := svc;
     clock := clock w; trace := trace w |}.

Definition tick (w : world) : world :=
  {| GOOGLE_API_AVAILABLE := GOOGLE_API_AVAILABLE w;
     credentials_exist := credentials_exist w;
     recursion_limit := recursion_limit w;
     vault := vault w; checksum_file := checksum_file w; drive := drive w;
     clock := S (clock w); trace := trace w |}.

Definition record (w : world) (e : event) : world :=
  {| GOOGLE_API_AVAILABLE := GOOGLE_API_AVAILABLE w;
     credentials_exist := credentials_exist w;
     recursion_limit := recursion_limit w;
     vault := vault w; checksum_file := checksum_file w; drive := drive w;
     clock := clock w; trace := (trace w ++ [e])%list |}.

(** [load_checksums] *)
Definition load_checksums (w : world) : dict entry :=
  match checksum_file w with
  | Some c => c
  | None => Dict.empty entry
  end.

(** [save_checksums] *)
Definition save_checksums (checksums : dict entry) (w : world) : world :=
  with_checksum_file w checksums.

(** [get_google_drive_service]: [None] when the client libraries or
    [credentials.json] are missing.  The stored token is taken to be
    valid, so no interactive flow starts. *)
Definition get_google_drive_service (w : world) : option service :=
  if negb (GOOGLE_API_AVAILABLE w) then None
  else if negb (credentials_exist w) then None
  else Some (drive w).

Definition DRIVE_FOLDER_ID : string := "1rtokeqgAen02UyJDbPtBVCyczk5ssqhG".

(** How a call of a script's entry function ends. *)
Inductive outcome : Type :=
| Returned
| Crashed.

(** The exit status of the interpreter. *)
Definition exit_status (o : outcome) : nat :=
  match o with
  | Returned => 0
  | Crashed => 1
  end.

Section Scripts.

(** The SHA-256 hex digest of a byte string. *)
Variable sha256 : string -> string.

(** [str.lower] *)
Variable lower : string -> string.

(** [calculate_checksum]; opening a directory raises. *)
Definition calculate_checksum (n : node) : result string :=
  match n with
  | File _ data _ => Ok (sha256 data)
  | Dir _ _ => Raise
  end.

Definition st_mtime (n : node) : nat :=
  match n with
  | File _ _ mtime => mtime
  | Dir _ _ => 0
  end.

(** ** [pullFromGoogle.py] *)

(** [download_file]: the parent directories are made before the first
    chunk is fetched, the file is written after the last. *)
Definition download_file (svc : service) (file_id local_path : string)
    (w : world) : result unit * world :=
  let p := parts local_path in
  match mkdir_p (removelast p) (vault w) with
  | None => (Raise, w)
  | Some v1 =>
      let w1 := with_vault w v1 in
      match get_media svc file_id with
      | Raise => (Raise, w1)
      | Ok data =>
          match write_file p data (clock w1) v1 with
          | None => (Raise, w1)
          | Some v2 => (Ok tt, tick (with_vault w1 v2))
          end
      end
  end.

(** The first loop of [pull_from_google_drive], over
    [drive_files.items()]. *)
Fixpoint classify_drive_files (local_checksums : dict entry)
    (v : list node) (items : list (string * drive_info))
    (new_files modified_files : list string) : list string * list string :=
  match items with
  | [] => (new_files, modified_files)
  | (file_path, info) :: rest =>
      let continue := classify_drive_files local_checksums v rest in
      match Dict.get local_checksums file_path with
      | None => continue (new_files ++ [file_path])%list modified_files
      | Some e =>
          if negb (match drive_id e with
                   | Some i => i =? id info
                   | None => false
                   end)
          then continue new_files (modified_files ++ [file_path])%list
          else if negb (match drive_modified e with
                        | Some m => (m =? modified_in_drive info)%nat
                        | None => false
                        end)
          then continue new_files (modified_files ++ [file_path])%list
          else if negb (path_exists v file_path)
          then continue (new_files ++ [file_path])%list modified_files
          else continue new_files modified_files
      end
  end.

(** The second loop: the manifest paths that Drive no longer lists. *)
Definition files_deleted_from_drive (local_checksums : dict entry)
    (drive_files : dict drive_info) : list string :=
  filter (fun file_path => negb (Dict.mem file_path drive_files))
         (Dict.keys local_checksums).

(** [for file_path in new_files + modified_files]; the lookup
    [drive_files[file_path]] stands before the [try]. *)
Fixpoint download_files (svc : service) (drive_files : dict drive_info)
    (files : list string) (local_checksums : dict entry) (w : world)
  : result (dict entry) * world :=
  match files with
  | [] => (Ok local_checksums, w)
  | file_path :: rest =>
      match Dict.get drive_files file_path with
      | None => (Raise, w)
      | Some info =>
          match download_file svc (id info) file_path
                              (record w (Download file_path)) with
          | (Ok _, w1) =>
              match lookup_path (parts file_path) (vault w1) with
              | Some (File _ data mtime) =>
                  download_files svc drive_files rest
                    (Dict.set local_checksums file_path
                       {| checksum := sha256 data; modified := mtime;
                          drive_id := Some (id info);
                          drive_modified := Some (modified_in_drive info) |})
                    w1
              | _ => download_files svc drive_files rest local_checksums w1
              end
          | (Raise, w1) =>
              download_files svc drive_files rest local_checksums w1
          end
      end
  end.

(** [for file_path in deleted_files]: each turn is one [try]. *)
Fixpoint delete_local_files (files : list string)
    (local_checksums : dict entry) (w : world) : dict entry * world :=
  match files with
  | [] => (local_checksums, w)
  | file_path :: rest =>
      if path_exists (vault w) file_path then
        let w0 := record w (DeleteLocal file_path) in
        match unlink (parts file_path) (vault w0) with
        | None => delete_local_files rest local_checksums w0
        | Some v =>
            match Dict.del local_checksums file_path with
            | Some c => delete_local_files rest c (with_vault w0 v)
            | None => delete_local_files rest local_checksums (with_vault w0 v)
            end
        end
      else
        match Dict.del local_checksums file_path with
        | Some c => delete_local_files rest c w
        | None => delete_local_files rest local_checksums w
        end
  end.

Definition pull_from_google_drive (dry_run : bool) (w : world)
  : outcome * world :=
  match get_google_drive_service w with
  | None => (Returned, w)
  | Some svc =>
      match list_drive_files (recursion_limit w) svc DRIVE_FOLDER_ID "" with
      | Raise => (Crashed, w)
      | Ok drive_files =>
          let local_checksums := load_checksums w in
          let (new_files, modified_files) :=
            classify_drive_files local_checksums (vault w) drive_files [] [] in
          let deleted_files :=
            files_deleted_from_drive local_checksums drive_files in
          if is_nil new_files && is_nil modified_files && is_nil deleted_files
          then (Returned, w)
          else if dry_run then (Returned, w)
          else
            match download_files svc drive_files
                    (new_files ++ modified_files)%list local_checksums w with
            | (Raise, w1) => (Crashed, w1)
            | (Ok checksums1, w1) =>
                let (checksums2, w2) :=
                  delete_local_files deleted_files checksums1 w1 in
                let w3 :=
                  if is_nil deleted_files then w2
                  else with_vault w2 (cleanup_empty_folders lower (vault w2)) in
                (Returned, save_checksums checksums2 w3)
            end
      end
  end.

(** [main] of [pullFromGoogle.py]: the exit status and the machine left. *)
Definition pull_main (dry_run : bool) (w : world) : nat * world :=
  let (o, w') := pull_from_google_drive dry_run w in (exit_status o, w').

(** ** [push2Google.py] *)

(** [get_all_notes], each note with [str(note.relative_to(VAULT_PATH))]. *)
Definition get_all_notes (w : world) : list (string * node) :=
  glob_md (vault w).

Definition with_drive_id (e : entry) (i : option string) : entry :=
  {| checksum := checksum e; modified := modified e; drive_id := i;
     drive_modified := drive_modified e |}.

(** The first loop of [sync_to_google_drive], over [notes]. *)
Fixpoint scan_notes (old_checksums : dict entry) (notes : list (string * node))
    (new_checksums : dict entry) (new_files modified_files : list string)
  : result (dict entry * list string * list string) :=
  match notes with
  | [] => Ok (new_checksums, new_files, modified_files)
  | (rel_path_str, note) :: rest =>
      match calculate_checksum note with
      | Raise => Raise
      | Ok digest =>
          let known := Dict.get old_checksums rel_path_str in
          let checksums :=
            Dict.set new_checksums rel_path_str
              {| checksum := digest; modified := st_mtime note;
                 drive_id := match known with
                             | Some o => drive_id o
                             | None => None
                             end;
                 drive_modified := None |} in
          match known with
          | None =>
              scan_notes old_checksums rest checksums
                         (new_files ++ [rel_path_str])%list modified_files
          | Some o =>
              if negb (checksum o =? digest) then
                scan_notes old_checksums rest checksums
                           new_files (modified_files ++ [rel_path_str])%list
              else
                scan_notes old_checksums rest checksums
                           new_files modified_files
          end
      end
  end.

(** The second loop: the manifest paths that the scan did not meet. *)
Definition files_deleted_locally (old_checksums new_checksums : dict entry)
  : list string :=
  filter (fun old_file => negb (Dict.mem old_file new_checksums))
         (Dict.keys old_checksums).

Definition enumerate {A : Type} (l : list A) : list (nat * A) :=
  combine (seq 0 (length l)) l.

(** [for i, folder_name in enumerate(folder_parts)]: the Drive folder
    of the note, through [folder_cache]. *)
Fixpoint folder_structure (folder_parts : list string)
    (todo : list (nat * string)) (svc : service)
    (folder_cache : dict string) (parent_id : string)
  : result (string * dict string) * service :=
  match todo with
  | [] => (Ok (parent_id, folder_cache), svc)
  | (i, folder_name) :: rest =>
      let folder_key := String.concat "/" (firstn (S i) folder_parts) in
      match Dict.get folder_cache folder_key with
      | Some cached => folder_structure folder_parts rest svc folder_cache cached
      | None =>
          match get_or_create_folder svc folder_name parent_id with
          | Raise => (Raise, svc)
          | Ok (folder, svc') =>
              folder_structure folder_parts rest svc'
                (Dict.set folder_cache folder_key folder) folder
          end
      end
  end.

(** One turn of [for file_path_str in new_files + modified_files].
    Nothing in it is inside a [try]. *)
Definition upload_file (file_path_str : string) (folder_cache : dict string)
    (new_checksums : dict entry) (w : world)
  : result (dict string * dict entry) * world :=
  let rel_path := parts file_path_str in
  let folder_parts := removelast rel_path in
  match folder_structure folder_parts (enumerate folder_parts) (drive w)
                         folder_cache DRIVE_FOLDER_ID with
  | (Raise, svc1) => (Raise, with_drive w svc1)
  | (Ok (parent_id, cache1), svc1) =>
      let w1 := with_drive w svc1 in
      let name := last rel_path "" in
      match Dict.get new_checksums file_path_str with
      | None => (Raise, w1)
      | Some e =>
          match (if truthy (drive_id e) then Ok (drive_id e)
                 else get_drive_file_id svc1 name parent_id) with
          | Raise => (Raise, w1)
          | Ok file_id =>
              let w2 := record w1 (Upload file_path_str) in
              match lookup_path rel_path (vault w) with
              | Some (File _ data _) =>
                  match upload_to_drive svc1 name data parent_id file_id with
                  | Raise => (Raise, w2)
                  | Ok (uploaded, svc2) =>
                      (Ok (cache1,
                           Dict.set new_checksums file_path_str
                                    (with_drive_id e (Some uploaded))),
                       with_drive w2 svc2)
                  end
              | _ => (Raise, w2)
              end
          end
      end
  end.

Fixpoint upload_files (files : list string) (folder_cache : dict string)
    (new_checksums : dict entry) (w : world)
  : result (dict entry) * world :=
  match files with
  | [] => (Ok new_checksums, w)
  | file_path_str :: rest =>
      match upload_file file_path_str folder_cache new_checksums w with
      | (Raise, w1) => (Raise, w1)
      | (Ok (cache1, checksums1), w1) => upload_files rest cache1 checksums1 w1
      end
  end.

(** [for file_path_str in deleted_files]: only [delete_from_drive] is
    inside the [try]. *)
Fixpoint delete_remote_files (old_checksums : dict entry)
    (files : list string) (w : world) : result unit * world :=
  match files with
  | [] => (Ok tt, w)
  | file_path_str :: rest =>
      match Dict.get old_checksums file_path_str with
      | None => (Raise, w)
      | Some e =>
          match drive_id e with
          | Some i =>
              if truthy (drive_id e) then
                let w0 := record w (DeleteRemote file_path_str i) in
                match delete_from_drive (drive w0) i with
                | Ok svc => delete_remote_files old_checksums rest
                                                (with_drive w0 svc)
                | Raise => delete_remote_files old_checksums rest w0
                end
              else delete_remote_files old_checksums rest w
          | None => delete_remote_files old_checksums rest w
          end
      end
  end.

Definition sync_to_google_drive (w : world) : outcome * world :=
  match get_google_drive_service w with
  | None => (Returned, w)
  | Some _ =>
      let old_checksums := load_checksums w in
      match scan_notes old_checksums (get_all_notes w)
                       (Dict.empty entry) [] [] with
      | Raise => (Crashed, w)
      | Ok (new_checksums, new_files, modified_files) =>
          let deleted_files :=
            files_deleted_locally old_checksums new_checksums in
          if is_nil new_files && is_nil modified_files && is_nil deleted_files
          then (Returned, w)
          else
            match upload_files (new_files ++ modified_files)%list
                               (Dict.empty string) new_checksums w with
            | (Raise, w1) => (Crashed, w1)
            | (Ok checksums1, w1) =>
                match delete_remote_files old_checksums deleted_files w1 with
                | (Raise, w2) => (Crashed, w2)
                | (Ok _, w2) => (Returned, save_checksums checksums1 w2)
                end
            end
      end
  end.

Record push_args : Type := { init : bool; show_status : bool; setup : bool }.

(** [--init]: one entry per note, with the content hash and the local
    modification time only. *)
Fixpoint initialize (notes : list (string * node)) (checksums : dict entry)
  : result (dict entry) :=
  match notes with
  | [] => Ok checksums
  | (rel_path, note) :: rest =>
      match calculate_checksum note with
      | Raise => Raise
      | Ok digest =>
          initialize rest
            (Dict.set checksums rel_path
               {| checksum := digest; modified := st_mtime note;
                  drive_id := None; drive_modified := None |})
      end
  end.

(** [main] of [push2Google.py] *)
Definition push_main (args : push_args) (w : world) : nat * world :=
  if setup args then (exit_status Returned, w)
  else if show_status args then (exit_status Returned, w)
  else if init args then
    match initialize (get_all_notes w) (Dict.empty entry) with
    | Raise => (exit_status Crashed, w)
    | Ok checksums => (exit_status Returned, save_checksums checksums w)
    end
  else let (o, w') := sync_to_google_drive w in (exit_status o, w').

Definition no_args : push_args :=
  {| init := false; show_status := false; setup := false |}.

(** ** [sync.py] *)

(** [run_script]: the script runs as a child process; the answer is
    [result.returncode == 0]. *)
Definition run_script (script : world -> nat * world) (w : world)
  : bool * world :=
  let (returncode, w') := script w in ((returncode =? 0)%nat, w').

(** [main] of [sync.py] *)
Definition sync_main (dry_run : bool) (w : world) : nat * world :=
  let (pulled, w1) := run_script (pull_main dry_run) w in
  if negb pulled then (1, w1)
  else if negb dry_run then
    let (pushed, w2) := run_script (push_main no_args) w1 in
    if negb pushed then (1, w2) else (0, w2)
  else (0, w1).

End Scripts.

(** * Vocabulary of the specification *)

(** ** Kinds of action *)

(** Creates and updates: downloads in pull, uploads in push. *)
Definition is_transfer (e : event) : bool :=
  match e with
  | Download _ | Upload _ => true
  | DeleteLocal _ | DeleteRemote _ _ => false
  end.

(** Deletions: delete-local in pull, delete-remote in push. *)
Definition is_deletion (e : event) : bool :=
  match e with
  | DeleteLocal _ | DeleteRemote _ _ => true
  | Download _ | Upload _ => false
  end.

(** The events of a run are transfers first, deletions last. *)
Definition transfers_then_deletions (before after : list event) : Prop :=
  exists transfers deletions,
    after = (before ++ transfers ++ deletions)%list /\
    Forall (fun e => is_transfer e = true) transfers /\
    Forall (fun e => is_deletion e = true) deletions.

(** ** Directories of the vault *)

(** [inside x entries]: [x] is an entry of the directory whose entries
    are [entries], or of one of its subdirectories, at any depth. *)
Inductive inside (x : node) : list node -> Prop :=
| inside_here : forall entries, In x entries -> inside x entries
| inside_deeper : forall name sub entries,
    In (Dir name sub) entries -> inside x sub -> inside x entries.

(** The condition under which the compactor keeps a directory whose
    entries, once its subdirectories have been visited, are [remaining]. *)
Definition survives (lower : string -> string) (name : string)
    (remaining : list node) : Prop :=
  ~ (remaining = [] /\ ~ In (lower name) PRESERVE_FOLDERS).

(** ** The remote hierarchy *)

(** The children that one listing request returns. *)
Definition first_page (svc : service) (folder_id : string) : list drive_item :=
  firstn pageSize (children svc folder_id).

(** [reaches listing folder_id path o file_path]: going down from the
    folder [folder_id], whose own relative path is [path], through the
    children that [listing] gives for each folder, one arrives at the
    object [o], and [file_path] is the relative path of [o]. *)
Inductive reaches (listing : string -> list drive_item)
  : string -> string -> drive_item -> string -> Prop :=
| reaches_child : forall folder_id path o,
    In o (listing folder_id) ->
    reaches listing folder_id path o (join path (item_name o))
| reaches_below : forall folder_id path d o file_path,
    In d (listing folder_id) ->
    is_folder d = true ->
    reaches listing (item_id d) (join path (item_name d)) o file_path ->
    reaches listing folder_id path o file_path.

(** A file that the scan keeps. *)
Definition matching (o : drive_item) : Prop :=
  is_folder o = false /\ recognized (item_name o) = true.

(** The folders below [folder_id] nest less than [depth] levels deep, so
    that the scan stays within the recursion limit. *)
Fixpoint shallow (depth : nat) (svc : service) (folder_id : string) : bool :=
  match depth with
  | 0 => false
  | S depth' =>
      forallb (fun o => negb (is_folder o) || shallow depth' svc (item_id o))
              (children svc folder_id)
  end.

(** What one listed item adds to [files_dict]: the keys of its scan for
    a folder, its own path for a file with a recognized name. *)
Definition contributes (recurse : string -> string -> result (dict drive_info))
    (path : string) (o : drive_item) (k : string) : Prop :=
  (is_folder o = true /\
   exists subfiles,
     recurse (item_id o) (join path (item_name o)) = Ok subfiles /\
     In k (Dict.keys subfiles)) \/
  (is_folder o = false /\ recognized (item_name o) = true /\
   k = join path (item_name o)).

Definition info_of (o : drive_item) : drive_info :=
  {| id := item_id o; modified_in_drive := modifiedTime o |}.

(** ** Scenarios *)

(** The lower-casing of the letters [A] to [Z], which is what
    [str.lower] does to the names of the scenarios; the instances are
    evaluated with it. *)
Definition lower_ascii (c : ascii) : ascii :=
  let n := nat_of_ascii c in
  if ((65 <=? n) && (n <=? 90))%nat then ascii_of_nat (n + 32) else c.

Fixpoint ascii_lower (s : string) : string :=
  match s with
  | EmptyString => EmptyString
  | String c r => String (lower_ascii c) (ascii_lower r)
  end.

Definition reliable (objs : list drive_item) (n : nat) : service :=
  {| objects := objs; ticks := n; faulty := fun _ => false |}.

Definition in_root (file_id name : string) (stamp : nat) : drive_item :=
  {| item_id := file_id; item_name := name; mime_type := DETECTED_MIME;
     parent := DRIVE_FOLDER_ID; modifiedTime := stamp; trashed := false;
     media := "" |}.

(** A folder with 1001 notes: one more than a page holds. *)
Definition numbered_note (n : nat) : drive_item :=
  in_root ("f" ++ str_of_nat n) ("note" ++ str_of_nat n ++ ".md") n.

Definition crowded : service :=
  reliable (map numbered_note (seq 0 1001)) 1001.

(** Two objects of the root folder with one name. *)
Definition twins : service :=
  reliable [in_root "R1" "a.md" 1; in_root "R2" "a.md" 2] 3.

(** A machine with the client libraries and [credentials.json] in
    place, at rest. *)
Definition machine (v : list node) (c : option (dict entry)) (svc : service)
  : world :=
  {| GOOGLE_API_AVAILABLE := true; credentials_exist := true;
     recursion_limit := 1000; vault := v; checksum_file := c; drive := svc;
     clock := 100; trace := [] |}.

(** The vault holds [notes/a.md]; the manifest and the Drive folder are
    empty. *)
Definition first_push : world :=
  machine [Dir "notes" [File "a.md" "# a" 7]] None (reliable [] 0).

(** The Drive folder holds [img/photo.png]; the vault and the manifest
    are empty. *)
Definition image_in_drive : world :=
  machine [] None
    (reliable
       [ {| item_id := "F1"; item_name := "img"; mime_type := FOLDER_MIME;
            parent := DRIVE_FOLDER_ID; modifiedTime := 0; trashed := false;
            media := "" |};
         {| item_id := "R1"; item_name := "photo.png";
            mime_type := "image/png"; parent := "F1"; modifiedTime := 1;
            trashed := false; media := "PNG" |} ]
       2).

(** The request that creates [a.md] fails. *)
Definition create_fails (name : string) (r : request) : bool :=
  match r with
  | CreateRequest n _ _ => n =? name
  | _ => false
  end.

(** Two new notes, and a service that fails to create the first. *)
Definition upload_fails : world :=
  machine [File "a.md" "# a" 7; File "b.md" "# b" 8] None
    {| objects := []; ticks := 0; faulty := create_fails "a.md" |}.

Definition delete_fails (file_id : string) (r : request) : bool :=
  match r with
  | DeleteRequest i => i =? file_id
  | _ => false
  end.

(** A note deleted locally, and a service that fails to delete its
    remote copy. *)
Definition remote_delete_fails : world :=
  machine []
    (Some [("gone.md", {| checksum := "c0"; modified := 3;
                          drive_id := Some "R1"; drive_modified := None |})])
    {| objects := [in_root "R1" "gone.md" 1]; ticks := 2;
       faulty := delete_fails "R1" |}.

Definition media_fails (file_id : string) (r : request) : bool :=
  match r with
  | MediaRequest i => i =? file_id
  | _ => false
  end.

(** Two new remote notes, and a service that fails to send the first. *)
Definition download_fails : world :=
  machine [] None
    {| objects := [in_root "R1" "a.md" 1; in_root "R2" "b.md" 2]; ticks := 3;
       faulty := media_fails "R1" |}.

(** A machine without [credentials.json]. *)
Definition no_credentials : world :=
  {| GOOGLE_API_AVAILABLE := true; credentials_exist := false;
     recursion_limit := 1000; vault := [File "a.md" "# a" 7];
     checksum_file := None; drive := reliable [] 0; clock := 100;
     trace := [] |}.

(** A note that the manifest tracks and Drive lists, absent from the
    vault. *)
Definition tracked_note : entry :=
  {| checksum := "c0"; modified := 3; drive_id := Some "R1";
     drive_modified := Some 1 |}.



(** ** Remote copies *)



(** Drive has a new note [b.md] and no longer has [deep/old.md], which
    the manifest tracks and the vault still holds. *)
Definition remote_changed : world :=
  machine [Dir "deep" [File "old.md" "# old" 3]; Dir "Weekly" []]
    (Some [("deep/old.md", {| checksum := "c0"; modified := 3;
                              drive_id := Some "R0";
                              drive_modified := Some 0 |})])
    (reliable [in_root "R2" "b.md" 2] 3).

(** No entry carries a remote modification time. *)
Definition no_remote_time (checksums : dict entry) : Prop :=
  forall p e, Dict.get checksums p = Some e -> drive_modified e = None.

(** ** Further scenarios *)

Definition list_fails (r : request) : bool :=
  match r with
  | ListRequest _ => true
  | _ => false
  end.

(** A machine in sync with Drive but for a new remote note, and a
    service that fails to list. *)
Definition listing_fails : world :=
  machine [File "a.md" "# a" 7]
    (Some [("a.md", tracked_note)])
    {| objects := [in_root "R1" "a.md" 1; in_root "R2" "b.md" 2]; ticks := 3;
       faulty := list_fails |}.

(** ** Reasons for a transfer *)

(** The manifest entry [e] carries the id, the modification time, that
    Drive reports in [info]. *)
Definition same_id (e : entry) (info : drive_info) : bool :=
  match drive_id e with
  | Some i => i =? id info
  | None => false
  end.

Definition same_time (e : entry) (info : drive_info) : bool :=
  match drive_modified e with
  | Some m => (m =? modified_in_drive info)%nat
  | None => false
  end.

(** Why pull downloads the remote file [info] listed at [file_path]:
    the path is not tracked, or the id or the time differ, or the local
    file is missing. *)
Definition needs_download (local_checksums : dict entry) (v : list node)
    (file_path : string) (info : drive_info) : Prop :=
  match Dict.get local_checksums file_path with
  | None => True
  | Some e =>
      same_id e info = false \/ same_time e info = false \/
      path_exists v file_path = false
  end.

(** Why push uploads the note with the bytes [data] scanned at
    [rel_path_str]: the path is not tracked, or the hash differs. *)
Definition needs_upload (sha256 : string -> string)
    (old_checksums : dict entry) (rel_path_str data : string) : Prop :=
  match Dict.get old_checksums rel_path_str with
  | None => True
  | Some o => checksum o <> sha256 data
  end.

(** ** Agreement of the manifest with the two sides *)

(** The manifest tracks exactly the notes of the scan, each with the hash
    of its content. *)
Definition agrees_with_vault (sha256 : string -> string)
    (checksums : dict entry) (notes : list (string * node)) : Prop :=
  (forall p note,
      In (p, note) notes ->
      exists name data mtime o,
        note = File name data mtime /\
        Dict.get checksums p = Some o /\ checksum o = sha256 data) /\
  (forall p, In p (Dict.keys checksums) -> In p (map fst notes)).

(** The manifest tracks exactly the files that Drive lists, each with
    its remote id and modification time, and each is in the vault. *)
Definition agrees_with_drive (checksums : dict entry) (v : list node)
    (drive_files : dict drive_info) : Prop :=
  (forall p info,
      In (p, info) drive_files -> ~ needs_download checksums v p info) /\
  (forall p, In p (Dict.keys checksums) -> In p (Dict.keys drive_files)).

Definition init_only : push_args :=
  {| init := true; show_status := false; setup := false |}.

(** ** Folders and caches *)

(** [cache'] has every entry of [cache]. *)
Definition extends (cache' cache : dict string) : Prop :=
  forall k v, Dict.get cache k = Some v -> Dict.get cache' k = Some v.

(** A service on which every request fails. *)
Definition unreachable (svc : service) : service :=
  {| objects := objects svc; ticks := ticks svc; faulty := fun _ => true |}.

(** The delete requests that the last loop of push sends for [files]:
    one for each path whose manifest entry has a remote id. *)
Definition remote_deletes (old_checksums : dict entry) (files : list string)
  : list event :=
  flat_map
    (fun file_path_str =>
       match Dict.get old_checksums file_path_str with
       | Some e =>
           match drive_id e with
           | Some i =>
               if truthy (drive_id e) then [DeleteRemote file_path_str i]
               else []
           | None => []
           end
       | None => []
       end)
    files.

(** The folder [notes] as a push creates it in an empty Drive. *)
Definition notes_folder : drive_item :=
  {| item_id := "id0"; item_name := "notes"; mime_type := FOLDER_MIME;
     parent := DRIVE_FOLDER_ID; modifiedTime := 0; trashed := false;
     media := "" |}.

(** A machine in sync: one note, tracked with its hash, its remote id
    and its remote modification time. *)
Definition in_sync : world :=
  machine [File "a.md" "# a" 7]
    (Some [("a.md", {| checksum := "# a"; modified := 7;
                       drive_id := Some "R1"; drive_modified := Some 1 |})])
    (reliable [in_root "R1" "a.md" 1] 2).

(** ** Provenance of manifest entries *)

(** The entry [e] is what a successful download of [file_path] records:
    the id and the modification time that the scan reported, and the
    hash of the bytes that Drive sent for that id. *)
Definition recorded_by_download (sha256 : string -> string) (svc : service)
    (drive_files : dict drive_info) (file_path : string) (e : entry) : Prop :=
  exists info data,
    Dict.get drive_files file_path = Some info /\
    get_media svc (id info) = Ok data /\
    checksum e = sha256 data /\
    drive_id e = Some (id info) /\
    drive_modified e = Some (modified_in_drive info).

(** ** Where push puts a note *)

(** [folder_at svc ps folder_id]: going down from the root folder
    through folders named as [ps] says, one arrives at [folder_id]. *)
Inductive folder_at (svc : service) : list string -> string -> Prop :=
| folder_at_root : folder_at svc [] DRIVE_FOLDER_ID
| folder_at_child : forall ps parent_id o,
    folder_at svc ps parent_id ->
    In o (children svc parent_id) ->
    is_folder o = true ->
    folder_at svc (ps ++ [item_name o]) (item_id o).

(** What the cache says of the directories of [folder_parts] is true of
    Drive. *)
Definition cache_sound (svc : service) (folder_parts : list string)
    (folder_cache : dict string) : Prop :=
  forall i folder,
    i < length folder_parts ->
    Dict.get folder_cache (String.concat "/" (firstn (S i) folder_parts))
    = Some folder ->
    folder_at svc (firstn (S i) folder_parts) folder.

(** Every child that [svc] lists is still listed by [svc'], under the
    same folder, with the same id, name and type. *)
Definition evolves (svc svc' : service) : Prop :=
  forall f o,
    In o (children svc f) ->
    exists o',
      In o' (children svc' f) /\ item_id o' = item_id o /\
      item_name o' = item_name o /\ mime_type o' = mime_type o.

(** The path that the remote scan gives to an object reached through the
    names [ps]. *)
Definition scan_path (ps : list string) : string := fold_left join ps "".

(** ** Files that share a path *)

(** What the scan meets at one listed item: for a folder, what it meets
    below it; for a file with a recognized name, the file, at its
    path. *)
Definition visit_item
    (below : string -> string -> list (string * drive_item))
    (path : string) (o : drive_item) : list (string * drive_item) :=
  if is_folder o then below (item_id o) (join path (item_name o))
  else if recognized (item_name o) then [(join path (item_name o), o)]
  else [].

(** The files that the scan meets below [folder_id], each with the
    relative path the scan gives it, in the order in which the scan
    meets them: the children of a folder in the order of its first
    page, the files below a subfolder at the place of the subfolder. *)
Fixpoint visits (depth : nat) (svc : service) (folder_id path : string)
  : list (string * drive_item) :=
  match depth with
  | 0 => []
  | S depth' =>
      flat_map (visit_item (visits depth' svc) path)
               (first_page svc folder_id)
  end.

(** The last of the objects of [l] that come with the path
    [file_path]. *)
Fixpoint last_at (file_path : string) (l : list (string * drive_item))
  : option drive_item :=
  match l with
  | [] => None
  | (k, o) :: rest =>
      match last_at file_path rest with
      | Some later => Some later
      | None => if k =? file_path then Some o else None
      end
  end.

Definition in_folder_of (folder file_id name mime : string) (stamp : nat)
  : drive_item :=
  {| item_id := file_id; item_name := name; mime_type := mime;
     parent := folder; modifiedTime := stamp; trashed := false;
     media := "" |}.

(** Two folders named [docs] in the root folder, each with a file
    [a.md], and a file [z.md] listed after them. *)
Definition namesakes : service :=
  reliable
    [ in_folder_of DRIVE_FOLDER_ID "F1" "docs" FOLDER_MIME 0;
      in_folder_of DRIVE_FOLDER_ID "F2" "docs" FOLDER_MIME 0;
      in_folder_of "F1" "R1" "a.md" DETECTED_MIME 1;
      in_folder_of "F2" "R2" "a.md" DETECTED_MIME 2;
      in_folder_of DRIVE_FOLDER_ID "R3" "z.md" DETECTED_MIME 3 ]
    4.

(** The vault holds [note1000.md], the manifest tracks it with the id
    and the modification time that Drive has for it, and it is the last
    of the 1001 notes of the Drive folder. *)
Definition tracked_after_first_page : world :=
  machine [File "note1000.md" "kept" 5]
    (Some [("note1000.md",
            {| checksum := "c0"; modified := 5; drive_id := Some "f1000";
               drive_modified := Some 1000 |})])
    crowded.

(** * Properties *)

(** ** Dictionaries *)

Module DictFacts.
Section Facts.
Variable V : Type.
Implicit Types (d : dict V) (k : string) (v : V).

Lemma get_set_eq d k v : Dict.get (Dict.set d k v) k = Some v.
Proof.
  induction d as [|[k' v'] r IH]; simpl.
  - now rewrite String.eqb_refl.
  - destruct (k' =? k) eqn:E; simpl; rewrite E; auto.
Qed.

Lemma get_set_ne d k k' v :
  k <> k' -> Dict.get (Dict.set d k v) k' = Dict.get d k'.
Proof.
  intros Hne. induction d as [|[k0 v0] r IH]; simpl.
  - apply String.eqb_neq in Hne. now rewrite Hne.
  - destruct (k0 =? k) eqn:E; simpl.
    + apply String.eqb_eq in E. subst k0.
      apply String.eqb_neq in Hne. now rewrite Hne.
    + destruct (k0 =? k'); auto.
Qed.

Lemma get_some_in_keys d k v : Dict.get d k = Some v -> In k (Dict.keys d).
Proof.
  induction d as [|[k' v'] r IH]; simpl; [discriminate|].
  destruct (k' =? k) eqn:E.
  - apply String.eqb_eq in E. auto.
  - auto.
Qed.

Lemma in_keys_get d k : In k (Dict.keys d) -> exists v, Dict.get d k = Some v.
Proof.
  induction d as [|[k' v'] r IH]; simpl; [tauto|].
  intros [->|Hin].
  - rewrite String.eqb_refl. eauto.
  - destruct (k' =? k); eauto.
Qed.

Lemma get_none_not_in_keys d k :
  Dict.get d k = None <-> ~ In k (Dict.keys d).
Proof.
  split.
  - intros Hget Hin. apply in_keys_get in Hin. destruct Hin as [v Hv].
    congruence.
  - intros Hnot. destruct (Dict.get d k) eqn:E; auto.
    apply get_some_in_keys in E. tauto.
Qed.

Lemma mem_true d k : Dict.mem k d = true <-> In k (Dict.keys d).
Proof.
  unfold Dict.mem. split.
  - destruct (Dict.get d k) eqn:E; [|discriminate].
    intros _. eapply get_some_in_keys; eauto.
  - intros Hin. apply in_keys_get in Hin. destruct Hin as [v ->]. auto.
Qed.

Lemma keys_set d k v k' :
  In k' (Dict.keys (Dict.set d k v)) <-> k' = k \/ In k' (Dict.keys d).
Proof.
  induction d as [|[k0 v0] r IH]; simpl.
  - intuition.
  - destruct (k0 =? k) eqn:E; simpl.
    + apply String.eqb_eq in E. subst. intuition.
    + rewrite IH. intuition.
Qed.

Lemma keys_update d other k :
  In k (Dict.keys (Dict.update d other)) <->
  In k (Dict.keys d) \/ In k (Dict.keys other).
Proof.
  unfold Dict.update. revert d.
  induction other as [|[k0 v0] r IH]; intros d; simpl.
  - intuition.
  - rewrite IH, keys_set. intuition.
Qed.
End Facts.
End DictFacts.

(** ** The pull classification *)

Section PullClassification.
Variables (local_checksums : dict entry) (v : list node).

Lemma classify_keeps items new_files modified_files x :
  In x (new_files ++ modified_files) ->
  let (n, m) :=
    classify_drive_files local_checksums v items new_files modified_files in
  In x (n ++ m).
Proof.
  revert new_files modified_files.
  induction items as [|[file_path info] rest IH]; intros n m Hin; simpl.
  - exact Hin.
  - assert (Hn : In x ((n ++ [file_path]) ++ m))
      by (rewrite !in_app_iff in *; simpl; tauto).
    assert (Hm : In x (n ++ m ++ [file_path]))
      by (rewrite !in_app_iff in *; simpl; tauto).
    destruct (Dict.get local_checksums file_path) as [e|]; [|now apply IH].
    destruct (negb _); [now apply IH|].
    destruct (negb _); [now apply IH|].
    destruct (negb _); now apply IH.
Qed.

End PullClassification.


(** ** Order of execution *)

Section ExecutionOrder.
Variable sha256 : string -> string.

Lemma download_file_trace svc file_id local_path w :
  trace (snd (download_file svc file_id local_path w)) = trace w.
Proof.
  unfold download_file.
  destruct (mkdir_p _ _); [|reflexivity].
  destruct (get_media _ _); [|reflexivity].
  destruct (write_file _ _ _ _); reflexivity.
Qed.

Lemma download_files_trace svc drive_files files :
  forall local_checksums w,
  exists transfers,
    trace (snd (download_files sha256 svc drive_files files
                               local_checksums w))
    = (trace w ++ transfers)%list /\
    Forall (fun e => is_transfer e = true) transfers.
Proof.
  induction files as [|file_path rest IH]; intros lc w; simpl.
  - exists []. now rewrite app_nil_r.
  - destruct (Dict.get drive_files file_path) as [info|];
      [|exists []; now rewrite app_nil_r].
    pose proof (download_file_trace svc (id info) file_path
                  (record w (Download file_path))) as Ht.
    destruct (download_file svc (id info) file_path
                (record w (Download file_path))) as [[[]|] w1];
      simpl in Ht.
    + destruct (lookup_path (parts file_path) (vault w1)) as [[n d m|n es]|];
        match goal with
        | |- context [download_files _ _ _ _ ?c w1] =>
            destruct (IH c w1) as [ts [Hts Hall]]
        end;
        exists (Download file_path :: ts);
        (split; [rewrite Hts, Ht, <- app_assoc; reflexivity
                | constructor; auto]).
    + destruct (IH lc w1) as [ts [Hts Hall]].
      exists (Download file_path :: ts).
      split; [rewrite Hts, Ht, <- app_assoc; reflexivity
             | constructor; auto].
Qed.

Lemma delete_local_files_trace files :
  forall local_checksums w,
  exists deletions,
    trace (snd (delete_local_files files local_checksums w))
    = (trace w ++ deletions)%list /\
    Forall (fun e => is_deletion e = true) deletions.
Proof.
  induction files as [|file_path rest IH]; intros lc w; simpl.
  - exists []. now rewrite app_nil_r.
  - destruct (path_exists (vault w) file_path).
    + destruct (unlink _ _) as [v'|];
        [destruct (Dict.del lc file_path) as [c|]|];
        match goal with
        | |- context [delete_local_files _ ?c ?w'] =>
            destruct (IH c w') as [ds [Hds Hall]]
        end;
        exists (DeleteLocal file_path :: ds);
        (split; [rewrite Hds; simpl; rewrite <- app_assoc; reflexivity
                | constructor; auto]).
    + destruct (Dict.del lc file_path) as [c|]; apply IH.
Qed.

Lemma upload_file_trace file_path_str folder_cache new_checksums w :
  exists transfers,
    trace (snd (upload_file file_path_str folder_cache new_checksums w))
    = (trace w ++ transfers)%list /\
    Forall (fun e => is_transfer e = true) transfers.
Proof.
  unfold upload_file.
  destruct (folder_structure _ _ _ _ _) as [[[parent_id cache1]|] svc1];
    [|exists []; simpl; now rewrite app_nil_r].
  destruct (Dict.get new_checksums file_path_str) as [e|];
    [|exists []; simpl; now rewrite app_nil_r].
  destruct (if truthy (drive_id e) then _ else _) as [file_id|];
    [|exists []; simpl; now rewrite app_nil_r].
  exists [Upload file_path_str]. split; [|repeat constructor].
  destruct (lookup_path _ _) as [[n d m|n es]|]; try reflexivity.
  destruct (upload_to_drive _ _ _ _ _) as [[uploaded svc2]|]; reflexivity.
Qed.

Lemma upload_files_trace files :
  forall folder_cache new_checksums w,
  exists transfers,
    trace (snd (upload_files files folder_cache new_checksums w))
    = (trace w ++ transfers)%list /\
    Forall (fun e => is_transfer e = true) transfers.
Proof.
  induction files as [|file_path_str rest IH]; intros fc nc w; simpl.
  - exists []. now rewrite app_nil_r.
  - destruct (upload_file_trace file_path_str fc nc w) as [ts1 [H1 A1]].
    destruct (upload_file file_path_str fc nc w) as [[[cache1 c1]|] w1];
      simpl in H1.
    + destruct (IH cache1 c1 w1) as [ts2 [H2 A2]].
      exists (ts1 ++ ts2)%list. split.
      * now rewrite H2, H1, app_assoc.
      * apply Forall_app. auto.
    + exists ts1. auto.
Qed.

Lemma delete_remote_files_trace old_checksums files :
  forall w,
  exists deletions,
    trace (snd (delete_remote_files old_checksums files w))
    = (trace w ++ deletions)%list /\
    Forall (fun e => is_deletion e = true) deletions.
Proof.
  induction files as [|file_path_str rest IH]; intros w; simpl.
  - exists []. now rewrite app_nil_r.
  - destruct (Dict.get old_checksums file_path_str) as [e|];
      [|exists []; now rewrite app_nil_r].
    destruct (drive_id e) as [i|]; [|apply IH].
    destruct (truthy (Some i)); [|apply IH].
    destruct (delete_from_drive _ i) as [svc|];
      match goal with
      | |- context [delete_remote_files _ _ ?w'] =>
          destruct (IH w') as [ds [Hds Hall]]
      end;
      exists (DeleteRemote file_path_str i :: ds);
      (split; [rewrite Hds; simpl; rewrite <- app_assoc; reflexivity
              | constructor; auto]).
Qed.

Lemma no_events w : transfers_then_deletions (trace w) (trace w).
Proof.
  exists [], []. simpl. rewrite app_nil_r. repeat split; constructor.
Qed.

Variable lower : string -> string.

Lemma pull_order dry_run w :
  transfers_then_deletions
    (trace w) (trace (snd (pull_from_google_drive sha256 lower dry_run w))).
Proof.
  unfold pull_from_google_drive.
  destruct (get_google_drive_service w) as [svc|]; [|apply no_events].
  destruct (list_drive_files _ _ _ _) as [drive_files|]; [|apply no_events].
  destruct (classify_drive_files _ _ _ _ _) as [new_files modified_files].
  destruct (is_nil new_files && is_nil modified_files && is_nil _);
    [apply no_events|].
  destruct dry_run; [apply no_events|].
  destruct (download_files_trace svc drive_files
              (new_files ++ modified_files) (load_checksums w) w)
    as [ts [Hts Hall]].
  destruct (download_files _ _ _ _ _ _) as [[c1|] w1]; simpl in Hts.
  - destruct (delete_local_files_trace
                (files_deleted_from_drive (load_checksums w) drive_files)
                c1 w1) as [ds [Hds Hdel]].
    destruct (delete_local_files _ _ _) as [c2 w2]; simpl in Hds.
    exists ts, ds. split; [|auto].
    rewrite app_assoc, <- Hts, <- Hds.
    destruct (is_nil _); reflexivity.
  - exists ts, []. rewrite app_nil_r. simpl. auto.
Qed.

Lemma push_order w :
  transfers_then_deletions
    (trace w) (trace (snd (sync_to_google_drive sha256 w))).
Proof.
  unfold sync_to_google_drive.
  destruct (get_google_drive_service w) as [svc|]; [|apply no_events].
  destruct (scan_notes _ _ _ _ _ _) as [[[nc new_files] modified_files]|];
    [|apply no_events].
  destruct (is_nil new_files && is_nil modified_files && is_nil _);
    [apply no_events|].
  destruct (upload_files_trace (new_files ++ modified_files)
              (Dict.empty string) nc w) as [ts [Hts Hall]].
  destruct (upload_files _ _ _ _) as [[c1|] w1]; simpl in Hts.
  - destruct (delete_remote_files_trace (load_checksums w)
                (files_deleted_locally (load_checksums w) nc) w1)
      as [ds [Hds Hdel]].
    destruct (delete_remote_files _ _ _) as [[[]|] w2]; simpl in Hds;
      exists ts, ds; (split; [|auto]);
      rewrite app_assoc, <- Hts, <- Hds; reflexivity.
  - exists ts, []. rewrite app_nil_r. simpl. auto.
Qed.
End ExecutionOrder.

(** C8.  In a run of either direction, every transfer (a download in
    pull, an upload in push) is issued before any deletion (a local
    delete in pull, a remote delete in push): the events that the run
    adds to the trace are a block of transfers followed by a block of
    deletions. *)
Theorem transfers_precede_deletions :
  forall (sha256 lower : string -> string) (dry_run : bool) (w : world),
    transfers_then_deletions
      (trace w) (trace (snd (pull_from_google_drive sha256 lower dry_run w))) /\
    transfers_then_deletions
      (trace w) (trace (snd (sync_to_google_drive sha256 w))).
Proof.
  intros sha256 lower dry_run w. split.
  - apply pull_order.
  - apply push_order.
Qed.

(** ** Local deletions during pull *)

Section PullRun.
Variable sha256 : string -> string.

Lemma classify_within local_checksums v items :
  forall new_files modified_files x,
    In x (fst (classify_drive_files local_checksums v items
                 new_files modified_files) ++
          snd (classify_drive_files local_checksums v items
                 new_files modified_files)) ->
    In x (new_files ++ modified_files) \/ In x (map fst items).
Proof.
  induction items as [|[file_path info] rest IH]; intros n m x H; simpl in *.
  - auto.
  - destruct (Dict.get local_checksums file_path) as [e|];
      [destruct (negb _); [|destruct (negb _); [|destruct (negb _)]]|];
      apply IH in H; rewrite !in_app_iff in *; simpl in H; tauto.
Qed.

Lemma download_files_logs svc drive_files files :
  (forall f, In f files -> In f (Dict.keys drive_files)) ->
  forall local_checksums w,
    (exists checksums,
        fst (download_files sha256 svc drive_files files local_checksums w)
        = Ok checksums) /\
    forall f, In f files ->
      In (Download f)
         (trace (snd (download_files sha256 svc drive_files files
                                     local_checksums w))).
Proof.
  induction files as [|file_path rest IH]; intros Hkeys lc w; simpl.
  - split; [eauto | tauto].
  - destruct (DictFacts.in_keys_get drive_files file_path) as [info Hinfo];
      [apply Hkeys; now left|].
    rewrite Hinfo.
    assert (Hrest : forall f, In f rest -> In f (Dict.keys drive_files))
      by (intros f Hf; apply Hkeys; now right).
    pose proof (download_file_trace svc (id info) file_path
                  (record w (Download file_path))) as Ht.
    assert (Hlogged : forall c w1,
              trace w1 = trace (record w (Download file_path)) ->
              forall f, file_path = f \/ In f rest ->
                In (Download f)
                   (trace (snd (download_files sha256 svc drive_files rest
                                               c w1)))).
    { intros c w1 Hw1 f [<-|Hf].
      - destruct (download_files_trace sha256 svc drive_files rest c w1)
          as [ts [Hts _]].
        rewrite Hts, Hw1. simpl. rewrite !in_app_iff. simpl. auto.
      - now apply IH. }
    destruct (download_file svc (id info) file_path
                (record w (Download file_path))) as [[[]|] w1];
      simpl in Ht.
    + destruct (lookup_path (parts file_path) (vault w1)) as [[n d m|n es]|];
        (split; [apply IH; auto | apply Hlogged; auto]).
    + split; [apply IH; auto | apply Hlogged; auto].
Qed.



Variable lower : string -> string.

End PullRun.


(** ** The empty-directory compactor *)

Section NodeInduction.
Variable P : node -> Prop.
Hypothesis P_file : forall name data mtime, P (File name data mtime).
Hypothesis P_dir :
  forall name entries, Forall P entries -> P (Dir name entries).

Fixpoint node_induction (x : node) : P x :=
  match x with
  | File name data mtime => P_file name data mtime
  | Dir name entries =>
      P_dir name
        ((fix all (l : list node) : Forall P l :=
            match l with
            | [] => Forall_nil P
            | y :: r => Forall_cons y (node_induction y) (all r)
            end) entries)
  end.
End NodeInduction.

Lemma inside_app x l1 l2 :
  inside x (l1 ++ l2) <-> inside x l1 \/ inside x l2.
Proof.
  split.
  - intros H. inversion H as [es Hin|name sub es Hin Hsub]; subst.
    + apply in_app_iff in Hin. destruct Hin; [left|right];
        now apply inside_here.
    + apply in_app_iff in Hin. destruct Hin; [left|right];
        eapply inside_deeper; eauto.
  - intros [H|H]; inversion H as [es Hin|name sub es Hin Hsub]; subst.
    + apply inside_here, in_app_iff; auto.
    + eapply inside_deeper; [apply in_app_iff; left; eassumption | assumption].
    + apply inside_here, in_app_iff; auto.
    + eapply inside_deeper; [apply in_app_iff; right; eassumption | assumption].
Qed.

Lemma inside_nil x : ~ inside x [].
Proof. intros H. inversion H; subst; simpl in *; tauto. Qed.

Lemma inside_flat_map x (f : node -> list node) l :
  inside x (flat_map f l) <-> exists y, In y l /\ inside x (f y).
Proof.
  induction l as [|y r IH]; simpl.
  - split; [intros H; now apply inside_nil in H | intros [y [[] _]]].
  - rewrite inside_app, IH. split.
    + intros [H|[z [Hz H]]]; eauto.
    + intros [z [[->|Hz] H]]; eauto.
Qed.

Lemma inside_one x y :
  inside x [y] <->
  x = y \/ exists name sub, y = Dir name sub /\ inside x sub.
Proof.
  split.
  - intros H. inversion H as [es Hin|name sub es Hin Hsub]; subst.
    + destruct Hin as [->|[]]. auto.
    + destruct Hin as [->|[]]. right. eauto.
  - intros [->|[name [sub [-> H]]]].
    + apply inside_here. simpl. auto.
    + eapply inside_deeper; eauto. simpl. auto.
Qed.

Lemma inside_member x y l : In y l -> inside x [y] -> inside x l.
Proof.
  intros Hy H. apply inside_one in H.
  destruct H as [->|[name [sub [-> H]]]].
  - now apply inside_here.
  - eapply inside_deeper; eauto.
Qed.

Lemma inside_some_member x l : inside x l -> exists y, In y l /\ inside x [y].
Proof.
  intros H. inversion H as [es Hin|name sub es Hin Hsub]; subst.
  - exists x. split; auto. apply inside_here. simpl. auto.
  - exists (Dir name sub). split; auto. apply inside_one. right. eauto.
Qed.

Section CompactorFacts.
Variable lower : string -> string.

Lemma preserved_spec name :
  preserved lower name = true <-> In (lower name) PRESERVE_FOLDERS.
Proof.
  unfold preserved. rewrite existsb_exists. split.
  - intros [x [Hin Heq]]. apply String.eqb_eq in Heq. now subst.
  - intros Hin. exists (lower name). split; auto. apply String.eqb_refl.
Qed.

Lemma cleanup_item_unfold name entries :
  cleanup_item lower (Dir name entries) =
  if is_nil (cleanup_empty_folders lower entries)
     && negb (preserved lower name)
  then []
  else [Dir name (cleanup_empty_folders lower entries)].
Proof. reflexivity. Qed.

(** The decision taken when the loop reaches a subdirectory. *)
Lemma cleanup_item_dir name entries :
  cleanup_item lower (Dir name entries) = [] <->
  cleanup_empty_folders lower entries = [] /\
  ~ In (lower name) PRESERVE_FOLDERS.
Proof.
  rewrite <- preserved_spec, cleanup_item_unfold.
  destruct (cleanup_empty_folders lower entries) as [|y r]; simpl.
  - destruct (preserved lower name); simpl.
    + split; [discriminate | intros [_ H]; exfalso; now apply H].
    + split; [intros _; split; [reflexivity | discriminate] | reflexivity].
  - split; [discriminate | intros [H _]; discriminate].
Qed.

Lemma cleanup_item_kept name entries :
  cleanup_item lower (Dir name entries) <> [] ->
  cleanup_item lower (Dir name entries)
  = [Dir name (cleanup_empty_folders lower entries)].
Proof.
  rewrite cleanup_item_unfold.
  destruct (is_nil _ && negb _); congruence.
Qed.

Lemma survivors_were_visited x :
  forall name remaining,
    inside (Dir name remaining) (cleanup_item lower x) ->
    exists entries,
      inside (Dir name entries) [x] /\
      remaining = cleanup_empty_folders lower entries /\
      survives lower name remaining.
Proof.
  induction x as [n d m|n es IH] using node_induction; intros name rem H.
  - simpl in H. apply inside_one in H.
    destruct H as [H|[n' [sub [H _]]]]; discriminate.
  - assert (E : cleanup_item lower (Dir n es) = [] \/
                 cleanup_item lower (Dir n es) <> [])
      by (destruct (cleanup_item lower (Dir n es)); [left|right]; congruence).
    destruct E as [E|E].
    + rewrite E in H. now apply inside_nil in H.
    + pose proof E as Hkeep. rewrite cleanup_item_dir in Hkeep.
      rewrite (@cleanup_item_kept n es E) in H. apply inside_one in H.
      destruct H as [H|[n' [sub [Heq H]]]].
      * inversion H; subst. exists es. repeat split; auto.
        apply inside_here. simpl. auto.
      * inversion Heq; subst n' sub. unfold cleanup_empty_folders in H.
        apply inside_flat_map in H. destruct H as [y [Hy H]].
        rewrite Forall_forall in IH.
        destruct (IH y Hy name rem H) as [entries [Hin [Hrem Hs]]].
        exists entries. repeat split; auto.
        apply inside_one. right. exists n, es. split; auto.
        eapply inside_member; eauto.
Qed.

Lemma visited_survive x :
  forall name entries,
    inside (Dir name entries) [x] ->
    survives lower name (cleanup_empty_folders lower entries) ->
    inside (Dir name (cleanup_empty_folders lower entries))
           (cleanup_item lower x).
Proof.
  induction x as [n d m|n es IH] using node_induction;
    intros name entries H Hs.
  - apply inside_one in H.
    destruct H as [H|[n' [sub [H _]]]]; discriminate.
  - apply inside_one in H. destruct H as [H|[n' [sub [Heq H]]]].
    + inversion H; subst name entries.
      rewrite cleanup_item_kept; [apply inside_here; simpl; auto|].
      now rewrite cleanup_item_dir.
    + inversion Heq; subst n' sub.
      apply inside_some_member in H. destruct H as [y [Hy H]].
      rewrite Forall_forall in IH. specialize (IH y Hy name entries H Hs).
      assert (Hsub : inside (Dir name (cleanup_empty_folders lower entries))
                            (cleanup_empty_folders lower es))
        by (apply inside_flat_map; eauto).
      rewrite cleanup_item_kept.
      * apply inside_one. right. eauto.
      * rewrite cleanup_item_dir. intros [E _]. rewrite E in Hsub.
        now apply inside_nil in Hsub.
Qed.

End CompactorFacts.

(** C9.  The compactor visits the directories below its argument
    bottom-up.  When the loop reaches a directory it has already cleaned
    its subdirectories, and it removes the directory if and only if no
    entry is left in it and its lowercase name is not one of [img],
    [weekly], [neovim].  At any depth, the directories left after the
    pass are exactly the visited ones that failed that test, each with
    its own entries cleaned.  The lowercase name is the one that
    [str.lower] gives, whatever it does to the letters of the name. *)
Theorem compactor_removes_empty_unpreserved :
  forall lower : string -> string,
    (forall name entries,
        cleanup_item lower (Dir name entries) = [] <->
        cleanup_empty_folders lower entries = [] /\
        ~ In (lower name) ["img"; "weekly"; "neovim"]) /\
    (forall root name remaining,
        inside (Dir name remaining) (cleanup_empty_folders lower root) <->
        exists entries,
          inside (Dir name entries) root /\
          remaining = cleanup_empty_folders lower entries /\
          survives lower name remaining).
Proof.
  intros lower. split.
  - apply cleanup_item_dir.
  - intros root name remaining. unfold cleanup_empty_folders at 1.
    rewrite inside_flat_map. split.
    + intros [y [Hy H]].
      destruct (@survivors_were_visited lower y name remaining H)
        as [entries [Hin [Hrem Hs]]].
      exists entries. repeat split; auto. eapply inside_member; eauto.
    + intros [entries [Hin [-> Hs]]].
      apply inside_some_member in Hin. destruct Hin as [y [Hy Hin]].
      exists y. split; auto. now apply visited_survive.
Qed.

(** ** Manifest entries without a remote id *)

Section PushManifest.
Variable sha256 : string -> string.

Lemma scan_notes_keys old_checksums notes :
  forall checksums new_files modified_files checksums' new_files'
         modified_files',
    scan_notes sha256 old_checksums notes checksums new_files modified_files
    = Ok (checksums', new_files', modified_files') ->
    forall k,
      (In k (Dict.keys checksums') <->
       In k (Dict.keys checksums) \/ In k (map fst notes)) /\
      (In k (new_files' ++ modified_files') ->
       In k (new_files ++ modified_files) \/ In k (map fst notes)).
Proof.
  induction notes as [|[rel_path_str note] rest IH];
    intros c nf mf c' nf' mf' H k; simpl in H.
  - inversion H; subst. simpl. tauto.
  - destruct (calculate_checksum sha256 note) as [digest|]; [|discriminate].
    destruct (Dict.get old_checksums rel_path_str) as [o|];
      [destruct (negb (checksum o =? digest))|];
      apply IH with (k := k) in H; destruct H as [Hk Hf];
      rewrite DictFacts.keys_set in Hk; simpl;
      (split; [rewrite Hk; intuition congruence|]);
      intros Hin; apply Hf in Hin; rewrite !in_app_iff in *;
      simpl in Hin; intuition congruence.
Qed.


Lemma upload_file_keeps_absent file_path_str folder_cache checksums w :
  forall cache' checksums' w' p,
    upload_file file_path_str folder_cache checksums w
    = (Ok (cache', checksums'), w') ->
    Dict.get checksums p = None -> Dict.get checksums' p = None.
Proof.
  intros cache' c' w' p H Hp. unfold upload_file in H.
  destruct (folder_structure _ _ _ _ _) as [[[parent_id cache1]|] svc1];
    [|discriminate].
  destruct (Dict.get checksums file_path_str) as [e|] eqn:He;
    [|discriminate].
  destruct (if truthy (drive_id e) then _ else _) as [file_id|];
    [|discriminate].
  destruct (lookup_path _ _) as [[n d m|n es]|]; try discriminate.
  destruct (upload_to_drive _ _ _ _ _) as [[uploaded svc2]|];
    [|discriminate].
  inversion H; subst.
  rewrite DictFacts.get_set_ne; auto. congruence.
Qed.

Lemma upload_files_keeps_absent files :
  forall folder_cache checksums w checksums' w' p,
    upload_files files folder_cache checksums w = (Ok checksums', w') ->
    Dict.get checksums p = None -> Dict.get checksums' p = None.
Proof.
  induction files as [|f rest IH]; intros fc c w c' w' p H Hp; simpl in H.
  - inversion H; subst. exact Hp.
  - destruct (upload_file f fc c w) as [[[cache1 c1]|] w1] eqn:E;
      [|discriminate].
    eapply IH; [exact H|]. eapply upload_file_keeps_absent; eauto.
Qed.



End PushManifest.

(** ** Objects that a push leaves in Drive *)

Section RemoteCopies.
Variable sha256 : string -> string.










End RemoteCopies.


(** ** The remote scan *)

Section ScanLoop.
Variable recurse : string -> string -> result (dict drive_info).
Variable path : string.

Lemma scan_items_keys items :
  (forall o, In o items -> is_folder o = true ->
             exists subfiles,
               recurse (item_id o) (join path (item_name o)) = Ok subfiles) ->
  forall files_dict,
  exists scanned,
    fold_left (scan_item recurse path) items (Ok files_dict) = Ok scanned /\
    forall k,
      In k (Dict.keys scanned) <->
      In k (Dict.keys files_dict) \/
      exists o, In o items /\ contributes recurse path o k.
Proof.
  induction items as [|o rest IH]; intros Hsub acc; simpl.
  - exists acc. split; auto. intros k. split; auto.
    intros [H|[o [[] _]]]. exact H.
  - assert (Hrest : forall o', In o' rest -> is_folder o' = true ->
              exists subfiles,
                recurse (item_id o') (join path (item_name o')) = Ok subfiles)
      by (intros o' Hin; apply Hsub; now right).
    destruct (is_folder o) eqn:Efolder.
    + destruct (Hsub o (or_introl eq_refl) Efolder) as [sub Hrec].
      rewrite Hrec.
      destruct (IH Hrest (Dict.update acc sub)) as [res [Hres Hkeys]].
      exists res. split; auto. intros k.
      rewrite Hkeys, DictFacts.keys_update. split.
      * intros [[H|H]|[o' [Hin Hc]]]; eauto.
        right. exists o. split; auto. left. eauto.
      * intros [H|[o' [[->|Hin] Hc]]]; eauto.
        destruct Hc as [[_ [sub' [Hrec' Hk]]]|[Hf _]]; [|congruence].
        rewrite Hrec in Hrec'. inversion Hrec'; subst. auto.
    + destruct (recognized (item_name o)) eqn:Erec.
      * destruct (IH Hrest
                    (Dict.set acc (join path (item_name o))
                       {| id := item_id o;
                          modified_in_drive := modifiedTime o |}))
          as [res [Hres Hkeys]].
        exists res. split; auto. intros k.
        rewrite Hkeys, DictFacts.keys_set. split.
        -- intros [[H|H]|[o' [Hin Hc]]]; eauto.
           right. exists o. split; auto. right. auto.
        -- intros [H|[o' [[->|Hin] Hc]]]; eauto.
           destruct Hc as [[Hf _]|[_ [_ Hk]]]; [congruence|auto].
      * destruct (IH Hrest acc) as [res [Hres Hkeys]].
        exists res. split; auto. intros k. rewrite Hkeys. split.
        -- intros [H|[o' [Hin Hc]]]; eauto.
        -- intros [H|[o' [[->|Hin] Hc]]]; eauto.
           destruct Hc as [[Hf _]|[_ [Hr _]]]; congruence.
Qed.
End ScanLoop.

Lemma shallow_children depth svc folder_id o :
  shallow (S depth) svc folder_id = true ->
  In o (children svc folder_id) ->
  is_folder o = true ->
  shallow depth svc (item_id o) = true.
Proof.
  simpl. rewrite forallb_forall. intros Hall Hin Hf.
  apply Hall in Hin. rewrite Hf in Hin. exact Hin.
Qed.

Lemma first_page_listed svc folder_id o :
  In o (firstn pageSize (children svc folder_id)) ->
  In o (children svc folder_id).
Proof.
  intros H. rewrite <- (firstn_skipn pageSize (children svc folder_id)).
  apply in_app_iff. auto.
Qed.

(** Without transport faults and within the recursion limit the scan
    returns a dictionary. *)
Lemma list_drive_files_returns svc :
  (forall f, faulty svc (ListRequest f) = false) ->
  forall depth folder_id path,
    shallow depth svc folder_id = true ->
    exists files_dict,
      list_drive_files depth svc folder_id path = Ok files_dict.
Proof.
  intros Hquiet depth.
  induction depth as [|depth IH]; intros folder_id path Hsh.
  - discriminate.
  - simpl. unfold list_page. rewrite Hquiet.
    destruct (@scan_items_keys (list_drive_files depth svc) path
                (firstn pageSize (children svc folder_id)))
      with (files_dict := Dict.empty drive_info) as [res [Hres _]]; eauto.
    intros o Hin Hf. apply IH.
    eapply shallow_children; eauto. now apply first_page_listed.
Qed.

Lemma first_page_all svc folder_id :
  length (children svc folder_id) <= pageSize ->
  first_page svc folder_id = children svc folder_id.
Proof. intros H. now apply firstn_all2. Qed.

Lemma reaches_first_page svc :
  (forall f, length (children svc f) <= pageSize) ->
  forall folder_id path o file_path,
    reaches (children svc) folder_id path o file_path ->
    reaches (first_page svc) folder_id path o file_path.
Proof.
  intros Hfit folder_id path o file_path H.
  induction H as [f p o Hin|f p d o fp Hin Hf _ IH].
  - apply reaches_child. now rewrite first_page_all.
  - eapply reaches_below; eauto. now rewrite first_page_all.
Qed.

Lemma scan_keys svc :
  (forall f, faulty svc (ListRequest f) = false) ->
  forall depth folder_id path,
    shallow depth svc folder_id = true ->
    exists files_dict,
      list_drive_files depth svc folder_id path = Ok files_dict /\
      forall k,
        In k (Dict.keys files_dict) <->
        exists o, reaches (first_page svc) folder_id path o k /\ matching o.
Proof.
  intros Hquiet depth.
  induction depth as [|depth IH]; intros folder_id path Hsh;
    [discriminate|].
  assert (Hsub : forall o, In o (first_page svc folder_id) ->
            is_folder o = true ->
            shallow depth svc (item_id o) = true).
  { intros o Hin Hf. eapply shallow_children; eauto.
    now apply first_page_listed. }
  simpl. unfold list_page. rewrite Hquiet.
  fold (first_page svc folder_id).
  destruct (@scan_items_keys (list_drive_files depth svc) path
              (first_page svc folder_id))
    with (files_dict := Dict.empty drive_info) as [res [Hres Hkeys]].
  { intros o Hin Hf.
    destruct (IH (item_id o) (join path (item_name o)) (Hsub o Hin Hf))
      as [sub [Hsubscan _]]. eauto. }
  exists res. split; auto. intros k. rewrite Hkeys. simpl. split.
  - intros [[]|[o [Hin [[Hf [sub [Hrec Hk]]]|[Hf [Hr ->]]]]]].
    + destruct (IH (item_id o) (join path (item_name o)) (Hsub o Hin Hf))
        as [sub' [Hrec' Hchar]].
      rewrite Hrec in Hrec'. inversion Hrec'; subst sub'.
      apply Hchar in Hk. destruct Hk as [o' [Hreach Hm]].
      exists o'. split; auto. eapply reaches_below; eauto.
    + exists o. split; [now apply reaches_child | split; auto].
  - intros [o [Hreach [Hfile Hrec]]]. right.
    inversion Hreach as [f p o0 Hin|f p d o0 fp Hin Hf Hdeep]; subst.
    + exists o. split; auto. right. auto.
    + exists d. split; auto. left. split; auto.
      destruct (IH (item_id d) (join path (item_name d)) (Hsub d Hin Hf))
        as [sub [Hrec' Hchar]].
      exists sub. split; auto. apply Hchar. exists o. split; auto.
      split; auto.
Qed.

(** X26.  The scan sends one listing request for each folder and reads
    the page it answers, of at most 1000 children.  Without transport
    faults and within the recursion limit it returns a map whose paths
    are exactly those of the matching files reached from the scanned
    folder through these first pages.  So the map holds every matching
    descendant file when no folder has more than 1000 children. *)
Theorem scan_reads_the_first_page_of_each_folder :
  forall (svc : service) (depth : nat) (folder_id path : string),
    (forall f, faulty svc (ListRequest f) = false) ->
    shallow depth svc folder_id = true ->
    exists files_dict,
      list_drive_files depth svc folder_id path = Ok files_dict /\
      (forall file_path,
          Dict.mem file_path files_dict = true <->
          exists o,
            reaches (first_page svc) folder_id path o file_path /\
            matching o) /\
      ((forall f, length (children svc f) <= 1000) ->
       forall o file_path,
         reaches (children svc) folder_id path o file_path ->
         matching o ->
         Dict.mem file_path files_dict = true).
Proof.
  intros svc depth folder_id path Hquiet Hsh.
  destruct (scan_keys svc Hquiet depth folder_id path Hsh)
    as [files_dict [Hscan Hkeys]].
  exists files_dict. split; auto. split.
  - intros file_path. rewrite DictFacts.mem_true. apply Hkeys.
  - intros Hfit o file_path Hreach Hm.
    apply DictFacts.mem_true, Hkeys. exists o. split; auto.
    now apply reaches_first_page.
Qed.

(** C3.  The scan does not page.  [list_drive_files] means to list
    every item of a folder and asks for pages of 1000, but it sends one
    request for a folder and follows no next-page token.  Of the 1001
    notes of a folder it returns the first 1000: the last one, a
    matching child of the root folder, is not in the map.  A pull on a
    vault that holds this note, tracked with the id and the time that
    Drive has for it, takes it for deleted from Drive: the run removes
    the local file and its manifest entry. *)
Theorem scan_truncates_after_first_page :
  In (numbered_note 1000) (children crowded DRIVE_FOLDER_ID) /\
  matching (numbered_note 1000) /\
  match list_drive_files 1000 crowded DRIVE_FOLDER_ID "" with
  | Ok files_dict =>
      length files_dict = 1000 /\
      Dict.mem (item_name (numbered_note 1000)) files_dict = false
  | Raise => False
  end /\
  forall sha256 lower : string -> string,
    let w := tracked_after_first_page in
    let r := pull_from_google_drive sha256 lower false w in
    drive w = crowded /\
    path_exists (vault w) "note1000.md" = true /\
    Dict.get (load_checksums w) "note1000.md"
    = Some {| checksum := "c0"; modified := 5;
              drive_id := Some (item_id (numbered_note 1000));
              drive_modified := Some (modifiedTime (numbered_note 1000)) |} /\
    fst r = Returned /\
    last (trace (snd r)) (Download "") = DeleteLocal "note1000.md" /\
    path_exists (vault (snd r)) "note1000.md" = false /\
    Dict.get (load_checksums (snd r)) "note1000.md" = None.
Proof.
  split; [|split; [|split]].
  - unfold children. apply filter_In. split.
    + change (In (numbered_note 1000) (map numbered_note (seq 0 1001))).
      apply in_map, in_seq. lia.
    + reflexivity.
  - split; reflexivity.
  - vm_compute. split; reflexivity.
  - intros sha256 lower. vm_compute. repeat split.
Qed.

(** ** What a push leaves for the next pull *)

(** Case analysis on the scrutinee of the first [match] of the goal. *)
Ltac split_match :=
  match goal with
  | |- context [match ?x with _ => _ end] => destruct x eqn:?
  end.

Ltac split_match_in H :=
  match type of H with
  | context [match ?x with _ => _ end] => destruct x eqn:?
  end.

Section PushThenPull.
Variable sha256 : string -> string.

Lemma set_no_remote_time checksums p e :
  no_remote_time checksums ->
  drive_modified e = None ->
  no_remote_time (Dict.set checksums p e).
Proof.
  intros Hc He q e' Hget.
  destruct (String.eqb_spec p q) as [->|Hne].
  - rewrite DictFacts.get_set_eq in Hget. congruence.
  - rewrite DictFacts.get_set_ne in Hget by auto. eauto.
Qed.

Lemma scan_notes_no_remote_time old_checksums notes :
  forall checksums new_files modified_files checksums' new_files'
         modified_files',
    scan_notes sha256 old_checksums notes checksums new_files modified_files
    = Ok (checksums', new_files', modified_files') ->
    no_remote_time checksums -> no_remote_time checksums'.
Proof.
  induction notes as [|[rel_path_str note] rest IH];
    intros c nf mf c' nf' mf' H Hc; simpl in H.
  - inversion H; subst. exact Hc.
  - destruct (calculate_checksum sha256 note) as [digest|]; [|discriminate].
    destruct (Dict.get old_checksums rel_path_str) as [o|];
      [destruct (negb (checksum o =? digest))|];
      (eapply IH; [exact H|]); now apply set_no_remote_time.
Qed.

Lemma upload_file_no_remote_time f folder_cache checksums w :
  forall cache' checksums' w',
    upload_file f folder_cache checksums w = (Ok (cache', checksums'), w') ->
    no_remote_time checksums -> no_remote_time checksums'.
Proof.
  unfold upload_file. intros cache' c' w' H Hc.
  repeat (split_match_in H; try discriminate).
  inversion H; subst. apply set_no_remote_time; auto. simpl. eauto.
Qed.

Lemma upload_files_no_remote_time files :
  forall folder_cache checksums w checksums' w',
    upload_files files folder_cache checksums w = (Ok checksums', w') ->
    no_remote_time checksums -> no_remote_time checksums'.
Proof.
  induction files as [|f rest IH]; intros fc c w c' w' H Hc; simpl in H.
  - inversion H; subst. exact Hc.
  - destruct (upload_file f fc c w) as [[[cache1 c1]|] w1] eqn:E;
      [|discriminate].
    eapply IH; [exact H|]. eapply upload_file_no_remote_time; eauto.
Qed.

Lemma upload_file_checksum_file f folder_cache checksums w :
  checksum_file (snd (upload_file f folder_cache checksums w))
  = checksum_file w.
Proof. unfold upload_file. repeat split_match; reflexivity. Qed.

Lemma upload_files_checksum_file files :
  forall folder_cache checksums w,
    checksum_file (snd (upload_files files folder_cache checksums w))
    = checksum_file w.
Proof.
  induction files as [|f rest IH]; intros fc c w; simpl; auto.
  pose proof (upload_file_checksum_file f fc c w) as H.
  destruct (upload_file f fc c w) as [[[cache1 c1]|] w1]; simpl in H; auto.
  now rewrite IH.
Qed.

Lemma delete_remote_files_checksum_file old_checksums files :
  forall w,
    checksum_file (snd (delete_remote_files old_checksums files w))
    = checksum_file w.
Proof.
  induction files as [|f rest IH]; intros w; simpl; auto.
  repeat split_match; auto; now rewrite IH.
Qed.

(** The manifest that a push writes has no remote modification time. *)
Lemma push_saves_no_remote_time w c :
  checksum_file (snd (sync_to_google_drive sha256 w)) = Some c ->
  checksum_file w <> Some c ->
  no_remote_time c.
Proof.
  unfold sync_to_google_drive. intros Hsaved Hnew.
  destruct (get_google_drive_service w); [|simpl in Hsaved; congruence].
  destruct (scan_notes _ _ _ _ _ _) as [[[nc new_files] modified_files]|]
    eqn:Escan; [|simpl in Hsaved; congruence].
  destruct (is_nil new_files && is_nil modified_files && is_nil _);
    [simpl in Hsaved; congruence|].
  pose proof (upload_files_checksum_file (new_files ++ modified_files)
                (Dict.empty string) nc w) as Hup.
  destruct (upload_files _ _ _ _) as [[c1|] w1] eqn:Eup; simpl in Hup;
    [|simpl in Hsaved; congruence].
  pose proof (delete_remote_files_checksum_file (load_checksums w)
                (files_deleted_locally (load_checksums w) nc) w1) as Hdel.
  destruct (delete_remote_files _ _ _) as [[[]|] w2]; simpl in *;
    [|congruence].
  inversion Hsaved; subst c1.
  eapply upload_files_no_remote_time; [exact Eup|].
  eapply scan_notes_no_remote_time; [exact Escan|].
  intros p e H. discriminate.
Qed.

(** A tracked path whose entry has no remote modification time is
    classified for download whenever Drive lists it. *)
Lemma no_remote_time_is_downloaded local_checksums v items file_path e :
  forall new_files modified_files,
    In file_path (map fst items) ->
    Dict.get local_checksums file_path = Some e ->
    drive_modified e = None ->
    In file_path
       (fst (classify_drive_files local_checksums v items
               new_files modified_files) ++
        snd (classify_drive_files local_checksums v items
               new_files modified_files)).
Proof.
  induction items as [|[p info] rest IH]; intros n m Hin Hget Hnone;
    simpl in *; [tauto|].
  destruct Hin as [->|Hin].
  - rewrite Hget, Hnone. simpl.
    destruct (negb _);
      match goal with
      | |- context [classify_drive_files _ _ _ ?n' ?m'] =>
          pose proof (@classify_keeps local_checksums v rest n' m' file_path)
            as Hkeep
      end;
      destruct (classify_drive_files _ _ _ _ _); apply Hkeep;
      rewrite !in_app_iff; simpl; tauto.
  - repeat split_match; now apply IH.
Qed.
End PushThenPull.

(** ** The local scan of push *)

Lemma glob_here_names prefix entries p x :
  In (p, x) (glob_here prefix entries) -> endswith (node_name x) ".md" = true.
Proof.
  unfold glob_here. intros H.
  apply in_flat_map in H. destruct H as [y [_ H]].
  destruct (endswith (node_name y) ".md") eqn:E; simpl in H; [|tauto].
  destruct H as [H|[]]. inversion H; subst. exact E.
Qed.

Lemma glob_md_node_names n :
  forall prefix p x,
    In (p, x) (glob_md_node prefix n) -> endswith (node_name x) ".md" = true.
Proof.
  induction n as [name data mtime|name entries IH] using node_induction;
    intros prefix p x H; simpl in H.
  - tauto.
  - apply in_app_iff in H. destruct H as [H|H].
    + eapply glob_here_names; eauto.
    + apply in_flat_map in H. destruct H as [y [Hy H]].
      rewrite Forall_forall in IH. eapply IH; eauto.
Qed.

Lemma get_all_notes_names w p x :
  In (p, x) (get_all_notes w) -> endswith (node_name x) ".md" = true.
Proof.
  unfold get_all_notes, glob_md. intros H.
  apply in_app_iff in H. destruct H as [H|H].
  - eapply glob_here_names; eauto.
  - apply in_flat_map in H. destruct H as [y [_ H]].
    eapply glob_md_node_names; eauto.
Qed.

(** ** Where the scripts part from the specification *)

(** C1.  A push saves entries with the hash and the remote id but
    never with the remote modification time, and the pull classification
    takes an entry without that time as modified in Drive.  So on the
    scenario of the specification: the push uploads [notes/a.md] and
    saves its entry; the pull that follows, nothing having changed,
    classifies the note as modified and downloads it.  The second run
    is not free of actions. *)
Theorem pull_after_push_downloads_again :
  forall sha256 lower : string -> string,
    (forall w c,
        checksum_file (snd (sync_to_google_drive sha256 w)) = Some c ->
        checksum_file w <> Some c ->
        no_remote_time c) /\
    (forall local_checksums v drive_files file_path e,
        Dict.mem file_path drive_files = true ->
        Dict.get local_checksums file_path = Some e ->
        drive_modified e = None ->
        In file_path
           (fst (classify_drive_files local_checksums v drive_files [] []) ++
            snd (classify_drive_files local_checksums v drive_files [] []))) /\
    let pushed := snd (sync_to_google_drive sha256 first_push) in
    fst (sync_to_google_drive sha256 first_push) = Returned /\
    trace pushed = [Upload "notes/a.md"] /\
    checksum_file pushed
    = Some [("notes/a.md",
             {| checksum := sha256 "# a"; modified := 7;
                drive_id := Some "id1"; drive_modified := None |})] /\
    list_drive_files 1000 (drive pushed) DRIVE_FOLDER_ID ""
    = Ok [("notes/a.md", {| id := "id1"; modified_in_drive := 1 |})] /\
    classify_drive_files (load_checksums pushed) (vault pushed)
      [("notes/a.md", {| id := "id1"; modified_in_drive := 1 |})] [] []
    = ([], ["notes/a.md"]) /\
    trace (snd (pull_from_google_drive sha256 lower false pushed))
    = [Upload "notes/a.md"; Download "notes/a.md"].
Proof.
  intros sha256 lower. split; [|split].
  - intros w c Hsaved Hnew. eapply push_saves_no_remote_time; eauto.
  - intros lc v df p e Hmem Hget Hnone.
    apply no_remote_time_is_downloaded with (e := e); auto.
    now apply DictFacts.mem_true.
  - vm_compute. repeat split.
Qed.

(** C2.  The local scan of push is [glob('**/*.md')]: it meets notes
    only, whatever the vault holds.  An image that pull has downloaded
    and recorded in the manifest is in the vault, is not in the scan,
    and the push that follows classifies it as deleted locally and
    deletes it from Drive. *)
Theorem push_deletes_the_image_that_pull_downloaded :
  forall sha256 lower : string -> string,
    let pulled :=
      snd (pull_from_google_drive sha256 lower false image_in_drive) in
    let pushed := snd (sync_to_google_drive sha256 pulled) in
    (forall w p x,
        In (p, x) (get_all_notes w) -> endswith (node_name x) ".md" = true) /\
    path_exists (vault pulled) "img/photo.png" = true /\
    recognized "photo.png" = true /\
    get_all_notes pulled = [] /\
    files_deleted_locally (load_checksums pulled) (Dict.empty entry)
    = ["img/photo.png"] /\
    trace pushed
    = [Download "img/photo.png"; DeleteRemote "img/photo.png" "R1"] /\
    find_object (drive pulled) "R1" <> None /\
    find_object (drive pushed) "R1" = None /\
    path_exists (vault pushed) "img/photo.png" = true.
Proof.
  intros sha256 lower pulled pushed. split; [apply get_all_notes_names|].
  vm_compute. repeat split. discriminate.
Qed.

(** C4.  In push no upload is inside a [try]: when the upload of [a.md]
    fails the run ends there, [b.md] is never tried and no manifest is
    saved.  A remote delete is inside a [try], but the manifest is
    written from the local scan, so the entry of the path that could
    not be deleted is gone and the next run does not try again.  In
    pull, the download that fails is skipped and the next one runs. *)
Theorem push_failures_are_not_isolated :
  forall sha256 lower : string -> string,
    (let r := sync_to_google_drive sha256 upload_fails in
     fst r = Crashed /\
     trace (snd r) = [Upload "a.md"] /\
     objects (drive (snd r)) = [] /\
     checksum_file (snd r) = None) /\
    (let r := sync_to_google_drive sha256 remote_delete_fails in
     fst r = Returned /\
     trace (snd r) = [DeleteRemote "gone.md" "R1"] /\
     find_object (drive (snd r)) "R1" <> None /\
     checksum_file (snd r) = Some [] /\
     trace (snd (sync_to_google_drive sha256 (snd r))) = trace (snd r)) /\
    (let r := pull_from_google_drive sha256 lower false download_fails in
     fst r = Returned /\
     trace (snd r) = [Download "a.md"; Download "b.md"] /\
     Dict.keys (load_checksums (snd r)) = ["b.md"]).
Proof. intros sha256 lower. vm_compute. repeat split. discriminate. Qed.

(** C5.  When [get_google_drive_service] returns [None] the entry
    function returns, and [main] after it: the exit status of the pull
    script, of the push script and of [sync.py], which reads the status
    of the two, is 0. *)
Theorem unavailable_service_exits_with_status_zero :
  forall (sha256 lower : string -> string) (dry_run : bool) (w : world),
    get_google_drive_service w = None ->
    fst (pull_main sha256 lower dry_run w) = 0 /\
    fst (push_main sha256 no_args w) = 0 /\
    fst (sync_main sha256 lower dry_run w) = 0.
Proof.
  intros sha256 lower dry_run w Hnone.
  assert (Hpull : pull_main sha256 lower dry_run w = (0, w)).
  { unfold pull_main, pull_from_google_drive. now rewrite Hnone. }
  assert (Hpush : push_main sha256 no_args w = (0, w)).
  { unfold push_main, sync_to_google_drive. simpl. now rewrite Hnone. }
  repeat split.
  - now rewrite Hpull.
  - now rewrite Hpush.
  - unfold sync_main, run_script. rewrite Hpull. simpl.
    destruct dry_run; simpl; [reflexivity|].
    now rewrite Hpush.
Qed.

(** ** Instances *)

(** A pull that has one download and one local delete to do: the
    download comes first, the directory that the delete empties is
    removed, the empty [Weekly] is kept. *)
Example pull_downloads_then_deletes :
  let r :=
    pull_from_google_drive (fun s => s) ascii_lower false remote_changed in
  trace (snd r) = [Download "b.md"; DeleteLocal "deep/old.md"] /\
  vault (snd r) = [Dir "Weekly" []; File "b.md" "" 100] /\
  Dict.keys (load_checksums (snd r)) = ["b.md"].
Proof. vm_compute. repeat split. Qed.

Example compactor_on_a_tree :
  cleanup_empty_folders ascii_lower
    [Dir "a" [Dir "IMG" []; Dir "b" [Dir "c" []]];
     Dir "d" [Dir "e" []];
     File "x.md" "" 0]
  = [Dir "a" [Dir "IMG" []]; File "x.md" "" 0].
Proof. reflexivity. Qed.

Lemma unavailable_service_exits_with_status_zero_witness :
  get_google_drive_service no_credentials = None /\
  fst (pull_main (fun s => s) ascii_lower false no_credentials) = 0 /\
  fst (push_main (fun s => s) no_args no_credentials) = 0 /\
  fst (sync_main (fun s => s) ascii_lower false no_credentials) = 0.
Proof.
  split; [reflexivity|].
  apply (unavailable_service_exits_with_status_zero
           (fun s => s) ascii_lower false no_credentials).
  reflexivity.
Defined.

Lemma scan_reads_the_first_page_of_each_folder_witness :
  exists files_dict,
    list_drive_files 1000 (drive image_in_drive) DRIVE_FOLDER_ID ""
    = Ok files_dict /\
    (forall file_path,
        Dict.mem file_path files_dict = true <->
        exists o,
          reaches (first_page (drive image_in_drive)) DRIVE_FOLDER_ID ""
                  o file_path /\
          matching o) /\
    ((forall f, length (children (drive image_in_drive) f) <= 1000) ->
     forall o file_path,
       reaches (children (drive image_in_drive)) DRIVE_FOLDER_ID ""
               o file_path ->
       matching o ->
       Dict.mem file_path files_dict = true).
Proof.
  apply (@scan_reads_the_first_page_of_each_folder
           (drive image_in_drive) 1000 DRIVE_FOLDER_ID "").
  - intros f. reflexivity.
  - vm_compute. reflexivity.
Defined.



(** * Further properties of the scripts *)

(** ** What a run leaves untouched *)

Section Frames.
Variable sha256 : string -> string.

Lemma download_file_frame svc file_id local_path w :
  drive (snd (download_file svc file_id local_path w)) = drive w /\
  checksum_file (snd (download_file svc file_id local_path w))
  = checksum_file w.
Proof. unfold download_file. repeat split_match; split; reflexivity. Qed.

Lemma download_files_frame svc drive_files files :
  forall local_checksums w,
    drive (snd (download_files sha256 svc drive_files files
                               local_checksums w)) = drive w /\
    checksum_file (snd (download_files sha256 svc drive_files files
                                       local_checksums w))
    = checksum_file w.
Proof.
  induction files as [|file_path rest IH]; intros lc w; simpl; auto.
  destruct (Dict.get drive_files file_path) as [info|]; auto.
  pose proof (download_file_frame svc (id info) file_path
                (record w (Download file_path))) as [Hd Hc].
  destruct (download_file svc (id info) file_path
              (record w (Download file_path))) as [[[]|] w1];
    simpl in Hd, Hc; repeat split_match;
    match goal with
    | |- context [download_files _ _ _ _ ?c w1] =>
        destruct (IH c w1) as [Hd' Hc']
    end; rewrite Hd', Hc', Hd, Hc; auto.
Qed.

Lemma delete_local_files_frame files :
  forall local_checksums w,
    drive (snd (delete_local_files files local_checksums w)) = drive w /\
    checksum_file (snd (delete_local_files files local_checksums w))
    = checksum_file w.
Proof.
  induction files as [|file_path rest IH]; intros lc w; simpl; auto.
  repeat split_match;
    match goal with
    | |- context [delete_local_files _ ?c ?w'] =>
        destruct (IH c w') as [Hd' Hc']
    end; rewrite Hd', Hc'; auto.
Qed.

Lemma upload_file_vault f folder_cache checksums w :
  vault (snd (upload_file f folder_cache checksums w)) = vault w.
Proof. unfold upload_file. repeat split_match; reflexivity. Qed.

Lemma upload_files_vault files :
  forall folder_cache checksums w,
    vault (snd (upload_files files folder_cache checksums w)) = vault w.
Proof.
  induction files as [|f rest IH]; intros fc c w; simpl; auto.
  pose proof (upload_file_vault f fc c w) as H.
  destruct (upload_file f fc c w) as [[[cache1 c1]|] w1]; simpl in H; auto.
  now rewrite IH.
Qed.

Lemma delete_remote_files_vault old_checksums files :
  forall w,
    vault (snd (delete_remote_files old_checksums files w)) = vault w.
Proof.
  induction files as [|f rest IH]; intros w; simpl; auto.
  repeat split_match; auto; now rewrite IH.
Qed.
End Frames.

(** X1.  With [--dry-run] the pull script only reads: whatever Drive
    lists and whatever the listing does, the vault, the manifest file
    and Drive are what they were, and nothing is downloaded or
    deleted. *)
Theorem pull_dry_run_changes_nothing :
  forall (sha256 lower : string -> string) (w : world),
    snd (pull_from_google_drive sha256 lower true w) = w.
Proof.
  intros sha256 lower w. unfold pull_from_google_drive.
  repeat split_match; reflexivity.
Qed.

(** X2.  No run of the pull script, in any mode and whatever fails,
    changes an object of Drive. *)
Theorem pull_never_modifies_drive :
  forall (sha256 lower : string -> string) (dry_run : bool) (w : world),
    drive (snd (pull_from_google_drive sha256 lower dry_run w)) = drive w.
Proof.
  intros sha256 lower dry_run w. unfold pull_from_google_drive.
  destruct (get_google_drive_service w) as [svc|]; auto.
  destruct (list_drive_files _ _ _ _) as [drive_files|]; auto.
  destruct (classify_drive_files _ _ _ _ _) as [new_files modified_files].
  destruct (is_nil new_files && is_nil modified_files && is_nil _); auto.
  destruct dry_run; auto.
  destruct (download_files_frame sha256 svc drive_files
              (new_files ++ modified_files) (load_checksums w) w) as [Hd _].
  destruct (download_files _ _ _ _ _ _) as [[c1|] w1]; simpl in Hd; auto.
  destruct (delete_local_files_frame
              (files_deleted_from_drive (load_checksums w) drive_files)
              c1 w1) as [Hd' _].
  destruct (delete_local_files _ _ _) as [c2 w2]; simpl in Hd'.
  destruct (is_nil _); simpl; congruence.
Qed.

Lemma sync_to_google_drive_vault :
  forall (sha256 : string -> string) (w : world),
    vault (snd (sync_to_google_drive sha256 w)) = vault w.
Proof.
  intros sha256 w. unfold sync_to_google_drive.
  destruct (get_google_drive_service w); auto.
  destruct (scan_notes _ _ _ _ _ _) as [[[nc new_files] modified_files]|];
    auto.
  destruct (is_nil new_files && is_nil modified_files && is_nil _); auto.
  pose proof (upload_files_vault (new_files ++ modified_files)
                (Dict.empty string) nc w) as Hup.
  destruct (upload_files _ _ _ _) as [[c1|] w1]; simpl in Hup; auto.
  pose proof (delete_remote_files_vault (load_checksums w)
                (files_deleted_locally (load_checksums w) nc) w1) as Hdel.
  destruct (delete_remote_files _ _ _) as [[[]|] w2]; simpl in *; congruence.
Qed.

(** X3.  No run of the push script changes a file or a directory of the
    vault. *)
Theorem push_never_modifies_the_vault :
  forall (sha256 : string -> string) (w : world),
    vault (snd (sync_to_google_drive sha256 w)) = vault w.
Proof. exact sync_to_google_drive_vault. Qed.

(** ** Runs that end in an exception *)

(** X4.  The push script writes the manifest file in its last step
    only: a run that an exception ends, in the scan or in the middle of
    the uploads, leaves [.checksums.json] as it was, so that the next run
    classifies from the same manifest. *)
Theorem push_crash_leaves_the_manifest :
  forall (sha256 : string -> string) (w : world),
    fst (sync_to_google_drive sha256 w) = Crashed ->
    checksum_file (snd (sync_to_google_drive sha256 w)) = checksum_file w.
Proof.
  intros sha256 w. unfold sync_to_google_drive.
  destruct (get_google_drive_service w); auto.
  destruct (scan_notes _ _ _ _ _ _) as [[[nc new_files] modified_files]|];
    auto.
  destruct (is_nil new_files && is_nil modified_files && is_nil _); auto.
  pose proof (upload_files_checksum_file (new_files ++ modified_files)
                (Dict.empty string) nc w) as Hup.
  destruct (upload_files _ _ _ _) as [[c1|] w1]; simpl in Hup; auto.
  pose proof (delete_remote_files_checksum_file (load_checksums w)
                (files_deleted_locally (load_checksums w) nc) w1) as Hdel.
  destruct (delete_remote_files _ _ _) as [[[]|] w2]; simpl in *;
    [discriminate | congruence].
Qed.

Lemma push_crash_leaves_the_manifest_witness :
  fst (sync_to_google_drive (fun s => s) upload_fails) = Crashed /\
  checksum_file (snd (sync_to_google_drive (fun s => s) upload_fails))
  = checksum_file upload_fails.
Proof.
  split; [reflexivity|].
  apply (@push_crash_leaves_the_manifest (fun s => s) upload_fails).
  reflexivity.
Defined.

Lemma pull_crash_is_in_the_scan :
  forall (sha256 lower : string -> string) (dry_run : bool) (w : world),
    fst (pull_from_google_drive sha256 lower dry_run w) = Crashed ->
    snd (pull_from_google_drive sha256 lower dry_run w) = w /\
    exists svc,
      get_google_drive_service w = Some svc /\
      list_drive_files (recursion_limit w) svc DRIVE_FOLDER_ID "" = Raise.
Proof.
  intros sha256 lower dry_run w. unfold pull_from_google_drive.
  destruct (get_google_drive_service w) as [svc|]; [|discriminate].
  destruct (list_drive_files _ _ _ _) as [drive_files|] eqn:Escan;
    [|intros _; split; eauto].
  pose proof (@classify_within sha256 (load_checksums w) (vault w)
                drive_files [] []) as Hwithin.
  destruct (classify_drive_files _ _ _ _ _) as [new_files modified_files].
  destruct (is_nil new_files && is_nil modified_files && is_nil _);
    [discriminate|].
  destruct dry_run; [discriminate|].
  destruct (@download_files_logs sha256 svc drive_files
              (new_files ++ modified_files))
    with (local_checksums := load_checksums w) (w := w) as [[c1 Hok] _].
  { intros f Hf. apply Hwithin in Hf. simpl in Hf. tauto. }
  destruct (download_files _ _ _ _ _ _) as [r1 w1]. simpl in Hok. subst r1.
  destruct (delete_local_files _ _ _) as [c2 w2]. discriminate.
Qed.

(** X5.  The only exception that escapes the pull script is one that the
    remote scan raises (a failed listing, or the recursion limit): the
    run then ends before anything is downloaded, deleted or saved.
    Every later failure is caught where it happens. *)
Theorem pull_crashes_only_in_the_scan :
  forall (sha256 lower : string -> string) (dry_run : bool) (w : world),
    fst (pull_from_google_drive sha256 lower dry_run w) = Crashed ->
    snd (pull_from_google_drive sha256 lower dry_run w) = w /\
    exists svc,
      get_google_drive_service w = Some svc /\
      list_drive_files (recursion_limit w) svc DRIVE_FOLDER_ID "" = Raise.
Proof. exact pull_crash_is_in_the_scan. Qed.

Lemma pull_crashes_only_in_the_scan_witness :
  fst (pull_from_google_drive (fun s => s) ascii_lower
        false listing_fails) = Crashed /\
  snd (pull_from_google_drive (fun s => s) ascii_lower false listing_fails)
  = listing_fails /\
  exists svc,
    get_google_drive_service listing_fails = Some svc /\
    list_drive_files (recursion_limit listing_fails) svc DRIVE_FOLDER_ID ""
    = Raise.
Proof.
  split; [reflexivity|].
  apply (@pull_crashes_only_in_the_scan (fun s => s) ascii_lower
        false listing_fails).
  reflexivity.
Defined.

(** ** The two classifications *)

Lemma in_snoc (x y : string) (l1 l2 : list string) :
  In x ((l1 ++ [y]) ++ l2) <-> In x (l1 ++ l2) \/ y = x.
Proof. rewrite !in_app_iff. simpl. tauto. Qed.

Lemma in_snoc_r (x y : string) (l1 l2 : list string) :
  In x (l1 ++ l2 ++ [y]) <-> In x (l1 ++ l2) \/ y = x.
Proof. rewrite !in_app_iff. simpl. tauto. Qed.

Lemma classify_drive_files_spec local_checksums v items :
  forall new_files modified_files p,
    In p (fst (classify_drive_files local_checksums v items
                 new_files modified_files) ++
          snd (classify_drive_files local_checksums v items
                 new_files modified_files)) <->
    In p (new_files ++ modified_files) \/
    exists info,
      In (p, info) items /\ needs_download local_checksums v p info.
Proof.
  induction items as [|[file_path info] rest IH]; intros n m p; simpl.
  - split; [auto | intros [H|[info [[] _]]]; exact H].
  - assert (Hadd : needs_download local_checksums v file_path info ->
              (In p (n ++ m) \/ file_path = p) \/
              (exists info', In (p, info') rest /\
                             needs_download local_checksums v p info') <->
              In p (n ++ m) \/
              exists info',
                ((file_path, info) = (p, info') \/ In (p, info') rest) /\
                needs_download local_checksums v p info').
    { intros Hneed. split.
      - intros [[H|<-]|[info' [Hin H]]]; eauto.
      - intros [H|[info' [[Heq|Hin] H]]]; eauto.
        inversion Heq; subst. auto. }
    assert (Hskip : ~ needs_download local_checksums v file_path info ->
              In p (n ++ m) \/
              (exists info', In (p, info') rest /\
                             needs_download local_checksums v p info') <->
              In p (n ++ m) \/
              exists info',
                ((file_path, info) = (p, info') \/ In (p, info') rest) /\
                needs_download local_checksums v p info').
    { intros Hnot. split.
      - intros [H|[info' [Hin H]]]; eauto.
      - intros [H|[info' [[Heq|Hin] H]]]; eauto.
        inversion Heq; subst. tauto. }
    unfold needs_download in Hadd, Hskip. unfold same_id, same_time in *.
    destruct (Dict.get local_checksums file_path) as [e|].
    + destruct (match drive_id e with Some i => i =? id info | None => false end);
        simpl.
      * destruct (match drive_modified e with
                  | Some m0 => (m0 =? modified_in_drive info)%nat
                  | None => false
                  end); simpl.
        -- destruct (path_exists v file_path); simpl.
           ++ rewrite IH. apply Hskip. intros [H|[H|H]]; discriminate.
           ++ rewrite IH, in_snoc. apply Hadd. auto.
        -- rewrite IH, in_snoc_r. apply Hadd. auto.
      * rewrite IH, in_snoc_r. apply Hadd. auto.
    + rewrite IH, in_snoc. apply Hadd. exact I.
Qed.

Section Classifications.
Variable sha256 : string -> string.

Lemma scan_notes_spec old_checksums notes :
  forall checksums new_files modified_files checksums' new_files'
         modified_files' p,
    scan_notes sha256 old_checksums notes checksums new_files modified_files
    = Ok (checksums', new_files', modified_files') ->
    (In p (new_files' ++ modified_files') <->
     In p (new_files ++ modified_files) \/
     exists name data mtime,
       In (p, File name data mtime) notes /\
       needs_upload sha256 old_checksums p data).
Proof.
  induction notes as [|[rel_path_str note] rest IH];
    intros c nf mf c' nf' mf' p H; simpl in H.
  - inversion H; subst. split; auto.
    intros [Hin|[name [data [mtime [[] _]]]]]. exact Hin.
  - destruct note as [name data mtime|name entries]; simpl in H;
      [|discriminate].
    assert (Hadd : needs_upload sha256 old_checksums rel_path_str data ->
              (In p (nf ++ mf) \/ rel_path_str = p) \/
              (exists n d t, In (p, File n d t) rest /\
                             needs_upload sha256 old_checksums p d) <->
              In p (nf ++ mf) \/
              exists n d t,
                ((rel_path_str, File name data mtime) = (p, File n d t) \/
                 In (p, File n d t) rest) /\
                needs_upload sha256 old_checksums p d).
    { intros Hneed. split.
      - intros [[Hin|<-]|[n [d [t [Hin Hn]]]]];
          [auto | right; exists name, data, mtime; auto | eauto 8].
      - intros [Hin|[n [d [t [[Heq|Hin] Hn]]]]];
          [auto | inversion Heq; subst; auto | eauto 8]. }
    assert (Hskip : ~ needs_upload sha256 old_checksums rel_path_str data ->
              In p (nf ++ mf) \/
              (exists n d t, In (p, File n d t) rest /\
                             needs_upload sha256 old_checksums p d) <->
              In p (nf ++ mf) \/
              exists n d t,
                ((rel_path_str, File name data mtime) = (p, File n d t) \/
                 In (p, File n d t) rest) /\
                needs_upload sha256 old_checksums p d).
    { intros Hnot. split.
      - intros [Hin|[n [d [t [Hin Hn]]]]]; eauto 8.
      - intros [Hin|[n [d [t [[Heq|Hin] Hn]]]]];
          [auto | inversion Heq; subst; tauto | eauto 8]. }
    unfold needs_upload in Hadd, Hskip.
    destruct (Dict.get old_checksums rel_path_str) as [o|].
    + destruct (String.eqb_spec (checksum o) (sha256 data)) as [Heq|Hne];
        simpl in H; apply IH with (p := p) in H; rewrite H.
      * apply Hskip. tauto.
      * rewrite in_snoc_r. apply Hadd. exact Hne.
    + apply IH with (p := p) in H. rewrite H, in_snoc. apply Hadd. exact I.
Qed.
End Classifications.

(** X6.  The pull classification is exact.  A path is classified for
    download if and only if Drive lists it and it is not tracked, or the
    manifest has another id or another modification time for it, or its
    local file is missing.  A path is classified for local deletion if
    and only if the manifest tracks it and Drive does not list it.  No
    path is classified for both. *)
Theorem pull_classification_is_exact :
  forall (local_checksums : dict entry) (v : list node)
         (drive_files : dict drive_info) (p : string),
    let downloads :=
      (fst (classify_drive_files local_checksums v drive_files [] []) ++
       snd (classify_drive_files local_checksums v drive_files [] []))%list in
    let deleted_files :=
      files_deleted_from_drive local_checksums drive_files in
    (In p downloads <->
     exists info,
       In (p, info) drive_files /\ needs_download local_checksums v p info) /\
    (In p deleted_files <->
     In p (Dict.keys local_checksums) /\ ~ In p (Dict.keys drive_files)) /\
    ~ (In p downloads /\ In p deleted_files).
Proof.
  intros lc v df p downloads deleted_files.
  assert (Hdown : In p downloads <->
            exists info, In (p, info) df /\ needs_download lc v p info).
  { unfold downloads. rewrite classify_drive_files_spec. simpl. tauto. }
  assert (Hdel : In p deleted_files <->
            In p (Dict.keys lc) /\ ~ In p (Dict.keys df)).
  { unfold deleted_files, files_deleted_from_drive. split.
    - intros H. apply filter_In in H. destruct H as [Hk Hm].
      split; auto. intros Hin. apply DictFacts.mem_true in Hin.
      rewrite Hin in Hm. discriminate.
    - intros [Hk Hn]. apply filter_In. split; auto.
      destruct (Dict.mem p df) eqn:E; auto.
      apply DictFacts.mem_true in E. tauto. }
  split; [exact Hdown|]. split; [exact Hdel|].
  rewrite Hdown, Hdel. intros [[info [Hin _]] [_ Hnot]]. apply Hnot.
  unfold Dict.keys. apply in_map_iff. exists (p, info). auto.
Qed.

(** X7.  The push classification is exact.  When the scan of the vault
    succeeds, a path is classified for upload if and only if it is the
    path of a scanned note that is not tracked or whose content hash is
    not the one in the manifest; a path is classified for remote deletion
    if and only if the manifest tracks it and the scan did not meet it.
    No path is classified for both. *)
Theorem push_classification_is_exact :
  forall (sha256 : string -> string) (old_checksums : dict entry)
         (notes : list (string * node)) (new_checksums : dict entry)
         (new_files modified_files : list string) (p : string),
    scan_notes sha256 old_checksums notes (Dict.empty entry) [] []
    = Ok (new_checksums, new_files, modified_files) ->
    (In p (new_files ++ modified_files) <->
     exists name data mtime,
       In (p, File name data mtime) notes /\
       needs_upload sha256 old_checksums p data) /\
    (In p (files_deleted_locally old_checksums new_checksums) <->
     In p (Dict.keys old_checksums) /\ ~ In p (map fst notes)) /\
    ~ (In p (new_files ++ modified_files) /\
       In p (files_deleted_locally old_checksums new_checksums)).
Proof.
  intros sha256 old notes nc nf mf p Hscan.
  pose proof (scan_notes_spec sha256 old notes _ _ _ p Hscan) as Hup.
  simpl in Hup.
  pose proof (scan_notes_keys sha256 old notes _ _ _ Hscan p) as [Hkeys' _].
  assert (Hkeys : In p (Dict.keys nc) <-> In p (map fst notes))
    by (rewrite Hkeys'; simpl; tauto).
  assert (Hdel : In p (files_deleted_locally old nc) <->
            In p (Dict.keys old) /\ ~ In p (map fst notes)).
  { unfold files_deleted_locally. split.
    - intros H. apply filter_In in H. destruct H as [Hk Hm].
      split; auto. intros Hin. apply Hkeys, DictFacts.mem_true in Hin.
      rewrite Hin in Hm. discriminate.
    - intros [Hk Hn]. apply filter_In. split; auto.
      destruct (Dict.mem p nc) eqn:E; auto.
      apply DictFacts.mem_true, Hkeys in E. tauto. }
  split; [tauto|]. split; [exact Hdel|].
  rewrite Hdel. intros [Hin [_ Hnot]]. apply Hnot.
  apply Hup in Hin. destruct Hin as [[]|[name [data [mtime [Hin _]]]]].
  apply in_map_iff. exists (p, File name data mtime). auto.
Qed.

(** ** Runs that find nothing to do *)

Lemma filter_none {A : Type} (f : A -> bool) (l : list A) :
  (forall x, In x l -> f x = false) -> filter f l = [].
Proof.
  induction l as [|x r IH]; intros H; simpl; auto.
  rewrite (H x) by (simpl; auto). apply IH. intros y Hy. apply H. now right.
Qed.

Lemma no_member_nil {A : Type} (l : list A) :
  (forall x, ~ In x l) -> l = [].
Proof.
  destruct l as [|x r]; auto. intros H. exfalso. apply (H x). now left.
Qed.

(** X8.  When the manifest agrees with what Drive lists (same paths,
    same ids, same modification times) and every listed file is in the
    vault, a pull classifies nothing and returns at once: no download, no
    deletion, no compaction, no manifest write. *)
Theorem pull_in_sync_does_nothing :
  forall (sha256 lower : string -> string) (dry_run : bool) (w : world)
         (svc : service) (drive_files : dict drive_info),
    get_google_drive_service w = Some svc ->
    list_drive_files (recursion_limit w) svc DRIVE_FOLDER_ID ""
    = Ok drive_files ->
    agrees_with_drive (load_checksums w) (vault w) drive_files ->
    pull_from_google_drive sha256 lower dry_run w = (Returned, w).
Proof.
  intros sha256 lower dry_run w svc df Hsvc Hscan [Hsame Hlisted].
  unfold pull_from_google_drive. rewrite Hsvc, Hscan.
  assert (Hnone : forall p,
            ~ In p (fst (classify_drive_files (load_checksums w) (vault w)
                           df [] []) ++
                    snd (classify_drive_files (load_checksums w) (vault w)
                           df [] []))).
  { intros p Hin. apply classify_drive_files_spec in Hin.
    destruct Hin as [[]|[info [Hin Hneed]]]. eapply Hsame; eauto. }
  apply no_member_nil in Hnone.
  destruct (classify_drive_files _ _ _ _ _) as [new_files modified_files].
  simpl in Hnone. apply app_eq_nil in Hnone. destruct Hnone as [-> ->].
  assert (Hdel : files_deleted_from_drive (load_checksums w) df = []).
  { apply filter_none. intros p Hp. apply Hlisted in Hp.
    apply DictFacts.mem_true in Hp. now rewrite Hp. }
  rewrite Hdel. reflexivity.
Qed.

Section PushNoChange.
Variable sha256 : string -> string.

Lemma scan_notes_unchanged old_checksums notes :
  (forall p note,
      In (p, note) notes ->
      exists name data mtime o,
        note = File name data mtime /\
        Dict.get old_checksums p = Some o /\ checksum o = sha256 data) ->
  forall checksums new_files modified_files,
  exists checksums',
    scan_notes sha256 old_checksums notes checksums new_files modified_files
    = Ok (checksums', new_files, modified_files).
Proof.
  induction notes as [|[p note] rest IH]; intros Hall c nf mf; simpl.
  - eauto.
  - destruct (Hall p note (or_introl eq_refl))
      as [name [data [mtime [o [-> [Hget Hsum]]]]]].
    simpl. rewrite Hget, Hsum, String.eqb_refl. simpl.
    apply IH. intros q n Hin. apply Hall. now right.
Qed.

Lemma push_without_changes w :
  agrees_with_vault sha256 (load_checksums w) (get_all_notes w) ->
  sync_to_google_drive sha256 w = (Returned, w).
Proof.
  intros [Hsame Htracked]. unfold sync_to_google_drive.
  destruct (get_google_drive_service w); auto.
  destruct (@scan_notes_unchanged (load_checksums w) (get_all_notes w) Hsame
              (Dict.empty entry) [] []) as [nc Hscan].
  rewrite Hscan.
  pose proof (scan_notes_keys sha256 _ _ _ _ _ Hscan) as Hkeys.
  assert (Hdel : files_deleted_locally (load_checksums w) nc = []).
  { apply filter_none. intros p Hp.
    assert (Hin : In p (Dict.keys nc))
      by (apply (Hkeys p); right; now apply Htracked).
    apply DictFacts.mem_true in Hin. now rewrite Hin. }
  rewrite Hdel. reflexivity.
Qed.
End PushNoChange.

(** X9.  When the manifest tracks exactly the notes of the vault, each
    with the hash of its present content, a push classifies nothing and
    returns at once: no request is sent to Drive and the manifest is not
    rewritten. *)
Theorem push_in_sync_does_nothing :
  forall (sha256 : string -> string) (w : world),
    agrees_with_vault sha256 (load_checksums w) (get_all_notes w) ->
    sync_to_google_drive sha256 w = (Returned, w).
Proof. intros sha256 w H. now apply push_without_changes. Qed.

Section PushTwice.
Variable sha256 : string -> string.

Lemma scan_notes_other old_checksums notes q :
  forall checksums new_files modified_files checksums' new_files'
         modified_files',
    scan_notes sha256 old_checksums notes checksums new_files modified_files
    = Ok (checksums', new_files', modified_files') ->
    ~ In q (map fst notes) ->
    Dict.get checksums' q = Dict.get checksums q.
Proof.
  induction notes as [|[p note] rest IH];
    intros c nf mf c' nf' mf' H Hq; simpl in *.
  - now inversion H.
  - destruct (calculate_checksum sha256 note) as [digest|]; [|discriminate].
    repeat split_match_in H;
      (eapply IH in H; [|tauto]); rewrite H;
      apply DictFacts.get_set_ne; tauto.
Qed.

Lemma scan_notes_entries old_checksums notes :
  NoDup (map fst notes) ->
  forall checksums new_files modified_files checksums' new_files'
         modified_files' p name data mtime,
    scan_notes sha256 old_checksums notes checksums new_files modified_files
    = Ok (checksums', new_files', modified_files') ->
    In (p, File name data mtime) notes ->
    exists o, Dict.get checksums' p = Some o /\ checksum o = sha256 data.
Proof.
  induction notes as [|[q note] rest IH];
    intros Hnd c nf mf c' nf' mf' p name data mtime H Hin; simpl in *.
  - destruct Hin.
  - inversion Hnd as [|x l Hq Hrest]; subst.
    destruct (calculate_checksum sha256 note) as [digest|] eqn:Esum;
      [|discriminate].
    destruct Hin as [Heq|Hin].
    + inversion Heq; subst. simpl in Esum. inversion Esum; subst.
      repeat split_match_in H;
        (eapply scan_notes_other in H; [|exact Hq]); rewrite H;
        rewrite DictFacts.get_set_eq; eauto.
    + repeat split_match_in H; eapply IH; eauto.
Qed.

Lemma scan_notes_only_files old_checksums notes :
  forall checksums new_files modified_files checksums' new_files'
         modified_files' p name entries,
    scan_notes sha256 old_checksums notes checksums new_files modified_files
    = Ok (checksums', new_files', modified_files') ->
    ~ In (p, Dir name entries) notes.
Proof.
  induction notes as [|[q note] rest IH];
    intros c nf mf c' nf' mf' p name entries H Hin; simpl in *; auto.
  destruct (calculate_checksum sha256 note) as [digest|] eqn:Esum;
    [|discriminate].
  destruct Hin as [Heq|Hin].
  - inversion Heq; subst. discriminate.
  - repeat split_match_in H; eapply IH; eauto.
Qed.

Lemma upload_file_keeps_hashes f folder_cache checksums w :
  forall cache' checksums' w' p o,
    upload_file f folder_cache checksums w = (Ok (cache', checksums'), w') ->
    Dict.get checksums p = Some o ->
    exists o', Dict.get checksums' p = Some o' /\ checksum o' = checksum o.
Proof.
  unfold upload_file. intros cache' c' w' p o H Hget.
  repeat (split_match_in H; try discriminate).
  inversion H; subst.
  destruct (String.eqb_spec f p) as [->|Hne].
  - rewrite DictFacts.get_set_eq. eexists. split; [reflexivity|].
    simpl. congruence.
  - rewrite DictFacts.get_set_ne by auto. eauto.
Qed.

Lemma upload_files_keep_hashes files :
  forall folder_cache checksums w checksums' w' p o,
    upload_files files folder_cache checksums w = (Ok checksums', w') ->
    Dict.get checksums p = Some o ->
    exists o', Dict.get checksums' p = Some o' /\ checksum o' = checksum o.
Proof.
  induction files as [|f rest IH]; intros fc c w c' w' p o H Hget;
    simpl in H.
  - inversion H; subst. eauto.
  - destruct (upload_file f fc c w) as [[[cache1 c1]|] w1] eqn:E;
      [|discriminate].
    edestruct upload_file_keeps_hashes as [o1 [H1 Hs1]];
      [exact E | exact Hget |].
    destruct (IH _ _ _ _ _ _ _ H H1) as [o' [H' Hs']].
    exists o'. split; auto. congruence.
Qed.

(** What a push that returns leaves: the machine it found, or a manifest
    that agrees with the vault. *)
Lemma push_returned w :
  NoDup (map fst (get_all_notes w)) ->
  fst (sync_to_google_drive sha256 w) = Returned ->
  snd (sync_to_google_drive sha256 w) = w \/
  agrees_with_vault sha256
    (load_checksums (snd (sync_to_google_drive sha256 w)))
    (get_all_notes w).
Proof.
  intros Hnd. unfold sync_to_google_drive.
  destruct (get_google_drive_service w); auto.
  destruct (scan_notes _ _ _ _ _ _) as [[[nc new_files] modified_files]|]
    eqn:Escan; auto.
  destruct (is_nil new_files && is_nil modified_files && is_nil _); auto.
  destruct (upload_files _ _ _ _) as [[c1|] w1] eqn:Eup; [|discriminate].
  destruct (delete_remote_files _ _ _) as [[[]|] w2]; [|discriminate].
  intros _. right. simpl. split.
  - intros p note Hin.
    destruct note as [name data mtime|name entries].
    + edestruct scan_notes_entries as [o [Hget Hsum]];
        [exact Hnd | exact Escan | exact Hin |].
      edestruct upload_files_keep_hashes as [o' [Hget' Hsum']];
        [exact Eup | exact Hget |].
      exists name, data, mtime, o'. repeat split; auto. congruence.
    + exfalso. eapply scan_notes_only_files; eauto.
  - intros p Hp.
    pose proof (scan_notes_keys sha256 _ _ _ _ _ Escan p) as [Hkeys _].
    destruct (Dict.get nc p) as [o|] eqn:Hget.
    + apply DictFacts.get_some_in_keys, Hkeys in Hget. simpl in Hget. tauto.
    + eapply upload_files_keeps_absent in Hget; [|exact Eup].
      apply DictFacts.get_none_not_in_keys in Hget. tauto.
Qed.
End PushTwice.

(** X10.  Push is idempotent.  When a push returns, on a vault whose
    notes have distinct paths, a second push run right after it
    classifies nothing: it sends no request to Drive, writes nothing and
    returns the machine as the first run left it. *)
Theorem push_twice_does_nothing_more :
  forall (sha256 : string -> string) (w : world),
    NoDup (map fst (get_all_notes w)) ->
    fst (sync_to_google_drive sha256 w) = Returned ->
    sync_to_google_drive sha256 (snd (sync_to_google_drive sha256 w))
    = (Returned, snd (sync_to_google_drive sha256 w)).
Proof.
  intros sha256 w Hnd Hret.
  destruct (push_returned sha256 w Hnd Hret) as [Hsame|Hagree].
  - rewrite Hsame.
    destruct (sync_to_google_drive sha256 w) as [o w']. simpl in *.
    congruence.
  - apply push_without_changes. unfold get_all_notes.
    rewrite sync_to_google_drive_vault. exact Hagree.
Qed.

Section Initialize.
Variable sha256 : string -> string.

Lemma initialize_other notes q :
  forall checksums checksums',
    initialize sha256 notes checksums = Ok checksums' ->
    ~ In q (map fst notes) ->
    Dict.get checksums' q = Dict.get checksums q.
Proof.
  induction notes as [|[p note] rest IH]; intros c c' H Hq; simpl in *.
  - now inversion H.
  - destruct (calculate_checksum sha256 note) as [digest|]; [|discriminate].
    eapply IH in H; [|tauto]. rewrite H.
    apply DictFacts.get_set_ne. tauto.
Qed.

Lemma initialize_agrees notes :
  NoDup (map fst notes) ->
  forall checksums checksums',
    initialize sha256 notes checksums = Ok checksums' ->
    (forall p note,
        In (p, note) notes ->
        exists name data mtime o,
          note = File name data mtime /\
          Dict.get checksums' p = Some o /\ checksum o = sha256 data) /\
    (forall p, In p (Dict.keys checksums') ->
               In p (Dict.keys checksums) \/ In p (map fst notes)).
Proof.
  induction notes as [|[q note] rest IH]; intros Hnd c c' H; simpl in *.
  - inversion H; subst. split; [tauto | auto].
  - inversion Hnd as [|x l Hq Hrest]; subst.
    destruct (calculate_checksum sha256 note) as [digest|] eqn:Esum;
      [|discriminate].
    destruct (IH Hrest _ _ H) as [Hsame Hkeys]. split.
    + intros p n [Heq|Hin]; [|eauto].
      inversion Heq; subst.
      destruct n as [name data mtime|name entries]; [|discriminate].
      simpl in Esum. inversion Esum; subst.
      eapply initialize_other in H; [|exact Hq].
      rewrite DictFacts.get_set_eq in H.
      exists name, data, mtime. eexists. repeat split; eauto.
    + intros p Hp. apply Hkeys in Hp. rewrite DictFacts.keys_set in Hp.
      intuition.
Qed.
End Initialize.

(** X11.  [--init] records every note of the vault as already synced.
    When its scan succeeds, on a vault whose notes have distinct paths,
    it exits with status 0 having written a manifest that agrees with
    the vault, and the push that follows finds no change: it uploads
    none of the notes and returns the machine as [--init] left it. *)
Theorem push_after_init_uploads_nothing :
  forall (sha256 : string -> string) (w : world) (checksums : dict entry),
    NoDup (map fst (get_all_notes w)) ->
    initialize sha256 (get_all_notes w) (Dict.empty entry) = Ok checksums ->
    push_main sha256 init_only w = (0, save_checksums checksums w) /\
    agrees_with_vault sha256 checksums (get_all_notes w) /\
    push_main sha256 no_args (save_checksums checksums w)
    = (0, save_checksums checksums w).
Proof.
  intros sha256 w c Hnd Hinit.
  edestruct initialize_agrees as [Hsame Hkeys]; [exact Hnd | exact Hinit |].
  assert (Hagree : agrees_with_vault sha256 c (get_all_notes w)).
  { split; auto. intros p Hp. apply Hkeys in Hp. simpl in Hp. tauto. }
  split; [|split; auto].
  - unfold push_main. simpl. now rewrite Hinit.
  - unfold push_main. simpl.
    rewrite push_without_changes; auto.
Qed.

(** ** Failures inside a pull *)

Lemma get_del_other {V : Type} (d d' : dict V) (k q : string) :
  Dict.del d k = Some d' -> k <> q -> Dict.get d' q = Dict.get d q.
Proof.
  revert d'. induction d as [|[k0 v0] r IH]; intros d' H Hne; simpl in *.
  - discriminate.
  - destruct (String.eqb_spec k0 k) as [->|Hk].
    + inversion H; subst.
      apply String.eqb_neq in Hne. now rewrite Hne.
    + destruct (Dict.del r k) as [r'|]; [|discriminate].
      inversion H; subst. simpl.
      destruct (k0 =? q); auto.
Qed.

Section PullFailures.
Variable sha256 : string -> string.

Lemma download_file_needs_media svc file_id local_path w :
  get_media svc file_id = Raise ->
  fst (download_file svc file_id local_path w) = Raise.
Proof.
  intros H. unfold download_file. rewrite H.
  destruct (mkdir_p _ _); reflexivity.
Qed.

Lemma download_files_skip_failed svc drive_files f info :
  Dict.get drive_files f = Some info ->
  get_media svc (id info) = Raise ->
  forall files local_checksums w checksums,
    fst (download_files sha256 svc drive_files files local_checksums w)
    = Ok checksums ->
    Dict.get checksums f = Dict.get local_checksums f.
Proof.
  intros Hinfo Hfail files.
  induction files as [|g rest IH]; intros lc w c H; simpl in H.
  - now inversion H.
  - destruct (Dict.get drive_files g) as [info_g|] eqn:Hg; [|discriminate].
    destruct (String.eqb_spec g f) as [->|Hne].
    + rewrite Hinfo in Hg. inversion Hg; subst info_g.
      pose proof (@download_file_needs_media svc (id info) f
                    (record w (Download f)) Hfail) as Hraise.
      destruct (download_file svc (id info) f (record w (Download f)))
        as [[[]|] w1]; simpl in Hraise; [discriminate|].
      eapply IH; eauto.
    + destruct (download_file svc (id info_g) g (record w (Download g)))
        as [[[]|] w1]; [|eapply IH; eauto].
      destruct (lookup_path (parts g) (vault w1)) as [[n d m|n es]|];
        try (eapply IH; now eauto).
      erewrite IH; [|exact H]. now apply DictFacts.get_set_ne.
Qed.

Lemma delete_local_files_other files f :
  ~ In f files ->
  forall local_checksums w,
    Dict.get (fst (delete_local_files files local_checksums w)) f
    = Dict.get local_checksums f.
Proof.
  induction files as [|g rest IH]; intros Hnot lc w; simpl in *; auto.
  assert (Hne : g <> f) by tauto.
  assert (Hrest : ~ In f rest) by tauto.
  destruct (path_exists (vault w) g).
  - destruct (unlink _ _) as [v'|]; [|now apply IH].
    destruct (Dict.del lc g) as [c|] eqn:Hdel; rewrite IH; auto.
    eapply get_del_other; eauto.
  - destruct (Dict.del lc g) as [c|] eqn:Hdel; rewrite IH; auto.
    eapply get_del_other; eauto.
Qed.

Variable lower : string -> string.

Lemma pull_skips_failed_download w svc drive_files f info :
  get_google_drive_service w = Some svc ->
  list_drive_files (recursion_limit w) svc DRIVE_FOLDER_ID "" = Ok drive_files ->
  Dict.get drive_files f = Some info ->
  get_media svc (id info) = Raise ->
  fst (pull_from_google_drive sha256 lower false w) = Returned /\
  Dict.get (load_checksums (snd (pull_from_google_drive sha256 lower
        false w))) f
  = Dict.get (load_checksums w) f /\
  forall g,
    In g (fst (classify_drive_files (load_checksums w) (vault w)
                 drive_files [] []) ++
          snd (classify_drive_files (load_checksums w) (vault w)
                 drive_files [] [])) ->
    In (Download g) (trace (snd (pull_from_google_drive sha256 lower false w))).
Proof.
  intros Hsvc Hscan Hinfo Hfail.
  pose proof (@classify_within sha256 (load_checksums w) (vault w)
                drive_files [] []) as Hwithin.
  unfold pull_from_google_drive. rewrite Hsvc, Hscan.
  destruct (classify_drive_files (load_checksums w) (vault w) drive_files
              [] []) as [new_files modified_files].
  simpl in Hwithin. simpl fst. simpl snd.
  destruct (is_nil new_files && is_nil modified_files &&
            is_nil (files_deleted_from_drive (load_checksums w) drive_files))
    eqn:Enil.
  { simpl. repeat split; auto. intros g Hg.
    destruct new_files; [|discriminate].
    destruct modified_files; [destruct Hg | discriminate]. }
  destruct (@download_files_logs sha256 svc drive_files
              (new_files ++ modified_files))
    with (local_checksums := load_checksums w) (w := w)
    as [[c1 Hok] Hlog].
  { intros g Hg. apply Hwithin in Hg. simpl in Hg. tauto. }
  pose proof (@download_files_skip_failed svc drive_files f info Hinfo Hfail
                (new_files ++ modified_files) (load_checksums w) w c1 Hok)
    as Hkept.
  destruct (download_files sha256 svc drive_files
              (new_files ++ modified_files) (load_checksums w) w)
    as [r1 w1].
  simpl in Hok, Hlog. subst r1.
  assert (Hnot : ~ In f (files_deleted_from_drive (load_checksums w)
                           drive_files)).
  { unfold files_deleted_from_drive. rewrite filter_In.
    unfold Dict.mem. rewrite Hinfo. simpl. intros [_ H]. discriminate. }
  pose proof (@delete_local_files_other
                (files_deleted_from_drive (load_checksums w) drive_files)
                f Hnot c1 w1) as Hdel.
  pose proof (delete_local_files_trace
                (files_deleted_from_drive (load_checksums w) drive_files)
                c1 w1) as [ds [Hds _]].
  destruct (delete_local_files _ _ _) as [c2 w2]. simpl in Hdel, Hds.
  split; [reflexivity|]. split.
  - change (Dict.get c2 f = Dict.get (load_checksums w) f).
    now rewrite Hdel.
  - intros g Hg.
    assert (Hin : In (Download g) (trace w2))
      by (rewrite Hds; apply in_app_iff; left; now apply Hlog).
    destruct (is_nil (files_deleted_from_drive (load_checksums w)
                        drive_files)); exact Hin.
Qed.
End PullFailures.

(** X12.  Pull isolates a failed download.  When Drive fails to send
    the bytes of a listed file, the run still returns, it still attempts
    the download of every other path it classified, and the manifest
    entry of the failed path is what it was before the run, so that the
    next run classifies the path again. *)
Theorem pull_isolates_a_failed_download :
  forall (sha256 lower : string -> string) (w : world) (svc : service)
         (drive_files : dict drive_info) (f : string) (info : drive_info),
    get_google_drive_service w = Some svc ->
    list_drive_files (recursion_limit w) svc DRIVE_FOLDER_ID ""
    = Ok drive_files ->
    Dict.get drive_files f = Some info ->
    get_media svc (id info) = Raise ->
    fst (pull_from_google_drive sha256 lower false w) = Returned /\
    Dict.get (load_checksums (snd (pull_from_google_drive sha256 lower
          false w))) f
    = Dict.get (load_checksums w) f /\
    forall g,
      In g (fst (classify_drive_files (load_checksums w) (vault w)
                   drive_files [] []) ++
            snd (classify_drive_files (load_checksums w) (vault w)
                   drive_files [] [])) ->
      In (Download g) (trace (snd (pull_from_google_drive sha256 lower
            false w))).
Proof.
  intros sha256 lower w svc drive_files f info Hsvc Hscan Hinfo Hfail.
  now apply pull_skips_failed_download with (svc := svc) (info := info).
Qed.

(** ** The entries of the remote scan *)

Section DictEntries.
Variable V : Type.
Implicit Types (d : dict V) (k : string) (v : V).

Lemma get_in d k v : Dict.get d k = Some v -> In (k, v) d.
Proof.
  induction d as [|[k0 v0] r IH]; simpl; [discriminate|].
  destruct (String.eqb_spec k0 k) as [->|Hne].
  - intros H. inversion H. auto.
  - auto.
Qed.

Lemma in_set d k0 v0 k v :
  In (k, v) (Dict.set d k0 v0) -> (k, v) = (k0, v0) \/ In (k, v) d.
Proof.
  induction d as [|[k1 v1] r IH]; simpl.
  - intros [H|[]]. auto.
  - destruct (String.eqb_spec k1 k0) as [->|Hne]; simpl.
    + intros [H|H]; auto.
    + intros [H|H]; auto. apply IH in H. tauto.
Qed.

Lemma in_update d other k v :
  In (k, v) (Dict.update d other) -> In (k, v) d \/ In (k, v) other.
Proof.
  unfold Dict.update. revert d.
  induction other as [|[k0 v0] r IH]; intros d H; simpl in *; auto.
  apply IH in H. destruct H as [H|H]; [|auto].
  apply in_set in H. destruct H as [H|H]; [|auto].
  inversion H; subst. auto.
Qed.

Lemma keys_of_set d k v :
  Dict.keys (Dict.set d k v) =
  if Dict.mem k d then Dict.keys d else (Dict.keys d ++ [k])%list.
Proof.
  unfold Dict.mem. induction d as [|[k0 v0] r IH]; simpl; auto.
  destruct (String.eqb_spec k0 k) as [->|Hne]; simpl; auto.
  rewrite IH. destruct (Dict.get r k); reflexivity.
Qed.

Lemma set_nodup d k v :
  NoDup (Dict.keys d) -> NoDup (Dict.keys (Dict.set d k v)).
Proof.
  intros H. rewrite keys_of_set.
  destruct (Dict.mem k d) eqn:E; auto.
  assert (Hk : ~ In k (Dict.keys d)).
  { intros Hx. apply DictFacts.mem_true in Hx. congruence. }
  clear E. induction (Dict.keys d) as [|x l IH]; simpl in *.
  - repeat constructor. simpl. tauto.
  - inversion H; subst. constructor.
    + rewrite in_app_iff. simpl. intuition.
    + apply IH; auto.
Qed.

Lemma update_nodup d other :
  NoDup (Dict.keys d) -> NoDup (Dict.keys (Dict.update d other)).
Proof.
  unfold Dict.update. revert d.
  induction other as [|[k0 v0] r IH]; intros d H; simpl; auto.
  apply IH. now apply set_nodup.
Qed.
End DictEntries.

Section ScanEntries.
Variable recurse : string -> string -> result (dict drive_info).
Variable path : string.

Lemma scan_items_raise items :
  fold_left (scan_item recurse path) items Raise = Raise.
Proof. induction items as [|o rest IH]; simpl; auto. Qed.

Lemma scan_items_entries items :
  forall files_dict scanned,
    fold_left (scan_item recurse path) items (Ok files_dict) = Ok scanned ->
    NoDup (Dict.keys files_dict) ->
    NoDup (Dict.keys scanned) /\
    forall k v,
      In (k, v) scanned ->
      In (k, v) files_dict \/
      exists o,
        In o items /\
        ((is_folder o = true /\
          exists subfiles,
            recurse (item_id o) (join path (item_name o)) = Ok subfiles /\
            In (k, v) subfiles) \/
         (matching o /\ k = join path (item_name o) /\ v = info_of o)).
Proof.
  induction items as [|o rest IH]; intros acc res H Hnd; simpl in H.
  - inversion H; subst. auto.
  - destruct (is_folder o) eqn:Efolder.
    + destruct (recurse (item_id o) (join path (item_name o)))
        as [sub|] eqn:Erec;
        [|rewrite scan_items_raise in H; discriminate].
      destruct (IH _ _ H (@update_nodup drive_info acc sub Hnd))
        as [Hres Hin].
      split; auto. intros k v Hk. apply Hin in Hk.
      destruct Hk as [Hk|[o' [Ho' Hc]]].
      * apply in_update in Hk. destruct Hk as [Hk|Hk]; auto.
        right. exists o. split; [now left|]. left. eauto.
      * right. exists o'. split; [now right | exact Hc].
    + destruct (recognized (item_name o)) eqn:Erec.
      * destruct (IH _ _ H
                    (@set_nodup drive_info acc (join path (item_name o))
                       {| id := item_id o;
                          modified_in_drive := modifiedTime o |} Hnd))
          as [Hres Hin].
        split; auto. intros k v Hk. apply Hin in Hk.
        destruct Hk as [Hk|[o' [Ho' Hc]]].
        -- apply in_set in Hk. destruct Hk as [Hk|Hk]; auto.
           inversion Hk; subst. right. exists o. split; [now left|].
           right. repeat split; auto.
        -- right. exists o'. split; [now right | exact Hc].
      * destruct (IH _ _ H Hnd) as [Hres Hin].
        split; auto. intros k v Hk. apply Hin in Hk.
        destruct Hk as [Hk|[o' [Ho' Hc]]]; auto.
        right. exists o'. split; [now right | exact Hc].
Qed.
End ScanEntries.

Lemma list_drive_files_entries svc :
  forall depth folder_id path files_dict,
    list_drive_files depth svc folder_id path = Ok files_dict ->
    NoDup (Dict.keys files_dict) /\
    forall k v,
      In (k, v) files_dict ->
      exists o,
        reaches (first_page svc) folder_id path o k /\
        matching o /\ v = info_of o.
Proof.
  induction depth as [|depth IH]; intros folder_id path fd H; simpl in H;
    [discriminate|].
  unfold list_page in H.
  destruct (faulty svc (ListRequest folder_id)); [discriminate|].
  fold (first_page svc folder_id) in H.
  edestruct scan_items_entries as [Hnd Hin]; [exact H | constructor |].
  split; auto. intros k v Hk. apply Hin in Hk.
  destruct Hk as [[]|[o [Ho [[Hf [sub [Hrec Hsub]]]|[Hm [-> ->]]]]]].
  - destruct (IH _ _ _ Hrec) as [_ Hdeep].
    destruct (Hdeep k v Hsub) as [o' [Hreach Hrest]].
    exists o'. split; auto. eapply reaches_below; eauto.
  - exists o. split; auto. now apply reaches_child.
Qed.

(** X13.  Whatever the remote scan returns is well formed and comes from
    Drive: the map has one entry for a path, and every entry gives the
    id and the modification time of a file with a recognized extension
    that lies, through the listed folders, at that path below the
    scanned folder.  Folders and files with other extensions never give
    an entry. *)
Theorem remote_scan_entries_come_from_drive :
  forall (svc : service) (depth : nat) (folder_id path : string)
         (files_dict : dict drive_info),
    list_drive_files depth svc folder_id path = Ok files_dict ->
    NoDup (Dict.keys files_dict) /\
    forall file_path info,
      Dict.get files_dict file_path = Some info ->
      exists o,
        reaches (first_page svc) folder_id path o file_path /\
        is_folder o = false /\
        recognized (item_name o) = true /\
        id info = item_id o /\
        modified_in_drive info = modifiedTime o.
Proof.
  intros svc depth folder_id path fd H.
  edestruct list_drive_files_entries as [Hnd Hin]; [exact H|].
  split; auto. intros k info Hget.
  apply get_in in Hget. destruct (Hin k info Hget) as [o [Hr [[Hf Hrec] ->]]].
  exists o. repeat split; auto.
Qed.

(** ** More on the compactor *)

Section CompactorPasses.
Variable lower : string -> string.

Lemma cleanup_item_files f :
  is_dir f = false ->
  forall x, inside f (cleanup_item lower x) <-> inside f [x].
Proof.
  intros Hf x.
  induction x as [n d m|n es IH] using node_induction.
  - simpl. tauto.
  - assert (Hes : inside f (cleanup_empty_folders lower es) <-> inside f es).
    { unfold cleanup_empty_folders. rewrite inside_flat_map.
      rewrite Forall_forall in IH. split.
      - intros [y [Hy H]]. apply IH in H; auto.
        eapply inside_member; eauto.
      - intros H. apply inside_some_member in H.
        destruct H as [y [Hy H]]. exists y. split; auto. now apply IH. }
    assert (Hone : forall l, inside f [Dir n l] <-> inside f l).
    { intros l. rewrite inside_one. split.
      - intros [->|[n' [sub [Heq H]]]]; [discriminate|].
        inversion Heq; subst. exact H.
      - intros H. right. eauto. }
    rewrite Hone, <- Hes, cleanup_item_unfold.
    destruct (cleanup_empty_folders lower es) as [|y r] eqn:E; simpl.
    + destruct (preserved lower n); simpl; [apply Hone | tauto].
    + apply Hone.
Qed.

Lemma cleanup_item_twice x :
  flat_map (cleanup_item lower) (cleanup_item lower x) = cleanup_item lower x.
Proof.
  induction x as [n d m|n es IH] using node_induction.
  - reflexivity.
  - assert (Hes : cleanup_empty_folders lower (cleanup_empty_folders lower es)
                  = cleanup_empty_folders lower es).
    { unfold cleanup_empty_folders.
      clear n. induction es as [|y r IHr]; simpl; auto.
      inversion IH as [|y' r' Hy Hr]; subst.
      rewrite flat_map_app, Hy, IHr by assumption. reflexivity. }
    rewrite cleanup_item_unfold.
    destruct (is_nil (cleanup_empty_folders lower es)
              && negb (preserved lower n))
      eqn:E; [reflexivity|].
    simpl. fold (cleanup_empty_folders lower (cleanup_empty_folders lower es)).
    rewrite Hes, E, app_nil_r. reflexivity.
Qed.
End CompactorPasses.

(** X14.  The compactor never removes a regular file: the files at any
    depth below the directory it is given are the same before and after
    the pass.  So a directory with a file anywhere below it is never
    removed. *)
Theorem compactor_keeps_every_file :
  forall (lower : string -> string) (root : list node) (name data : string)
         (mtime : nat),
    inside (File name data mtime) (cleanup_empty_folders lower root) <->
    inside (File name data mtime) root.
Proof.
  intros lower root name data mtime. unfold cleanup_empty_folders.
  rewrite inside_flat_map. split.
  - intros [y [Hy H]]. apply cleanup_item_files in H; auto.
    eapply inside_member; eauto.
  - intros H. apply inside_some_member in H. destruct H as [y [Hy H]].
    exists y. split; auto. now apply cleanup_item_files.
Qed.

(** X15.  One pass of the compactor is enough: a second pass right after
    it removes nothing, because the first leaves no empty directory
    behind but those whose lowercase name, as [str.lower] gives it, is
    in the preserve set. *)
Theorem compactor_is_idempotent :
  forall (lower : string -> string) (root : list node),
    cleanup_empty_folders lower (cleanup_empty_folders lower root)
    = cleanup_empty_folders lower root /\
    forall name,
      inside (Dir name []) (cleanup_empty_folders lower root) ->
      In (lower name) PRESERVE_FOLDERS.
Proof.
  intros lower root. split.
  - unfold cleanup_empty_folders.
    induction root as [|x r IH]; simpl; auto.
    rewrite flat_map_app, IH, cleanup_item_twice. reflexivity.
  - intros name H. unfold cleanup_empty_folders in H.
    apply inside_flat_map in H. destruct H as [y [Hy H]].
    apply survivors_were_visited in H.
    destruct H as [entries [_ [Hrem Hs]]].
    unfold survives in Hs.
    destruct (in_dec string_dec (lower name) PRESERVE_FOLDERS) as [Hin|Hout];
      auto.
    exfalso. apply Hs. auto.
Qed.

(** ** Remote folders *)

Lemma children_after_create svc o folder_id :
  in_folder folder_id o = true ->
  children (with_objects svc (objects svc ++ [o])) folder_id
  = (children svc folder_id ++ [o])%list.
Proof.
  intros H. unfold children. simpl. rewrite filter_app. simpl.
  now rewrite H.
Qed.

(** X16.  [get_or_create_folder] creates a folder once.  When it returns
    a folder id, Drive has a folder of that name under that parent with
    that id, and a second call with the same name and parent returns
    the same id and creates nothing. *)
Theorem get_or_create_folder_creates_once :
  forall (svc svc' : service) (folder_name parent_folder_id folder : string),
    get_or_create_folder svc folder_name parent_folder_id = Ok (folder, svc') ->
    get_or_create_folder svc' folder_name parent_folder_id = Ok (folder, svc') /\
    exists o,
      In o (children svc' parent_folder_id) /\
      item_id o = folder /\ item_name o = folder_name /\ is_folder o = true.
Proof.
  intros svc svc' name parent_id folder. unfold get_or_create_folder.
  destruct (faulty svc (FindFolderRequest name parent_id)) eqn:Efind;
    [discriminate|].
  destruct (filter _ (children svc parent_id)) as [|o rest] eqn:Efilter.
  - unfold create.
    destruct (faulty svc (CreateRequest name parent_id FOLDER_MIME));
      [discriminate|].
    intros H. inversion H; subst. simpl faulty. rewrite Efind.
    rewrite children_after_create
      by (unfold in_folder; simpl; now rewrite String.eqb_refl).
    rewrite filter_app, Efilter. simpl.
    unfold is_folder at 1. simpl. rewrite !String.eqb_refl. simpl.
    split; [reflexivity|].
    eexists. split; [apply in_app_iff; right; left; reflexivity|].
    repeat split.
  - intros H. inversion H; subst. rewrite Efind, Efilter.
    split; [reflexivity|].
    assert (Hin : In o (filter
                          (fun o => (item_name o =? name) && is_folder o)
                          (children svc' parent_id)))
      by (rewrite Efilter; now left).
    apply filter_In in Hin. destruct Hin as [Hin Hok].
    apply andb_true_iff in Hok. destruct Hok as [Hname Hfolder].
    apply String.eqb_eq in Hname. exists o. auto.
Qed.

Lemma folder_structure_step folder_parts i folder_name rest svc
    folder_cache parent_id :
  folder_structure folder_parts ((i, folder_name) :: rest) svc
                   folder_cache parent_id
  = match Dict.get folder_cache
            (String.concat "/" (firstn (S i) folder_parts)) with
    | Some cached =>
        folder_structure folder_parts rest svc folder_cache cached
    | None =>
        match get_or_create_folder svc folder_name parent_id with
        | Raise => (Raise, svc)
        | Ok (folder, svc') =>
            folder_structure folder_parts rest svc'
              (Dict.set folder_cache
                 (String.concat "/" (firstn (S i) folder_parts)) folder)
              folder
        end
    end.
Proof. reflexivity. Qed.

Lemma folder_structure_memo folder_parts todo :
  forall svc folder_cache parent_id folder cache1 svc1,
    folder_structure folder_parts todo svc folder_cache parent_id
    = (Ok (folder, cache1), svc1) ->
    extends cache1 folder_cache /\
    forall cache2 svc2,
      extends cache2 cache1 ->
      folder_structure folder_parts todo svc2 cache2 parent_id
      = (Ok (folder, cache2), svc2).
Proof.
  induction todo as [|[i folder_name] rest IH];
    intros svc fc parent_id folder cache1 svc1 H.
  - simpl in H. inversion H; subst.
    split; [intros k v Hk; exact Hk | reflexivity].
  - rewrite folder_structure_step in H.
    remember (String.concat "/" (firstn (S i) folder_parts)) as key.
    destruct (Dict.get fc key) as [cached|] eqn:Ecache.
    + destruct (IH _ _ _ _ _ _ H) as [Hext Hagain]. split; auto.
      intros cache2 svc2 H2. rewrite folder_structure_step, <- Heqkey.
      rewrite (H2 _ _ (Hext _ _ Ecache)). now apply Hagain.
    + destruct (get_or_create_folder svc folder_name parent_id)
        as [[created svc']|]; [|discriminate].
      destruct (IH _ _ _ _ _ _ H) as [Hext Hagain].
      assert (Hkey : Dict.get cache1 key = Some created)
        by (apply Hext, DictFacts.get_set_eq).
      split.
      * intros k v Hk. apply Hext.
        rewrite DictFacts.get_set_ne; auto. congruence.
      * intros cache2 svc2 H2. rewrite folder_structure_step, <- Heqkey.
        rewrite (H2 _ _ Hkey). now apply Hagain.
Qed.

(** X17.  The folder cache of a push resolves a directory once.  After
    the folders of a directory path have been resolved, be it through the
    cache or through Drive, resolving the same path again with the cache
    as it is then, or as later files have extended it, sends no request:
    it gives the same folder id even when Drive is unreachable, and
    leaves the cache and the service as they are. *)
Theorem folder_cache_resolves_a_directory_once :
  forall (folder_parts : list string) (svc svc1 : service)
         (folder_cache cache1 : dict string) (folder : string),
    folder_structure folder_parts (enumerate folder_parts) svc
                     folder_cache DRIVE_FOLDER_ID
    = (Ok (folder, cache1), svc1) ->
    extends cache1 folder_cache /\
    forall cache2 svc2,
      extends cache2 cache1 ->
      folder_structure folder_parts (enumerate folder_parts)
                       (unreachable svc2) cache2 DRIVE_FOLDER_ID
      = (Ok (folder, cache2), unreachable svc2).
Proof.
  intros folder_parts svc svc1 fc cache1 folder H.
  destruct (folder_structure_memo _ _ _ _ _ H) as [Hext Hagain].
  split; auto.
Qed.

(** ** What a download writes *)

Lemma find_put_entry n entries :
  find_entry (node_name n) (put_entry n entries) = Some n.
Proof.
  induction entries as [|x r IH]; simpl.
  - now rewrite String.eqb_refl.
  - destruct (node_name x =? node_name n) eqn:E; simpl.
    + now rewrite String.eqb_refl.
    + now rewrite E.
Qed.

Lemma write_file_then_lookup p data now :
  forall entries entries',
    write_file p data now entries = Some entries' ->
    lookup_path p entries' = Some (File (last p "") data now).
Proof.
  induction p as [|name rest IH]; intros entries entries' H;
    [discriminate|].
  destruct rest as [|next rest'].
  - simpl in H.
    destruct (find_entry name entries) as [[n d m|n es]|];
      inversion H; subst; simpl;
      rewrite (find_put_entry (File name data now)); reflexivity.
  - change (write_file (name :: next :: rest') data now entries)
      with (match find_entry name entries with
            | Some (Dir _ sub) =>
                match write_file (next :: rest') data now sub with
                | Some sub' => Some (put_entry (Dir name sub') entries)
                | None => None
                end
            | _ => None
            end) in H.
    destruct (find_entry name entries) as [[n d m|n sub]|];
      try discriminate.
    destruct (write_file (next :: rest') data now sub) as [sub'|] eqn:E;
      [|discriminate].
    inversion H; subst.
    change (lookup_path (name :: next :: rest')
              (put_entry (Dir name sub') entries))
      with (match find_entry name (put_entry (Dir name sub') entries) with
            | Some (Dir _ s) => lookup_path (next :: rest') s
            | _ => None
            end).
    rewrite (find_put_entry (Dir name sub')).
    eapply IH. exact E.
Qed.

(** X18.  A download that succeeds leaves, at the local path, a regular
    file that holds exactly the bytes Drive sent for the object: it is
    there whether the path was free, held an older file, or lacked its
    parent directories. *)
Theorem download_file_writes_the_media :
  forall (svc : service) (file_id local_path : string) (w w' : world),
    download_file svc file_id local_path w = (Ok tt, w') ->
    exists data,
      get_media svc file_id = Ok data /\
      lookup_path (parts local_path) (vault w')
      = Some (File (last (parts local_path) "") data (clock w)) /\
      path_exists (vault w') local_path = true.
Proof.
  intros svc file_id local_path w w'. unfold download_file.
  destruct (mkdir_p _ _) as [v1|]; [|discriminate].
  destruct (get_media svc file_id) as [data|]; [|discriminate].
  destruct (write_file _ _ _ _) as [v2|] eqn:Ewrite; [|discriminate].
  intros H. inversion H; subst. exists data. simpl.
  apply write_file_then_lookup in Ewrite.
  split; [reflexivity|]. split; [exact Ewrite|].
  unfold path_exists. revert Ewrite.
  destruct (parts local_path) as [|a l]; intros Ewrite; [reflexivity|].
  now rewrite Ewrite.
Qed.

(** ** The requests of a run, one by one *)

Section ExactTraces.
Variable sha256 : string -> string.

Lemma upload_file_event f folder_cache checksums w :
  forall cache' checksums' w',
    upload_file f folder_cache checksums w = (Ok (cache', checksums'), w') ->
    trace w' = (trace w ++ [Upload f])%list.
Proof.
  unfold upload_file. intros cache' c' w' H.
  repeat (split_match_in H; try discriminate).
  inversion H; subst. reflexivity.
Qed.

Lemma upload_files_events files :
  forall folder_cache checksums w checksums' w',
    upload_files files folder_cache checksums w = (Ok checksums', w') ->
    trace w' = (trace w ++ map Upload files)%list.
Proof.
  induction files as [|f rest IH]; intros fc c w c' w' H; simpl in H.
  - inversion H; subst. simpl. now rewrite app_nil_r.
  - destruct (upload_file f fc c w) as [[[cache1 c1]|] w1] eqn:E;
      [|discriminate].
    apply upload_file_event in E. apply IH in H.
    rewrite H, E, <- app_assoc. reflexivity.
Qed.

Lemma delete_remote_files_events old_checksums files :
  forall w w',
    delete_remote_files old_checksums files w = (Ok tt, w') ->
    trace w' = (trace w ++ remote_deletes old_checksums files)%list.
Proof.
  induction files as [|f rest IH]; intros w w' H; simpl in H.
  - inversion H; subst. simpl. now rewrite app_nil_r.
  - unfold remote_deletes. simpl. fold (remote_deletes old_checksums rest).
    destruct (Dict.get old_checksums f) as [e|]; [|discriminate].
    destruct (drive_id e) as [i|];
      [|simpl; now apply IH].
    destruct (truthy (Some i)); [|simpl; now apply IH].
    destruct (delete_from_drive _ i) as [svc|]; apply IH in H;
      rewrite H; simpl; rewrite <- app_assoc; reflexivity.
Qed.

Lemma download_files_events svc drive_files files :
  forall local_checksums w checksums w',
    download_files sha256 svc drive_files files local_checksums w
    = (Ok checksums, w') ->
    trace w' = (trace w ++ map Download files)%list.
Proof.
  induction files as [|f rest IH]; intros lc w c w' H; simpl in H.
  - inversion H; subst. simpl. now rewrite app_nil_r.
  - destruct (Dict.get drive_files f) as [info|]; [|discriminate].
    pose proof (download_file_trace svc (id info) f (record w (Download f)))
      as Ht.
    destruct (download_file svc (id info) f (record w (Download f)))
      as [r w1]. simpl in Ht.
    assert (Hgo : forall c0,
              download_files sha256 svc drive_files rest c0 w1 = (Ok c, w') ->
              trace w' = (trace w ++ Download f :: map Download rest)%list).
    { intros c0 H0. apply IH in H0. rewrite H0, Ht. simpl.
      rewrite <- app_assoc. reflexivity. }
    repeat split_match_in H; eapply Hgo; eauto.
Qed.
End ExactTraces.

(** X19.  A push that returns has sent, in this order and nothing else:
    one upload for each note it classified as new, one for each it
    classified as modified, and one delete request for each path it
    classified as deleted whose manifest entry has a remote id. *)
Theorem push_sends_each_classified_action_once :
  forall (sha256 : string -> string) (w : world)
         (new_checksums : dict entry) (new_files modified_files : list string),
    get_google_drive_service w <> None ->
    scan_notes sha256 (load_checksums w) (get_all_notes w)
               (Dict.empty entry) [] []
    = Ok (new_checksums, new_files, modified_files) ->
    fst (sync_to_google_drive sha256 w) = Returned ->
    trace (snd (sync_to_google_drive sha256 w))
    = (trace w ++ map Upload (new_files ++ modified_files) ++
       remote_deletes (load_checksums w)
         (files_deleted_locally (load_checksums w) new_checksums))%list.
Proof.
  intros sha256 w nc nf mf Hsvc Hscan. unfold sync_to_google_drive.
  destruct (get_google_drive_service w); [|congruence].
  rewrite Hscan.
  destruct (is_nil nf && is_nil mf &&
            is_nil (files_deleted_locally (load_checksums w) nc)) eqn:Enil.
  - intros _. apply andb_true_iff in Enil. destruct Enil as [Enil Ed].
    apply andb_true_iff in Enil. destruct Enil as [En Em].
    destruct nf; [|discriminate]. destruct mf; [|discriminate].
    destruct (files_deleted_locally (load_checksums w) nc); [|discriminate].
    simpl. now rewrite app_nil_r.
  - destruct (upload_files _ _ _ _) as [[c1|] w1] eqn:Eup; [|discriminate].
    apply upload_files_events in Eup.
    destruct (delete_remote_files _ _ _) as [[[]|] w2] eqn:Edel;
      [|discriminate].
    apply delete_remote_files_events in Edel.
    intros _. simpl. rewrite Edel, Eup, <- app_assoc. reflexivity.
Qed.

(** X20.  A pull that goes past the classification attempts, in this
    order, the download of each path it classified as new and then of
    each it classified as modified, each once and whether or not the
    earlier ones failed; what follows in the trace are local deletes of
    paths it classified as deleted from Drive. *)
Theorem pull_attempts_each_download_once :
  forall (sha256 lower : string -> string) (w : world) (svc : service)
         (drive_files : dict drive_info),
    get_google_drive_service w = Some svc ->
    list_drive_files (recursion_limit w) svc DRIVE_FOLDER_ID ""
    = Ok drive_files ->
    exists deletions,
      trace (snd (pull_from_google_drive sha256 lower false w))
      = (trace w ++
         map Download
           (fst (classify_drive_files (load_checksums w) (vault w)
                   drive_files [] []) ++
            snd (classify_drive_files (load_checksums w) (vault w)
                   drive_files [] [])) ++
         deletions)%list /\
      forall e,
        In e deletions ->
        exists p,
          e = DeleteLocal p /\
          In p (files_deleted_from_drive (load_checksums w) drive_files).
Proof.
  intros sha256 lower w svc df Hsvc Hscan.
  pose proof (@classify_within sha256 (load_checksums w) (vault w) df [] [])
    as Hwithin.
  unfold pull_from_google_drive. rewrite Hsvc, Hscan.
  destruct (classify_drive_files (load_checksums w) (vault w) df [] [])
    as [nf mf]. simpl in Hwithin. simpl fst. simpl snd.
  destruct (is_nil nf && is_nil mf &&
            is_nil (files_deleted_from_drive (load_checksums w) df))
    eqn:Enil.
  { exists []. apply andb_true_iff in Enil. destruct Enil as [Enil _].
    apply andb_true_iff in Enil. destruct Enil as [En Em].
    destruct nf; [|discriminate]. destruct mf; [|discriminate].
    simpl. rewrite app_nil_r. split; [reflexivity | intros e []]. }
  destruct (@download_files_logs sha256 svc df (nf ++ mf))
    with (local_checksums := load_checksums w) (w := w) as [[c1 Hok] _].
  { intros g Hg. apply Hwithin in Hg. simpl in Hg. tauto. }
  destruct (download_files sha256 svc df (nf ++ mf) (load_checksums w) w)
    as [r1 w1] eqn:Edown.
  simpl in Hok. subst r1. apply download_files_events in Edown.
  set (deleted := files_deleted_from_drive (load_checksums w) df).
  assert (Hdel : forall files lc w0,
            exists ds,
              trace (snd (delete_local_files files lc w0))
              = (trace w0 ++ ds)%list /\
              forall e, In e ds -> exists p, e = DeleteLocal p /\ In p files).
  { induction files as [|p rest IH]; intros lc w0; simpl.
    - exists []. rewrite app_nil_r. split; [reflexivity | intros e []].
    - repeat split_match;
        match goal with
        | |- context [delete_local_files rest ?c ?w'] =>
            destruct (IH c w') as [ds [Hds Hall]]
        end;
        try (exists (DeleteLocal p :: ds); split;
             [rewrite Hds; simpl; rewrite <- app_assoc; reflexivity
             | intros e [<-|He]; [eauto | apply Hall in He;
                 destruct He as [q [-> Hq]]; eauto]]);
        exists ds; split; auto;
        intros e He; apply Hall in He;
        destruct He as [q [-> Hq]]; eauto. }
  destruct (Hdel deleted c1 w1) as [ds [Hds Hall]].
  destruct (delete_local_files deleted c1 w1) as [c2 w2]. simpl in Hds.
  exists ds. split; auto.
  assert (Ht : forall w3, trace w3 = trace w2 ->
            trace w3 = (trace w ++ map Download (nf ++ mf) ++ ds)%list).
  { intros w3 ->. rewrite Hds, Edown, <- app_assoc. reflexivity. }
  destruct (is_nil deleted); apply Ht; reflexivity.
Qed.

(** ** [sync.py] *)

(** X21.  [sync.py --dry-run] changes nothing: the pull runs with
    [--dry-run], the push does not run, and the vault, the manifest file
    and Drive are what they were. *)
Theorem sync_dry_run_changes_nothing :
  forall (sha256 lower : string -> string) (w : world),
    snd (sync_main sha256 lower true w) = w.
Proof.
  intros sha256 lower w. unfold sync_main, run_script, pull_main.
  assert (H : snd (pull_from_google_drive sha256 lower true w) = w).
  { unfold pull_from_google_drive. repeat split_match; reflexivity. }
  destruct (pull_from_google_drive sha256 lower true w) as [o w1].
  simpl in H. subst w1.
  destruct (exit_status o =? 0)%nat; reflexivity.
Qed.



(** ** Where the entries of the manifest come from *)

Lemma in_del {V : Type} (d d' : dict V) (k : string) (x : string * V) :
  Dict.del d k = Some d' -> In x d' -> In x d.
Proof.
  revert d'. induction d as [|[k0 v0] r IH]; intros d' H Hin; simpl in *.
  - discriminate.
  - destruct (k0 =? k).
    + inversion H; subst. auto.
    + destruct (Dict.del r k) as [r'|]; [|discriminate].
      inversion H; subst. destruct Hin as [<-|Hin]; eauto.
Qed.

Section ManifestProvenance.
Variable sha256 : string -> string.

Lemma download_file_result svc file_id local_path w w' :
  download_file svc file_id local_path w = (Ok tt, w') ->
  exists data,
    get_media svc file_id = Ok data /\
    lookup_path (parts local_path) (vault w')
    = Some (File (last (parts local_path) "") data (clock w)).
Proof.
  unfold download_file.
  destruct (mkdir_p _ _) as [v1|]; [|discriminate].
  destruct (get_media svc file_id) as [data|]; [|discriminate].
  destruct (write_file _ _ _ _) as [v2|] eqn:Ewrite; [|discriminate].
  intros H. inversion H; subst. exists data. simpl.
  apply write_file_then_lookup in Ewrite. auto.
Qed.

Lemma download_files_provenance svc drive_files files :
  forall local_checksums w checksums p e,
    fst (download_files sha256 svc drive_files files local_checksums w)
    = Ok checksums ->
    In (p, e) checksums ->
    In (p, e) local_checksums \/
    recorded_by_download sha256 svc drive_files p e.
Proof.
  induction files as [|f rest IH]; intros lc w c p e H Hin; simpl in H.
  - inversion H; subst. auto.
  - destruct (Dict.get drive_files f) as [info|] eqn:Hinfo; [|discriminate].
    destruct (download_file svc (id info) f (record w (Download f)))
      as [[[]|] w1] eqn:Edown; [|eapply IH; eauto].
    apply download_file_result in Edown.
    destruct Edown as [data [Hmedia Hlook]]. rewrite Hlook in H.
    eapply IH in H; [|exact Hin].
    destruct H as [H|H]; auto.
    apply in_set in H. destruct H as [H|H]; auto.
    inversion H; subst. right. exists info, data. repeat split; auto.
Qed.

Lemma delete_local_files_provenance files :
  forall local_checksums w x,
    In x (fst (delete_local_files files local_checksums w)) ->
    In x local_checksums.
Proof.
  induction files as [|f rest IH]; intros lc w x H; simpl in H; auto.
  destruct (path_exists (vault w) f).
  - destruct (unlink _ _) as [v'|]; [|eauto].
    destruct (Dict.del lc f) as [c|] eqn:Hdel; [|eauto].
    eapply in_del; eauto.
  - destruct (Dict.del lc f) as [c|] eqn:Hdel; [|eauto].
    eapply in_del; eauto.
Qed.

Variable lower : string -> string.

Lemma pull_manifest_provenance dry_run w svc drive_files p e :
  get_google_drive_service w = Some svc ->
  list_drive_files (recursion_limit w) svc DRIVE_FOLDER_ID "" = Ok drive_files ->
  Dict.get (load_checksums (snd (pull_from_google_drive sha256 lower
        dry_run w))) p
  = Some e ->
  In (p, e) (load_checksums w) \/
  recorded_by_download sha256 svc drive_files p e.
Proof.
  intros Hsvc Hscan. unfold pull_from_google_drive. rewrite Hsvc, Hscan.
  destruct (classify_drive_files _ _ _ _ _) as [nf mf].
  destruct (is_nil nf && is_nil mf && is_nil _);
    [intros H; left; now apply get_in|].
  destruct dry_run; [intros H; left; now apply get_in|].
  pose proof (@download_files_provenance svc drive_files (nf ++ mf)
                (load_checksums w) w) as Hdown.
  pose proof (download_files_frame sha256 svc drive_files (nf ++ mf)
                (load_checksums w) w) as [_ Hframe].
  destruct (download_files _ _ _ _ _ _) as [[c1|] w1]; simpl in Hframe;
    [|intros H; left; apply get_in; simpl in H;
      unfold load_checksums in *; now rewrite Hframe in H].
  pose proof (@delete_local_files_provenance
                (files_deleted_from_drive (load_checksums w) drive_files)
                c1 w1 (p, e)) as Hdel.
  destruct (delete_local_files _ _ _) as [c2 w2]. simpl in Hdel.
  intros H.
  change (Dict.get c2 p = Some e) in H.
  apply get_in, Hdel in H. eapply Hdown; [reflexivity | exact H].
Qed.
End ManifestProvenance.

(** X23.  Pull invents no manifest entry.  Every entry of the manifest
    after a pull is an entry that the manifest had before, or is what
    a successful download records for its path: the id and the
    modification time that the scan reported for the path, with the hash
    of the bytes that Drive sent for that id. *)
Theorem pull_manifest_entries_are_found_or_downloaded :
  forall (sha256 lower : string -> string) (dry_run : bool) (w : world)
         (svc : service) (drive_files : dict drive_info)
         (p : string) (e : entry),
    get_google_drive_service w = Some svc ->
    list_drive_files (recursion_limit w) svc DRIVE_FOLDER_ID ""
    = Ok drive_files ->
    Dict.get (load_checksums (snd (pull_from_google_drive sha256 lower
          dry_run w))) p
    = Some e ->
    In (p, e) (load_checksums w) \/
    recorded_by_download sha256 svc drive_files p e.
Proof.
  intros sha256 lower dry_run w svc drive_files p e Hsvc Hscan Hget.
  eapply pull_manifest_provenance; eauto.
Qed.

Section PushManifestAfter.
Variable sha256 : string -> string.

Lemma upload_file_records_id f folder_cache checksums w :
  forall cache' checksums' w',
    upload_file f folder_cache checksums w = (Ok (cache', checksums'), w') ->
    (exists e i, Dict.get checksums' f = Some e /\ drive_id e = Some i) /\
    forall p e i,
      Dict.get checksums p = Some e -> drive_id e = Some i ->
      exists e' i', Dict.get checksums' p = Some e' /\ drive_id e' = Some i'.
Proof.
  unfold upload_file. intros cache' c' w' H.
  repeat (split_match_in H; try discriminate).
  inversion H; subst. split.
  - rewrite DictFacts.get_set_eq.
    eexists. eexists. split; reflexivity.
  - intros p e0 i Hget Hid.
    destruct (String.eqb_spec f p) as [->|Hne].
    + rewrite DictFacts.get_set_eq.
      eexists. eexists. split; reflexivity.
    + rewrite DictFacts.get_set_ne by auto. eauto.
Qed.

Lemma upload_files_record_ids files :
  forall folder_cache checksums w checksums' w',
    upload_files files folder_cache checksums w = (Ok checksums', w') ->
    (forall f, In f files ->
       exists e i, Dict.get checksums' f = Some e /\ drive_id e = Some i) /\
    forall p e i,
      Dict.get checksums p = Some e -> drive_id e = Some i ->
      exists e' i', Dict.get checksums' p = Some e' /\ drive_id e' = Some i'.
Proof.
  induction files as [|f rest IH]; intros fc c w c' w' H; simpl in H.
  - inversion H; subst. split; [intros f [] | eauto].
  - destruct (upload_file f fc c w) as [[[cache1 c1]|] w1] eqn:E;
      [|discriminate].
    apply upload_file_records_id in E. destruct E as [Hf Hkeep].
    apply IH in H. destruct H as [Hrest Hkeep']. split.
    + intros g [<-|Hg]; [|now apply Hrest].
      destruct Hf as [e [i [Hget Hid]]]. eapply Hkeep'; eauto.
    + intros p e i Hget Hid.
      destruct (Hkeep p e i Hget Hid) as [e1 [i1 [Hget1 Hid1]]].
      eapply Hkeep'; eauto.
Qed.
End PushManifestAfter.

(** X24.  What a push saves.  When a push on a vault whose notes have
    distinct paths has found changes and returns, the manifest it has
    written tracks exactly the scanned notes, each with the hash of its
    present content, and every note that was classified as new or as
    modified has an entry with a remote id. *)
Theorem push_saves_a_snapshot_of_the_vault :
  forall (sha256 : string -> string) (w : world)
         (new_checksums : dict entry) (new_files modified_files : list string),
    NoDup (map fst (get_all_notes w)) ->
    scan_notes sha256 (load_checksums w) (get_all_notes w)
               (Dict.empty entry) [] []
    = Ok (new_checksums, new_files, modified_files) ->
    fst (sync_to_google_drive sha256 w) = Returned ->
    checksum_file (snd (sync_to_google_drive sha256 w)) <> checksum_file w ->
    agrees_with_vault sha256
      (load_checksums (snd (sync_to_google_drive sha256 w)))
      (get_all_notes w) /\
    forall p,
      In p (new_files ++ modified_files) ->
      exists e i,
        Dict.get (load_checksums (snd (sync_to_google_drive sha256 w))) p
        = Some e /\
        drive_id e = Some i.
Proof.
  intros sha256 w nc nf mf Hnd Hscan Hret Hnew.
  destruct (push_returned sha256 w Hnd Hret) as [Hsame|Hagree];
    [exfalso; apply Hnew; now rewrite Hsame|].
  split; auto. revert Hret Hnew. unfold sync_to_google_drive.
  destruct (get_google_drive_service w);
    [|intros _ H; exfalso; now apply H].
  rewrite Hscan.
  destruct (is_nil nf && is_nil mf && is_nil _);
    [intros _ H; exfalso; now apply H|].
  destruct (upload_files _ _ _ _) as [[c1|] w1] eqn:Eup; [|discriminate].
  destruct (delete_remote_files _ _ _) as [[[]|] w2]; [|discriminate].
  intros _ _ p Hp. simpl.
  eapply upload_files_record_ids in Eup. destruct Eup as [Hids _].
  now apply Hids.
Qed.

(** ** Where push puts a note *)

Lemma length_append (a b : string) :
  String.length (a ++ b) = String.length a + String.length b.
Proof. induction a as [|c a IH]; simpl; auto. Qed.

Lemma append_associative (a b c : string) :
  ((a ++ b) ++ c)%string = (a ++ b ++ c)%string.
Proof. induction a as [|x a IH]; simpl; auto. now rewrite IH. Qed.

Lemma concat_snoc (sep : string) (l : list string) (x : string) :
  l <> [] ->
  String.concat sep (l ++ [x]) = String.concat sep l ++ sep ++ x.
Proof.
  induction l as [|a r IH]; intros Hne; [congruence|].
  destruct r as [|b r'].
  - reflexivity.
  - change (String.concat sep ((a :: b :: r') ++ [x]))
      with (a ++ sep ++ String.concat sep ((b :: r') ++ [x])).
    rewrite IH by discriminate.
    change (String.concat sep (a :: b :: r'))
      with (a ++ sep ++ String.concat sep (b :: r')).
    now rewrite !append_associative.
Qed.

Lemma firstn_snoc {A : Type} (l : list A) :
  forall n x, nth_error l n = Some x -> firstn (S n) l = (firstn n l ++ [x])%list.
Proof.
  induction l as [|a r IH]; intros [|n] x H; simpl in *; try discriminate.
  - inversion H. reflexivity.
  - f_equal. now apply IH.
Qed.

Lemma key_length_step (folder_parts : list string) (i : nat) :
  S i < length folder_parts ->
  String.length (String.concat "/" (firstn (S i) folder_parts))
  < String.length (String.concat "/" (firstn (S (S i)) folder_parts)).
Proof.
  intros Hi.
  destruct (nth_error folder_parts (S i)) as [x|] eqn:Hx;
    [|apply nth_error_None in Hx; lia].
  rewrite (@firstn_snoc _ folder_parts (S i) x Hx), concat_snoc.
  - rewrite !length_append. simpl. lia.
  - destruct folder_parts; simpl in *; [lia | discriminate].
Qed.

Lemma key_length_lt (folder_parts : list string) (j i : nat) :
  j < i -> i < length folder_parts ->
  String.length (String.concat "/" (firstn (S j) folder_parts))
  < String.length (String.concat "/" (firstn (S i) folder_parts)).
Proof.
  induction 1 as [|i Hle IH]; intros Hi.
  - now apply key_length_step.
  - eapply Nat.lt_trans; [apply IH; lia | now apply key_length_step].
Qed.

Lemma key_injective (folder_parts : list string) (i j : nat) :
  i < length folder_parts -> j < length folder_parts ->
  String.concat "/" (firstn (S i) folder_parts)
  = String.concat "/" (firstn (S j) folder_parts) ->
  i = j.
Proof.
  intros Hi Hj Heq.
  destruct (Nat.lt_trichotomy i j) as [Hlt|[Heq'|Hgt]]; auto.
  - pose proof (@key_length_lt folder_parts i j Hlt Hj) as H.
    rewrite Heq in H. lia.
  - pose proof (@key_length_lt folder_parts j i Hgt Hi) as H.
    rewrite Heq in H. lia.
Qed.

Lemma evolves_refl svc : evolves svc svc.
Proof. intros f o H. exists o. auto. Qed.

Lemma evolves_trans svc1 svc2 svc3 :
  evolves svc1 svc2 -> evolves svc2 svc3 -> evolves svc1 svc3.
Proof.
  intros H12 H23 f o H. destruct (H12 f o H) as [o2 [Hin [Hi [Hn Hm]]]].
  destruct (H23 f o2 Hin) as [o3 [Hin3 [Hi3 [Hn3 Hm3]]]].
  exists o3. repeat split; congruence.
Qed.

Lemma folder_at_evolves svc svc' ps folder :
  evolves svc svc' -> folder_at svc ps folder -> folder_at svc' ps folder.
Proof.
  intros Hev H. induction H as [|ps parent_id o Hat IH Hin Hf].
  - constructor.
  - destruct (Hev parent_id o Hin) as [o' [Hin' [Hi [Hn Hm]]]].
    rewrite <- Hi, <- Hn.
    apply (@folder_at_child svc' ps parent_id o' IH Hin').
    unfold is_folder in *. now rewrite Hm.
Qed.

Lemma create_child svc name parent_folder_id mime data file_id svc' :
  create svc name parent_folder_id mime data = Ok (file_id, svc') ->
  evolves svc svc' /\
  exists o,
    In o (children svc' parent_folder_id) /\ item_id o = file_id /\
    item_name o = name /\ mime_type o = mime /\ media o = data.
Proof.
  unfold create. destruct (faulty svc _); [discriminate|].
  intros H. inversion H; subst. split.
  - intros f o Hin. exists o. repeat split; auto.
    unfold children in *. simpl. rewrite filter_app.
    apply in_app_iff. auto.
  - eexists. split.
    + rewrite children_after_create
        by (unfold in_folder; simpl; now rewrite String.eqb_refl).
      apply in_app_iff. right. left. reflexivity.
    + repeat split.
Qed.

Lemma get_or_create_folder_child svc folder_name parent_folder_id folder svc' :
  get_or_create_folder svc folder_name parent_folder_id = Ok (folder, svc') ->
  evolves svc svc' /\
  exists o,
    In o (children svc' parent_folder_id) /\ item_id o = folder /\
    item_name o = folder_name /\ is_folder o = true.
Proof.
  unfold get_or_create_folder. destruct (faulty svc _); [discriminate|].
  destruct (filter _ (children svc parent_folder_id)) as [|o rest] eqn:Ef.
  - intros H. apply create_child in H.
    destruct H as [Hev [o [Hin [Hid [Hname [Hmime _]]]]]].
    split; auto. exists o. repeat split; auto.
    unfold is_folder. rewrite Hmime. apply String.eqb_refl.
  - intros H. inversion H; subst. split; [apply evolves_refl|].
    assert (Hin : In o (filter
                          (fun o => (item_name o =? folder_name) && is_folder o)
                          (children svc' parent_folder_id)))
      by (rewrite Ef; now left).
    apply filter_In in Hin. destruct Hin as [Hin Hok].
    apply andb_true_iff in Hok. destruct Hok as [Hname Hfolder].
    apply String.eqb_eq in Hname. exists o. auto.
Qed.

Lemma folder_structure_chain folder_parts :
  forall rest done svc folder_cache parent_id folder cache1 svc1,
    folder_parts = (done ++ rest)%list ->
    folder_at svc done parent_id ->
    cache_sound svc folder_parts folder_cache ->
    folder_structure folder_parts
      (combine (seq (length done) (length rest)) rest)
      svc folder_cache parent_id
    = (Ok (folder, cache1), svc1) ->
    folder_at svc1 folder_parts folder /\ evolves svc svc1.
Proof.
  induction rest as [|name rest IH];
    intros done svc fc parent_id folder cache1 svc1 Hparts Hat Hsound H.
  - simpl in H. inversion H; subst. rewrite app_nil_r.
    split; [exact Hat | apply evolves_refl].
  - assert (Hlen : length done < length folder_parts)
      by (rewrite Hparts, length_app; simpl; lia).
    assert (Hprefix : firstn (S (length done)) folder_parts
                      = (done ++ [name])%list).
    { rewrite Hparts. replace (S (length done)) with (length done + 1) by lia.
      rewrite firstn_app_2. reflexivity. }
    assert (Hnext : folder_parts = ((done ++ [name]) ++ rest)%list)
      by (rewrite <- app_assoc; exact Hparts).
    assert (Hseq : S (length done) = length (done ++ [name]))
      by (rewrite length_app; simpl; lia).
    simpl length in H. simpl seq in H. simpl combine in H.
    rewrite folder_structure_step in H.
    destruct (Dict.get fc (String.concat "/"
                             (firstn (S (length done)) folder_parts)))
      as [cached|] eqn:Ecache.
    + rewrite Hseq in H. eapply IH in H; eauto.
      rewrite <- Hprefix. apply Hsound; auto.
    + destruct (get_or_create_folder svc name parent_id)
        as [[created svc']|] eqn:Ecreate; [|discriminate].
      apply get_or_create_folder_child in Ecreate.
      destruct Ecreate as [Hev [o [Hin [Hid [Hname Hfolder]]]]].
      rewrite Hseq in H. eapply IH in H; eauto.
      * destruct H as [Hfinal Hev']. split; auto.
        eapply evolves_trans; eauto.
      * rewrite <- Hid, <- Hname.
        apply (@folder_at_child svc' done parent_id o); auto.
        eapply folder_at_evolves; eauto.
      * intros j folder_j Hj Hget. rewrite <- Hseq in Hget.
        destruct (Nat.eq_dec j (length done)) as [->|Hne].
        -- rewrite DictFacts.get_set_eq in Hget. injection Hget as <-.
           rewrite Hprefix, <- Hid, <- Hname.
           apply (@folder_at_child svc' done parent_id o); auto.
           eapply folder_at_evolves; eauto.
        -- rewrite DictFacts.get_set_ne in Hget.
           ++ eapply folder_at_evolves; eauto.
           ++ intros Heq. apply key_injective in Heq; auto.
Qed.

Lemma folder_at_reaches svc ps folder :
  folder_at svc ps folder ->
  forall o x,
    reaches (children svc) folder (scan_path ps) o x ->
    reaches (children svc) DRIVE_FOLDER_ID "" o x.
Proof.
  induction 1 as [|ps parent_id d Hat IH Hin Hf]; intros o x H.
  - exact H.
  - apply IH. eapply reaches_below; eauto.
    unfold scan_path in *. now rewrite fold_left_app in H.
Qed.

Lemma upload_to_drive_child svc name data parent_id file_id uploaded svc' :
  (forall fid, file_id = Some fid ->
     exists o, In o (children svc parent_id) /\ item_id o = fid /\
               item_name o = name) ->
  upload_to_drive svc name data parent_id file_id = Ok (uploaded, svc') ->
  evolves svc svc' /\
  exists o,
    In o (children svc' parent_id) /\ item_id o = uploaded /\
    item_name o = name /\ media o = data.
Proof.
  intros Hfound. unfold upload_to_drive.
  assert (Hcreate :
            create svc name parent_id DETECTED_MIME data = Ok (uploaded, svc') ->
            evolves svc svc' /\
            exists o,
              In o (children svc' parent_id) /\ item_id o = uploaded /\
              item_name o = name /\ media o = data).
  { intros H. apply create_child in H.
    destruct H as [Hev [o [Hin [Hid [Hn [_ Hm]]]]]]. split; eauto. }
  destruct file_id as [fid|]; [|exact Hcreate].
  destruct (truthy (Some fid)); [|exact Hcreate].
  destruct (faulty svc _); [discriminate|].
  destruct (find_object svc fid); [|discriminate].
  intros H. inversion H; subst.
  assert (Hmap : forall f o,
            In o (children svc f) ->
            In (set_media uploaded data (ticks svc) o)
               (children (with_objects svc
                            (map (set_media uploaded data (ticks svc))
                                 (objects svc))) f)).
  { intros f o Hin. unfold children in *. simpl.
    apply filter_In in Hin. destruct Hin as [Hin Hok].
    apply filter_In. split; [now apply in_map|].
    unfold set_media. destruct (item_id o =? uploaded); exact Hok. }
  split.
  - intros f o Hin. exists (set_media uploaded data (ticks svc) o).
    split; [now apply Hmap|].
    unfold set_media. destruct (item_id o =? uploaded); auto.
  - destruct (Hfound uploaded eq_refl) as [o [Hin [Hid Hname]]].
    exists (set_media uploaded data (ticks svc) o).
    split; [now apply Hmap|].
    unfold set_media. rewrite Hid, String.eqb_refl. simpl. auto.
Qed.

Lemma get_drive_file_id_child svc filename parent_folder_id fid :
  get_drive_file_id svc filename parent_folder_id = Ok (Some fid) ->
  exists o,
    In o (children svc parent_folder_id) /\ item_id o = fid /\
    item_name o = filename.
Proof.
  unfold get_drive_file_id. destruct (faulty svc _); [discriminate|].
  destruct (filter _ (children svc parent_folder_id)) as [|o rest] eqn:Ef;
    [discriminate|].
  intros H. inversion H; subst.
  assert (Hin : In o (filter (fun o => item_name o =? filename)
                             (children svc parent_folder_id)))
    by (rewrite Ef; now left).
  apply filter_In in Hin. destruct Hin as [Hin Hname].
  apply String.eqb_eq in Hname. eauto.
Qed.

(** X25.  Push puts a note where the remote scan will look for it.  When
    the upload of a note whose manifest entry has no remote id succeeds,
    and what the folder cache says is true of Drive, Drive has an object
    with the note's name and bytes in the folder that the note's
    directories lead to from the root; the scan's walk reaches it at the
    path made of the note's components; and the manifest entry of the
    note carries its id. *)
Theorem upload_lands_at_the_path_of_the_note :
  forall (file_path_str : string) (folder_cache cache' : dict string)
         (checksums checksums' : dict entry) (w w' : world) (e : entry),
    upload_file file_path_str folder_cache checksums w
    = (Ok (cache', checksums'), w') ->
    cache_sound (drive w) (removelast (parts file_path_str)) folder_cache ->
    Dict.get checksums file_path_str = Some e ->
    truthy (drive_id e) = false ->
    exists o name data mtime,
      lookup_path (parts file_path_str) (vault w)
      = Some (File name data mtime) /\
      reaches (children (drive w')) DRIVE_FOLDER_ID "" o
              (scan_path (parts file_path_str)) /\
      item_name o = last (parts file_path_str) "" /\
      media o = data /\
      exists e',
        Dict.get checksums' file_path_str = Some e' /\
        drive_id e' = Some (item_id o).
Proof.
  intros f fc cache' c c' w w' e H Hsound Hget Hno. unfold upload_file in H.
  destruct (folder_structure _ _ _ _ _) as [[[parent_id cache1]|] svc1]
    eqn:Efolders; [|discriminate].
  rewrite Hget, Hno in H.
  destruct (get_drive_file_id svc1 _ parent_id) as [file_id|] eqn:Efind;
    [|discriminate].
  destruct (lookup_path (parts f) (vault w)) as [[name data mtime|n es]|]
    eqn:Elook; try discriminate.
  destruct (upload_to_drive _ _ _ _ _) as [[uploaded svc2]|] eqn:Eup;
    [|discriminate].
  injection H as _ <- <-.
  assert (Hne : parts f <> []) by (intros E; rewrite E in Elook; discriminate).
  apply (@folder_structure_chain (removelast (parts f))
           (removelast (parts f)) [] (drive w) fc DRIVE_FOLDER_ID
           parent_id cache1 svc1 eq_refl (folder_at_root (drive w)) Hsound)
    in Efolders.
  destruct Efolders as [Hat Hev1].
  apply upload_to_drive_child in Eup.
  - destruct Eup as [Hev2 [o [Hin [Hid [Hname Hmedia]]]]].
    exists o, name, data, mtime. split; [reflexivity|]. split.
    + apply (@folder_at_reaches svc2 (removelast (parts f)) parent_id).
      * eapply folder_at_evolves; eauto.
      * rewrite (app_removelast_last "" Hne) at 2.
        unfold scan_path. rewrite fold_left_app. simpl. rewrite <- Hname.
        now apply reaches_child.
    + repeat split; auto.
      eexists. rewrite DictFacts.get_set_eq. split; [reflexivity|].
      simpl. now rewrite Hid.
  - intros fid ->. now apply get_drive_file_id_child.
Qed.

(** ** Instances of the further properties *)

Lemma push_classification_is_exact_witness :
  scan_notes (fun s => s) [("a.md", tracked_note)]
    [("a.md", File "a.md" "# a" 7); ("b.md", File "b.md" "# b" 8)]
    (Dict.empty entry) [] []
  = Ok ([("a.md", {| checksum := "# a"; modified := 7;
                     drive_id := Some "R1"; drive_modified := None |});
         ("b.md", {| checksum := "# b"; modified := 8;
                     drive_id := None; drive_modified := None |})],
        ["b.md"], ["a.md"]) /\
  (In "b.md" (["b.md"] ++ ["a.md"]) <->
   exists name data mtime,
     In ("b.md", File name data mtime)
        [("a.md", File "a.md" "# a" 7); ("b.md", File "b.md" "# b" 8)] /\
     needs_upload (fun s => s) [("a.md", tracked_note)] "b.md" data).
Proof.
  split; [reflexivity|].
  apply (@push_classification_is_exact (fun s => s)
           [("a.md", tracked_note)]
           [("a.md", File "a.md" "# a" 7); ("b.md", File "b.md" "# b" 8)]
           [("a.md", {| checksum := "# a"; modified := 7;
                        drive_id := Some "R1"; drive_modified := None |});
            ("b.md", {| checksum := "# b"; modified := 8;
                        drive_id := None; drive_modified := None |})]
           ["b.md"] ["a.md"] "b.md").
  reflexivity.
Defined.

Lemma pull_in_sync_does_nothing_witness :
  agrees_with_drive (load_checksums in_sync) (vault in_sync)
    [("a.md", {| id := "R1"; modified_in_drive := 1 |})] /\
  pull_from_google_drive (fun s => s) ascii_lower
        false in_sync = (Returned, in_sync).
Proof.
  assert (H : agrees_with_drive (load_checksums in_sync) (vault in_sync)
                [("a.md", {| id := "R1"; modified_in_drive := 1 |})]).
  { split.
    - intros p info [H|[]]. inversion H; subst.
      unfold needs_download. simpl. intros [H'|[H'|H']]; discriminate.
    - intros p [<-|[]]. simpl. auto. }
  split; [exact H|].
  apply (@pull_in_sync_does_nothing (fun s => s) ascii_lower false in_sync
           (drive in_sync)
           [("a.md", {| id := "R1"; modified_in_drive := 1 |})]).
  - reflexivity.
  - reflexivity.
  - exact H.
Defined.

Lemma push_in_sync_does_nothing_witness :
  agrees_with_vault (fun s => s) (load_checksums in_sync)
                    (get_all_notes in_sync) /\
  sync_to_google_drive (fun s => s) in_sync = (Returned, in_sync).
Proof.
  assert (H : agrees_with_vault (fun s => s) (load_checksums in_sync)
                                (get_all_notes in_sync)).
  { split.
    - intros p note [H|[]]. inversion H; subst.
      exists "a.md", "# a", 7. eexists. repeat split.
    - intros p [<-|[]]. simpl. auto. }
  split; [exact H|].
  apply (@push_in_sync_does_nothing (fun s => s) in_sync). exact H.
Defined.

Lemma push_twice_does_nothing_more_witness :
  NoDup (map fst (get_all_notes first_push)) /\
  fst (sync_to_google_drive (fun s => s) first_push) = Returned /\
  sync_to_google_drive (fun s => s)
    (snd (sync_to_google_drive (fun s => s) first_push))
  = (Returned, snd (sync_to_google_drive (fun s => s) first_push)).
Proof.
  assert (H : NoDup (map fst (get_all_notes first_push)))
    by (repeat constructor; simpl; tauto).
  split; [exact H|]. split; [reflexivity|].
  apply (@push_twice_does_nothing_more (fun s => s) first_push).
  - exact H.
  - reflexivity.
Defined.

Lemma push_after_init_uploads_nothing_witness :
  push_main (fun s => s) init_only first_push
  = (0, save_checksums
          [("notes/a.md", {| checksum := "# a"; modified := 7;
                             drive_id := None; drive_modified := None |})]
          first_push) /\
  agrees_with_vault (fun s => s)
    [("notes/a.md", {| checksum := "# a"; modified := 7;
                       drive_id := None; drive_modified := None |})]
    (get_all_notes first_push) /\
  push_main (fun s => s) no_args
    (save_checksums
       [("notes/a.md", {| checksum := "# a"; modified := 7;
                          drive_id := None; drive_modified := None |})]
       first_push)
  = (0, save_checksums
          [("notes/a.md", {| checksum := "# a"; modified := 7;
                             drive_id := None; drive_modified := None |})]
          first_push).
Proof.
  apply (@push_after_init_uploads_nothing (fun s => s) first_push
           [("notes/a.md", {| checksum := "# a"; modified := 7;
                              drive_id := None; drive_modified := None |})]).
  - repeat constructor. simpl. tauto.
  - reflexivity.
Defined.

Lemma pull_isolates_a_failed_download_witness :
  get_media (drive download_fails) "R1" = Raise /\
  fst (pull_from_google_drive (fun s => s) ascii_lower
        false download_fails) = Returned /\
  Dict.get
    (load_checksums
       (snd (pull_from_google_drive (fun s => s) ascii_lower
             false download_fails)))
    "a.md"
  = Dict.get (load_checksums download_fails) "a.md" /\
  forall g,
    In g (fst (classify_drive_files (load_checksums download_fails)
                 (vault download_fails)
                 [("a.md", {| id := "R1"; modified_in_drive := 1 |});
                  ("b.md", {| id := "R2"; modified_in_drive := 2 |})] [] []) ++
          snd (classify_drive_files (load_checksums download_fails)
                 (vault download_fails)
                 [("a.md", {| id := "R1"; modified_in_drive := 1 |});
                  ("b.md", {| id := "R2"; modified_in_drive := 2 |})] [] [])) ->
    In (Download g)
       (trace (snd (pull_from_google_drive (fun s => s) ascii_lower false
                                           download_fails))).
Proof.
  split; [reflexivity|].
  apply (@pull_isolates_a_failed_download (fun s => s) ascii_lower
        download_fails
           (drive download_fails)
           [("a.md", {| id := "R1"; modified_in_drive := 1 |});
            ("b.md", {| id := "R2"; modified_in_drive := 2 |})]
           "a.md" {| id := "R1"; modified_in_drive := 1 |});
    reflexivity.
Defined.

Lemma remote_scan_entries_come_from_drive_witness :
  list_drive_files 1000 (drive image_in_drive) DRIVE_FOLDER_ID ""
  = Ok [("img/photo.png", {| id := "R1"; modified_in_drive := 1 |})] /\
  NoDup (Dict.keys [("img/photo.png",
                     {| id := "R1"; modified_in_drive := 1 |})]) /\
  forall file_path info,
    Dict.get [("img/photo.png", {| id := "R1"; modified_in_drive := 1 |})]
             file_path = Some info ->
    exists o,
      reaches (first_page (drive image_in_drive)) DRIVE_FOLDER_ID ""
              o file_path /\
      is_folder o = false /\
      recognized (item_name o) = true /\
      id info = item_id o /\
      modified_in_drive info = modifiedTime o.
Proof.
  split; [reflexivity|].
  apply (@remote_scan_entries_come_from_drive
           (drive image_in_drive) 1000 DRIVE_FOLDER_ID "").
  reflexivity.
Defined.

Lemma get_or_create_folder_creates_once_witness :
  get_or_create_folder (reliable [] 0) "notes" DRIVE_FOLDER_ID
  = Ok ("id0", reliable [notes_folder] 1) /\
  get_or_create_folder (reliable [notes_folder] 1) "notes" DRIVE_FOLDER_ID
  = Ok ("id0", reliable [notes_folder] 1) /\
  exists o,
    In o (children (reliable [notes_folder] 1) DRIVE_FOLDER_ID) /\
    item_id o = "id0" /\ item_name o = "notes" /\ is_folder o = true.
Proof.
  split; [reflexivity|].
  apply (@get_or_create_folder_creates_once
           (reliable [] 0) (reliable [notes_folder] 1)
           "notes" DRIVE_FOLDER_ID "id0").
  reflexivity.
Defined.

Lemma folder_cache_resolves_a_directory_once_witness :
  folder_structure ["notes"] (enumerate ["notes"]) (reliable [] 0)
                   (Dict.empty string) DRIVE_FOLDER_ID
  = (Ok ("id0", [("notes", "id0")]), reliable [notes_folder] 1) /\
  extends [("notes", "id0")] (Dict.empty string) /\
  forall cache2 svc2,
    extends cache2 [("notes", "id0")] ->
    folder_structure ["notes"] (enumerate ["notes"])
                     (unreachable svc2) cache2 DRIVE_FOLDER_ID
    = (Ok ("id0", cache2), unreachable svc2).
Proof.
  split; [reflexivity|].
  apply (@folder_cache_resolves_a_directory_once
           ["notes"] (reliable [] 0) (reliable [notes_folder] 1)
           (Dict.empty string) [("notes", "id0")] "id0").
  reflexivity.
Defined.

Lemma download_file_writes_the_media_witness :
  exists data,
    get_media (drive image_in_drive) "R1" = Ok data /\
    lookup_path (parts "img/photo.png")
      (vault (snd (download_file (drive image_in_drive) "R1" "img/photo.png"
                                 image_in_drive)))
    = Some (File (last (parts "img/photo.png") "") data
                 (clock image_in_drive)) /\
    path_exists
      (vault (snd (download_file (drive image_in_drive) "R1" "img/photo.png"
                                 image_in_drive)))
      "img/photo.png" = true.
Proof.
  apply (@download_file_writes_the_media
           (drive image_in_drive) "R1" "img/photo.png" image_in_drive
           (snd (download_file (drive image_in_drive) "R1" "img/photo.png"
                               image_in_drive))).
  reflexivity.
Defined.

Lemma push_sends_each_classified_action_once_witness :
  trace (snd (sync_to_google_drive (fun s => s) first_push))
  = (trace first_push ++ map Upload (["notes/a.md"] ++ []) ++
     remote_deletes (load_checksums first_push)
       (files_deleted_locally (load_checksums first_push)
          [("notes/a.md", {| checksum := "# a"; modified := 7;
                             drive_id := None; drive_modified := None |})]))%list.
Proof.
  apply (@push_sends_each_classified_action_once
           (fun s => s) first_push
           [("notes/a.md", {| checksum := "# a"; modified := 7;
                              drive_id := None; drive_modified := None |})]
           ["notes/a.md"] []).
  - discriminate.
  - reflexivity.
  - reflexivity.
Defined.

Lemma pull_attempts_each_download_once_witness :
  exists deletions,
    trace (snd (pull_from_google_drive (fun s => s) ascii_lower
          false remote_changed))
    = (trace remote_changed ++
       map Download
         (fst (classify_drive_files (load_checksums remote_changed)
                 (vault remote_changed)
                 [("b.md", {| id := "R2"; modified_in_drive := 2 |})] [] []) ++
          snd (classify_drive_files (load_checksums remote_changed)
                 (vault remote_changed)
                 [("b.md", {| id := "R2"; modified_in_drive := 2 |})] [] [])) ++
       deletions)%list /\
    forall e,
      In e deletions ->
      exists p,
        e = DeleteLocal p /\
        In p (files_deleted_from_drive (load_checksums remote_changed)
                [("b.md", {| id := "R2"; modified_in_drive := 2 |})]).
Proof.
  apply (@pull_attempts_each_download_once (fun s => s) ascii_lower
        remote_changed
           (drive remote_changed)
           [("b.md", {| id := "R2"; modified_in_drive := 2 |})]);
    reflexivity.
Defined.

Lemma pull_manifest_entries_are_found_or_downloaded_witness :
  In ("b.md", {| checksum := ""; modified := 100; drive_id := Some "R2";
                 drive_modified := Some 2 |})
     (load_checksums download_fails) \/
  recorded_by_download (fun s => s) (drive download_fails)
    [("a.md", {| id := "R1"; modified_in_drive := 1 |});
     ("b.md", {| id := "R2"; modified_in_drive := 2 |})]
    "b.md"
    {| checksum := ""; modified := 100; drive_id := Some "R2";
       drive_modified := Some 2 |}.
Proof.
  apply (@pull_manifest_entries_are_found_or_downloaded
           (fun s => s) ascii_lower false download_fails (drive download_fails)
           [("a.md", {| id := "R1"; modified_in_drive := 1 |});
            ("b.md", {| id := "R2"; modified_in_drive := 2 |})]
           "b.md"
           {| checksum := ""; modified := 100; drive_id := Some "R2";
              drive_modified := Some 2 |});
    reflexivity.
Defined.

Lemma push_saves_a_snapshot_of_the_vault_witness :
  agrees_with_vault (fun s => s)
    (load_checksums (snd (sync_to_google_drive (fun s => s) first_push)))
    (get_all_notes first_push) /\
  forall p,
    In p (["notes/a.md"] ++ []) ->
    exists e i,
      Dict.get
        (load_checksums (snd (sync_to_google_drive (fun s => s) first_push)))
        p
      = Some e /\
      drive_id e = Some i.
Proof.
  apply (@push_saves_a_snapshot_of_the_vault
           (fun s => s) first_push
           [("notes/a.md", {| checksum := "# a"; modified := 7;
                              drive_id := None; drive_modified := None |})]
           ["notes/a.md"] []).
  - repeat constructor. simpl. tauto.
  - reflexivity.
  - reflexivity.
  - discriminate.
Defined.

Lemma upload_lands_at_the_path_of_the_note_witness :
  exists o name data mtime,
    lookup_path (parts "notes/a.md") (vault first_push)
    = Some (File name data mtime) /\
    reaches
      (children
         (drive
            (snd (upload_file "notes/a.md" (Dict.empty string)
                    [("notes/a.md",
                      {| checksum := "# a"; modified := 7;
                         drive_id := None; drive_modified := None |})]
                    first_push))))
      DRIVE_FOLDER_ID "" o (scan_path (parts "notes/a.md")) /\
    item_name o = last (parts "notes/a.md") "" /\
    media o = data /\
    exists e',
      Dict.get
        [("notes/a.md", {| checksum := "# a"; modified := 7;
                           drive_id := Some "id1"; drive_modified := None |})]
        "notes/a.md"
      = Some e' /\
      drive_id e' = Some (item_id o).
Proof.
  apply (@upload_lands_at_the_path_of_the_note
           "notes/a.md" (Dict.empty string) [("notes", "id0")]
           [("notes/a.md", {| checksum := "# a"; modified := 7;
                              drive_id := None; drive_modified := None |})]
           [("notes/a.md", {| checksum := "# a"; modified := 7;
                              drive_id := Some "id1"; drive_modified := None |})]
           first_push
           (snd (upload_file "notes/a.md" (Dict.empty string)
                   [("notes/a.md",
                     {| checksum := "# a"; modified := 7;
                        drive_id := None; drive_modified := None |})]
                   first_push))
           {| checksum := "# a"; modified := 7;
              drive_id := None; drive_modified := None |}).
  - reflexivity.
  - intros i folder _ H. discriminate H.
  - reflexivity.
  - reflexivity.
Defined.

(** ** Files that share a path *)

Lemma get_update (V : Type) (other : dict V) :
  NoDup (Dict.keys other) ->
  forall (d : dict V) (k : string),
    Dict.get (Dict.update d other) k
    = match Dict.get other k with
      | Some v => Some v
      | None => Dict.get d k
      end.
Proof.
  unfold Dict.update.
  induction other as [|[k0 v0] r IH]; intros Hnd d k; simpl; auto.
  inversion Hnd as [|x l Hout Hrest]; subst.
  rewrite IH by assumption.
  destruct (String.eqb_spec k0 k) as [->|Hne].
  - apply DictFacts.get_none_not_in_keys in Hout. rewrite Hout.
    apply DictFacts.get_set_eq.
  - destruct (Dict.get r k); auto.
    now apply DictFacts.get_set_ne.
Qed.

Lemma last_at_app file_path l1 l2 :
  last_at file_path (l1 ++ l2)
  = match last_at file_path l2 with
    | Some later => Some later
    | None => last_at file_path l1
    end.
Proof.
  induction l1 as [|[k o] r IH]; simpl.
  - destruct (last_at file_path l2); reflexivity.
  - rewrite IH. destruct (last_at file_path l2); reflexivity.
Qed.

Lemma last_at_none file_path l :
  (forall o, ~ In (file_path, o) l) -> last_at file_path l = None.
Proof.
  induction l as [|[k o] r IH]; intros H; simpl; auto.
  rewrite IH by (intros o' Ho'; apply (H o'); now right).
  destruct (String.eqb_spec k file_path) as [->|Hne]; auto.
  exfalso. apply (H o). now left.
Qed.

Lemma last_at_found file_path before o after :
  (forall o', ~ In (file_path, o') after) ->
  last_at file_path (before ++ (file_path, o) :: after) = Some o.
Proof.
  intros H. rewrite last_at_app. simpl.
  now rewrite (@last_at_none file_path after H), String.eqb_refl.
Qed.

Section ScanLast.
Variable recurse : string -> string -> result (dict drive_info).
Variable below : string -> string -> list (string * drive_item).
Variable path : string.

Lemma scan_items_last items :
  (forall o, In o items -> is_folder o = true ->
     exists subfiles,
       recurse (item_id o) (join path (item_name o)) = Ok subfiles /\
       NoDup (Dict.keys subfiles) /\
       forall k,
         Dict.get subfiles k
         = option_map info_of
             (last_at k (below (item_id o) (join path (item_name o))))) ->
  forall files_dict,
  exists scanned,
    fold_left (scan_item recurse path) items (Ok files_dict) = Ok scanned /\
    forall k,
      Dict.get scanned k
      = match last_at k (flat_map (visit_item below path) items) with
        | Some o => Some (info_of o)
        | None => Dict.get files_dict k
        end.
Proof.
  induction items as [|o rest IH]; intros Hsub acc; simpl.
  - exists acc. auto.
  - assert (Hrest : forall o', In o' rest -> is_folder o' = true ->
              exists subfiles,
                recurse (item_id o') (join path (item_name o')) = Ok subfiles /\
                NoDup (Dict.keys subfiles) /\
                forall k,
                  Dict.get subfiles k
                  = option_map info_of
                      (last_at k (below (item_id o')
                                        (join path (item_name o')))))
      by (intros o' Hin; apply Hsub; now right).
    unfold visit_item at 1.
    destruct (is_folder o) eqn:Efolder.
    + destruct (Hsub o (or_introl eq_refl) Efolder)
        as [sub [Hrec [Hnd Hget]]].
      rewrite Hrec.
      destruct (IH Hrest (Dict.update acc sub)) as [res [Hres Hlast]].
      exists res. split; auto. intros k.
      rewrite Hlast, last_at_app, (@get_update _ sub Hnd), Hget.
      destruct (last_at k (flat_map _ rest)); auto.
      destruct (last_at k (below _ _)); reflexivity.
    + destruct (recognized (item_name o)) eqn:Erec.
      * destruct (IH Hrest
                    (Dict.set acc (join path (item_name o))
                       {| id := item_id o;
                          modified_in_drive := modifiedTime o |}))
          as [res [Hres Hlast]].
        exists res. split; auto. intros k.
        rewrite Hlast, last_at_app. simpl.
        destruct (last_at k (flat_map _ rest)); auto.
        destruct (String.eqb_spec (join path (item_name o)) k) as [<-|Hne].
        -- now rewrite DictFacts.get_set_eq.
        -- now apply DictFacts.get_set_ne.
      * destruct (IH Hrest acc) as [res [Hres Hlast]].
        exists res. split; auto.
Qed.
End ScanLast.

(** Without transport faults and within the recursion limit, the scan
    returns a map that gives, for each path, the last of the files
    visited at that path. *)
Lemma list_drive_files_last svc :
  (forall f, faulty svc (ListRequest f) = false) ->
  forall depth folder_id path,
    shallow depth svc folder_id = true ->
    exists files_dict,
      list_drive_files depth svc folder_id path = Ok files_dict /\
      forall k,
        Dict.get files_dict k
        = option_map info_of (last_at k (visits depth svc folder_id path)).
Proof.
  intros Hquiet depth.
  induction depth as [|depth IH]; intros folder_id path Hsh;
    [discriminate|].
  simpl. unfold list_page. rewrite Hquiet.
  fold (first_page svc folder_id).
  destruct (@scan_items_last (list_drive_files depth svc)
              (visits depth svc) path (first_page svc folder_id))
    with (files_dict := Dict.empty drive_info) as [res [Hres Hlast]].
  { intros o Hin Hf.
    assert (Hdeep : shallow depth svc (item_id o) = true)
      by (eapply shallow_children; eauto; now apply first_page_listed).
    destruct (IH (item_id o) (join path (item_name o)) Hdeep)
      as [sub [Hscan Hget]].
    exists sub. split; auto. split; auto.
    eapply list_drive_files_entries; eauto. }
  exists res. split; [exact Hres|]. intros k. rewrite Hlast.
  destruct (last_at k _); reflexivity.
Qed.

(** The visit meets matching files only, each at a path at which it is
    reached through the first pages. *)
Lemma visits_reach svc :
  forall depth folder_id path file_path o,
    In (file_path, o) (visits depth svc folder_id path) ->
    reaches (first_page svc) folder_id path o file_path /\ matching o.
Proof.
  induction depth as [|depth IH]; intros folder_id path file_path o H;
    simpl in H; [tauto|].
  apply in_flat_map in H. destruct H as [d [Hd H]].
  unfold visit_item in H. destruct (is_folder d) eqn:Efolder.
  - apply IH in H. destruct H as [Hreach Hm]. split; auto.
    eapply reaches_below; eauto.
  - destruct (recognized (item_name d)) eqn:Erec; [|destruct H].
    destruct H as [H|[]]. inversion H; subst.
    split; [now apply reaches_child | split; auto].
Qed.

(** Within the recursion limit, the visit meets every matching file
    that is reached through the first pages. *)
Lemma reach_visits svc folder_id path o file_path :
  reaches (first_page svc) folder_id path o file_path ->
  matching o ->
  forall depth,
    shallow depth svc folder_id = true ->
    In (file_path, o) (visits depth svc folder_id path).
Proof.
  intros Hreach [Hfile Hrec].
  induction Hreach as [f p o Hin|f p d o fp Hin Hf _ IH];
    intros [|depth] Hsh; try discriminate; simpl; apply in_flat_map.
  - exists o. split; auto. unfold visit_item. rewrite Hfile, Hrec.
    now left.
  - exists d. split; auto. unfold visit_item. rewrite Hf.
    apply IH; auto.
    eapply shallow_children; eauto. now apply first_page_listed.
Qed.

(** C6, as the code has it.  Distinct objects that describe one relative
    path raise no error and are not reported.  Without transport faults
    and within the recursion limit the scan returns a map; the map has
    one entry for a path; the files that the scan visits are the
    matching files reached through the first pages, each at its path;
    and for every path the entry is the id and the modification time of
    the file visited last at that path, so that a file with another id
    visited earlier at the same path has left nothing in the map.  This
    holds wherever the colliding files lie: in one folder, in two
    folders of one name, or behind a name that contains a slash. *)
Theorem scan_keeps_the_later_of_two_colliding_files :
  forall (svc : service) (depth : nat) (folder_id path : string),
    (forall f, faulty svc (ListRequest f) = false) ->
    shallow depth svc folder_id = true ->
    exists files_dict,
      list_drive_files depth svc folder_id path = Ok files_dict /\
      NoDup (Dict.keys files_dict) /\
      (forall file_path o,
          In (file_path, o) (visits depth svc folder_id path) <->
          reaches (first_page svc) folder_id path o file_path /\
          matching o) /\
      forall before file_path o after,
        visits depth svc folder_id path
        = (before ++ (file_path, o) :: after)%list ->
        (forall o', ~ In (file_path, o') after) ->
        Dict.get files_dict file_path = Some (info_of o) /\
        forall o1,
          In (file_path, o1) before ->
          item_id o1 <> item_id o ->
          Dict.get files_dict file_path <> Some (info_of o1).
Proof.
  intros svc depth folder_id path Hquiet Hsh.
  destruct (list_drive_files_last svc Hquiet depth folder_id path Hsh)
    as [files_dict [Hscan Hlast]].
  exists files_dict. split; [exact Hscan|]. split; [|split].
  - eapply list_drive_files_entries; eauto.
  - intros file_path o. split.
    + apply visits_reach.
    + intros [Hreach Hm]. now apply reach_visits.
  - intros before file_path o after Hvisits Hafter.
    assert (Hget : Dict.get files_dict file_path = Some (info_of o)).
    { rewrite Hlast, Hvisits.
      now rewrite (@last_at_found file_path before o after Hafter). }
    split; [exact Hget|].
    intros o1 _ Hid. rewrite Hget. unfold info_of.
    intros H. inversion H. congruence.
Qed.

(** C6 as stated fails: the root folder holds two files named [a.md],
    with ids [R1] and [R2]; the scan returns a map, with the single
    entry of [R2], and no error. *)
Lemma colliding_paths_are_merged_silently :
  children twins DRIVE_FOLDER_ID
  = [in_root "R1" "a.md" 1; in_root "R2" "a.md" 2] /\
  list_drive_files 1000 twins DRIVE_FOLDER_ID ""
  = Ok [("a.md", {| id := "R2"; modified_in_drive := 2 |})].
Proof. split; reflexivity. Qed.

Lemma scan_keeps_the_later_of_two_colliding_files_witness :
  exists files_dict,
    list_drive_files 1000 namesakes DRIVE_FOLDER_ID "" = Ok files_dict /\
    NoDup (Dict.keys files_dict) /\
    (forall file_path o,
        In (file_path, o) (visits 1000 namesakes DRIVE_FOLDER_ID "") <->
        reaches (first_page namesakes) DRIVE_FOLDER_ID "" o file_path /\
        matching o) /\
    forall before file_path o after,
      visits 1000 namesakes DRIVE_FOLDER_ID ""
      = (before ++ (file_path, o) :: after)%list ->
      (forall o', ~ In (file_path, o') after) ->
      Dict.get files_dict file_path = Some (info_of o) /\
      forall o1,
        In (file_path, o1) before ->
        item_id o1 <> item_id o ->
        Dict.get files_dict file_path <> Some (info_of o1).
Proof.
  apply (@scan_keeps_the_later_of_two_colliding_files
           namesakes 1000 DRIVE_FOLDER_ID "").
  - intros f. reflexivity.
  - vm_compute. reflexivity.
Defined.
